(** * Job orchestration and live-log distribution of the worker

    A shallow embedding of the worker process (the handlers of
    [/jobs/start], [/jobs/:id/stream] and [/jobs/:id/end], [pushLog],
    [pushStatus] and the callbacks chained on [runBot]) and of the logger's
    [emit], followed by the properties of the orchestration core.

    The worker runs on a single-threaded event loop, so each request
    handler and each promise callback is one atomic step of the model; the
    [then]/[catch] callback and the [finally] callback of a job are two
    steps, as they are two reactions of the promise chain.  The task
    [runBot] itself is not modelled: it shows as the events it causes (log
    calls under its job context, and the settlement of its promise).  Job
    objects and listener objects live in a heap and are named by their
    index, since closures and the registry share them by reference.

    Strings are [String.string]; a character stands for one UTF-16 code unit
    below 256, which is enough for every literal of the worker and for the
    ANSI escape sequences of the logger.  The JavaScript numbers of the
    worker are the results of [Number.parseInt] and the size of a set: NaN,
    the infinities and the doubles that hold an integer ([Js.Number]); an
    integer that is not a double is rounded to the nearest one. *)

From Stdlib Require Import ZArith Ascii String.
From stdpp Require Import base decidable option list strings gmap sets fin_maps.

Local Open Scope string_scope.
Local Open Scope list_scope.
Local Open Scope nat_scope.

(* ===================================================================== *)
(** ** JavaScript string primitives used by the sources *)
(* ===================================================================== *)

Module Js.

Definition LF : ascii := "010"%char.
Definition ESC : ascii := "027"%char.

(** White space and line terminators of ECMAScript among the code units
    below 256: TAB, LF, VT, FF, CR, SP and NBSP.  Both [trimEnd] and the
    leading-blank skipping of [parseInt] use this set. *)
Definition isWhiteSpace (c : ascii) : bool :=
  let n := nat_of_ascii c in
  (Nat.leb 9 n && Nat.leb n 13) || Nat.eqb n 32 || Nat.eqb n 160.

Definition isDigit (c : ascii) : bool :=
  let n := nat_of_ascii c in Nat.leb 48 n && Nat.leb n 57.

Definition digitValue (c : ascii) : Z := Z.of_nat (nat_of_ascii c) - 48.

Definition isEmpty (s : string) : bool :=
  match s with EmptyString => true | String _ _ => false end.

(** [s.trimEnd()] *)
Fixpoint trimEnd (s : string) : string :=
  match s with
  | EmptyString => EmptyString
  | String c r =>
      let r' := trimEnd r in
      if isWhiteSpace c && isEmpty r' then EmptyString else String c r'
  end.

(** [s.split('\n')]: never empty, [''.split('\n')] is [['']]. *)
Fixpoint split_lines (s : string) : list string :=
  match s with
  | EmptyString => [EmptyString]
  | String c r =>
      if Ascii.eqb c LF then EmptyString :: split_lines r
      else match split_lines r with
           | h :: t => String c h :: t
           | [] => [String c EmptyString]
           end
  end.

(** [data.replace(/\n/g, '\\n')]: every line feed becomes the two
    characters backslash and n. *)
Fixpoint escape_newlines (s : string) : string :=
  match s with
  | EmptyString => EmptyString
  | String c r =>
      if Ascii.eqb c LF then String "\" (String "n" (escape_newlines r))
      else String c (escape_newlines r)
  end.

(** Skip the leading white space of a string ([parseInt], step 2). *)
Fixpoint skipWhiteSpace (s : string) : string :=
  match s with
  | String c r => if isWhiteSpace c then skipWhiteSpace r else s
  | EmptyString => EmptyString
  end.

(** Value of the longest prefix of decimal digits, with the number of
    digits read. *)
Fixpoint readDigits (acc : Z) (count : nat) (s : string) : Z * nat :=
  match s with
  | String c r =>
      if isDigit c then readDigits (10 * acc + digitValue c) (S count) r
      else (acc, count)
  | EmptyString => (acc, count)
  end.

(** The numbers that [Number.parseInt] returns and that the worker compares:
    NaN, a double holding the integer [z], and the two infinities.  The two
    zeros are one value here: the worker only compares its numbers, and
    comparison does not tell -0 from 0. *)
Inductive Number :=
| NaN
| Finite (z : Z)
| PosInfinity
| NegInfinity.

(** [Number.isNaN(x)] *)
Definition isNaN (x : Number) : bool :=
  match x with NaN => true | _ => false end.

(** [x < y]: false as soon as one side is NaN. *)
Definition ltb (x y : Number) : bool :=
  match x, y with
  | Finite a, Finite b => (a <? b)%Z
  | Finite _, PosInfinity => true
  | NegInfinity, Finite _ => true
  | NegInfinity, PosInfinity => true
  | _, _ => false
  end.

(** [x >= y]: false as soon as one side is NaN, otherwise not [x < y]. *)
Definition geb (x y : Number) : bool :=
  negb (isNaN x) && negb (isNaN y) && negb (ltb x y).

(** The Number value of a count, such as [set.size]. *)
Definition ofNat (n : nat) : Number := Finite (Z.of_nat n).

(** The order of Numbers as propositions: [x <= y] and [x < y]. *)
Definition le (x y : Number) : Prop := geb y x = true.
Definition lt (x y : Number) : Prop := ltb x y = true.

(** The double nearest to the natural number [n], ties to the even
    significand (53 bits); the result may be 2^1024, which is no double. *)
Definition roundToDouble (n : Z) : Z :=
  let bits := (Z.log2 n + 1)%Z in
  if (bits <=? 53)%Z then n
  else
    let sh := (bits - 53)%Z in
    let q := Z.shiftr n sh in
    let r := Z.land n (Z.ones sh) in
    let half := Z.shiftl 1 (sh - 1) in
    let q' := if (half <? r)%Z || ((r =? half)%Z && Z.odd q)
              then (q + 1)%Z else q in
    Z.shiftl q' sh.

(** The Number value of the integer [z]: the nearest double, an infinity
    when that is beyond the largest double. *)
Definition toNumber (z : Z) : Number :=
  let m := roundToDouble (Z.abs z) in
  if (2 ^ 1024 <=? m)%Z
  then (if (z <? 0)%Z then NegInfinity else PosInfinity)
  else Finite (Z.sgn z * m).

(** [Number.parseInt(s, 10)]: the integer written by the longest prefix of
    digits after the blanks and the sign, as the Number nearest to it (the
    engine reads the digits with a correctly rounding conversion); NaN when
    there is no digit. *)
Definition parseInt (s : string) : Number :=
  let t := skipWhiteSpace s in
  let '(sign, body) :=
    match t with
    | String "-" r => ((-1)%Z, r)
    | String "+" r => (1%Z, r)
    | _ => (1%Z, t)
    end in
  match readDigits 0 0 body with
  | (_, O) => NaN
  | (v, S _) => toNumber (sign * v)
  end.

(** JavaScript truthiness of a value that is either absent or a string. *)
Definition truthy (v : option string) : bool :=
  match v with
  | None => false
  | Some s => negb (isEmpty s)
  end.

End Js.

(* ===================================================================== *)
(** ** Configuration: the concurrency ceiling *)
(* ===================================================================== *)

(** [const raw = process.env.MAX_CONCURRENT_JOBS ?? '3';
     const parsed = Number.parseInt(raw, 10);
     return Number.isNaN(parsed) || parsed < 1 ? 1 : parsed;] *)
Definition maxConcurrentJobs (env_MAX_CONCURRENT_JOBS : option string)
    : Js.Number :=
  let raw := default "3" env_MAX_CONCURRENT_JOBS in
  let parsed := Js.parseInt raw in
  if Js.isNaN parsed || Js.ltb parsed (Js.Finite 1) then Js.Finite 1
  else parsed.


(* ===================================================================== *)
(** ** The logger ([utils/logger.ts]) *)
(* ===================================================================== *)

Module Logger.

(** The argument of a log sink: [{ level, message, timestamp }]. *)
Record LogEntry := mkLogEntry {
  level : string;
  message : string;
  timestamp : string;
}.

(** Characters of the class [[0-9;]]. *)
Definition isParam (c : ascii) : bool := Js.isDigit c || Ascii.eqb c ";".

Fixpoint skipParams (s : string) : string :=
  match s with
  | String c r => if isParam c then skipParams r else s
  | EmptyString => EmptyString
  end.

(** A match of [/\x1b\[[0-9;]*m/] anchored at the start of [s]: the rest of
    the string after the match.  The star is greedy and what it reads is
    never an [m], so the longest run is the only candidate. *)
Definition matchAnsi (s : string) : option string :=
  match s with
  | String c (String "[" r) =>
      if Ascii.eqb c Js.ESC then
        match skipParams r with
        | String "m" rest => Some rest
        | _ => None
        end
      else None
  | _ => None
  end.

(** [input.replace(/\x1b\[[0-9;]*m/g, '')]: scan from the left, drop a match
    and resume after it, otherwise keep the character.  The recursion is on a
    counter that the string length bounds. *)
Fixpoint stripAnsi_from (fuel : nat) (s : string) : string :=
  match fuel with
  | O => s
  | S fuel' =>
      match matchAnsi s with
      | Some rest => stripAnsi_from fuel' rest
      | None =>
          match s with
          | EmptyString => EmptyString
          | String c r => String c (stripAnsi_from fuel' r)
          end
      end
  end.

Definition stripAnsi (input : string) : string :=
  stripAnsi_from (String.length input) input.

(** The lines that [emit] hands to the sink:
    [stripAnsi(formatted).split('\n')], each [trimEnd]ed, the empty ones
    skipped. *)
Definition emittedLines (formatted : string) : list string :=
  filter (fun trimmed => Js.isEmpty trimmed = false)
         (map Js.trimEnd (Js.split_lines (stripAnsi formatted))).

(** ANSI colour codes of the logger. *)
Definition reset : string := String Js.ESC "[0m".
Definition dim : string := String Js.ESC "[2m".
Definition blue : string := String Js.ESC "[34m".

(** [formatMessage(prefix, color, message)], the clock reading passed in. *)
Definition formatMessage (now prefix color message : string) : string :=
  dim +:+ "[" +:+ now +:+ "]" +:+ reset +:+ " " +:+ color +:+ prefix +:+ reset
      +:+ " " +:+ message.

End Logger.


(* ===================================================================== *)
(** ** The worker process *)
(* ===================================================================== *)

(** [type JobStatus = 'running' | 'completed' | 'failed' | 'terminated'] *)
Inductive JobStatus := running | completed | failed | terminated.

Global Instance JobStatus_eq_dec : EqDecision JobStatus.
Proof. solve_decision. Defined.

(** [type Job].  Listener objects are named by their allocation index;
    [listeners] is the JavaScript [Set] in insertion order.  Of the
    [AbortController] only [signal.aborted] is observable to the worker. *)
Record Job := mkJob {
  job_id : string;
  status : JobStatus;
  logs : list string;
  listeners : list nat;
  aborted : bool;
}.

(** State of the promise chain [runBot(...).then(..).catch(..).finally(..)]
    of one job: nothing has run yet, the [then] or [catch] callback has run,
    the [finally] callback has run. *)
Inductive PromiseState := Pending | Settled | Finalized.

Global Instance PromiseState_eq_dec : EqDecision PromiseState.
Proof. solve_decision. Defined.

(** A job object on the heap together with the promise that closes over it. *)
Record Cell := mkCell {
  job : Job;
  promise : PromiseState;
}.

(** The [listener] object of one stream request with the response it writes
    to: [owner] is the job object captured by the closure, [written] the
    chunks passed to [res.write] so far, [ended] the closure variable of the
    same name (set exactly when [res.end()] is called). *)
Record Listener := mkListener {
  owner : nat;
  written : list string;
  ended : bool;
}.

(** Module-level state of the worker and of the logger.  [jobs] and
    [logSinks] hold references (heap indices) to job objects: the sink
    registered by [startLogSink(job)] is the closure
    [(entry) => pushLog(job, entry.message)]. *)
Record World := mkWorld {
  jobs : gmap string nat;
  runningJobs : gset string;
  logSinks : gmap string nat;
  heap : list Cell;
  subs : list Listener;
}.

Definition init : World :=
  {| jobs := ∅; runningJobs := ∅; logSinks := ∅; heap := []; subs := [] |}.

(** The part of the request body that the handler itself inspects; the other
    fields are handed to [runBot] unread. *)
Record Body := mkBody {
  email : option string;
  password : option string;
}.

Inductive Response :=
| Capacity (ceiling : Js.Number) (* 429 { error: 'Worker at capacity (..)' } *)
| MissingCredentials          (* 400 *)
| Started (jobId : string)    (* 202 { jobId } *)
| NotFound                    (* 404 *)
| StreamOpen (listener : nat) (* text/event-stream, left open *)
| Conflict (current : JobStatus) (* 409 { error: 'Job is ..' } *)
| Accepted                    (* 202 { ok: true } *)
| NoResponse.                 (* the event is not a request *)

Definition http_status (r : Response) : nat :=
  match r with
  | Capacity _ => 429
  | MissingCredentials => 400
  | Started _ => 202
  | NotFound => 404
  | StreamOpen _ => 200
  | Conflict _ => 409
  | Accepted => 202
  | NoResponse => 0
  end.

(** What the event loop can run: a request handler, a callback of a job's
    promise chain, the [close] event of a stream request, or a call of the
    logger's [print] made under the ambient context [context] (the store of
    [logContext]; the task of a job calls it with that job's id, also while
    [runBot] runs its synchronous prefix inside the start handler). *)
Inductive Event :=
| PostStart (body : Body) (uuid : string)
| GetStream (id : string)
| PostEnd (id : string)
| ReqClose (l : nat)
| Resolve (r : nat)
| Reject (r : nat) (reason : string)
| Finally (r : nat)
| Print (context : option string) (level formatted now : string).

Definition set_heap (f : list Cell → list Cell) (w : World) : World :=
  {| jobs := jobs w; runningJobs := runningJobs w; logSinks := logSinks w;
     heap := f (heap w); subs := subs w |}.

Definition set_subs (f : list Listener → list Listener) (w : World) : World :=
  {| jobs := jobs w; runningJobs := runningJobs w; logSinks := logSinks w;
     heap := heap w; subs := f (subs w) |}.

Definition on_job (f : Job → Job) (c : Cell) : Cell :=
  {| job := f (job c); promise := promise c |}.

Definition update_job (r : nat) (f : Job → Job) : World → World :=
  set_heap (alter (on_job f) r).

Definition set_promise (r : nat) (p : PromiseState) : World → World :=
  set_heap (alter (λ c, {| job := job c; promise := p |}) r).

Definition get_job (r : nat) (w : World) : option Job := job <$> heap w !! r.

(** The buffered lines of the job object [r]. *)
Definition job_logs (r : nat) (w : World) : list string :=
  default [] (logs <$> get_job r w).

(** The listeners attached to the job object [r]. *)
Definition job_listeners (r : nat) (w : World) : list nat :=
  default [] (listeners <$> get_job r w).

(** Field updates of a job object. *)
Definition add_line (line : string) (j : Job) : Job :=
  {| job_id := job_id j; status := status j; logs := logs j ++ [line];
     listeners := listeners j; aborted := aborted j |}.

Definition attach (l : nat) (j : Job) : Job :=
  {| job_id := job_id j; status := status j; logs := logs j;
     listeners := listeners j ++ [l]; aborted := aborted j |}.

Definition detach (l : nat) (j : Job) : Job :=
  {| job_id := job_id j; status := status j; logs := logs j;
     listeners := filter (λ l', l' ≠ l) (listeners j); aborted := aborted j |}.

Definition abort (j : Job) : Job :=
  {| job_id := job_id j; status := status j; logs := logs j;
     listeners := listeners j; aborted := true |}.

Definition with_status (st : JobStatus) (j : Job) : Job :=
  {| job_id := job_id j; status := st; logs := logs j;
     listeners := listeners j; aborted := aborted j |}.

(** Field updates of a listener with its response. *)
Definition receive (chunks : list string) (s : Listener) : Listener :=
  {| owner := owner s; written := written s ++ chunks; ended := ended s |}.

Definition close (s : Listener) : Listener :=
  {| owner := owner s; written := written s; ended := true |}.

(** The two [res.write] calls of [send(event, data)]. *)
Definition sse (event data : string) : list string :=
  [ "event: " +:+ event +:+ String Js.LF "";
    "data: " +:+ Js.escape_newlines data +:+ String Js.LF (String Js.LF "") ].

(** What a response has been written when [send('log', line)] ran for
    exactly the lines [ls], in order. *)
Definition replay (ls : list string) : list string := flat_map (sse "log") ls.

(** [listener.send(event, data)] *)
Definition send (l : nat) (event data : string) : World → World :=
  set_subs (alter (receive (sse event data)) l).

(** [listener.end()]:
    [if (ended) return; ended = true; job.listeners.delete(listener); res.end();] *)
Definition listener_end (l : nat) (w : World) : World :=
  match subs w !! l with
  | None => w
  | Some s =>
      if ended s then w
      else update_job (owner s) (detach l) (set_subs (alter close l) w)
  end.

(** [pushLog(job, line)] *)
Definition pushLog (r : nat) (line : string) (w : World) : World :=
  let w1 := update_job r (add_line line) w in
  foldl (λ w' l, send l "log" line w') w1 (job_listeners r w1).

(** [pushStatus(job, status)].  The loop runs over the listeners present when
    it starts: the only deletion made during the iteration is of the
    listener being visited (by its own [end]), which a JavaScript [Set]
    iterator tolerates without skipping the others. *)
Definition pushStatus (r : nat) (st : string) (w : World) : World :=
  foldl (λ w' l,
           let w'' := send l "status" st w' in
           if bool_decide (st = "terminated") then listener_end l w'' else w'')
        w (job_listeners r w).

(** The sink registered by [startLogSink(job)]:
    [(entry) => { pushLog(job, entry.message); }] *)
Definition logSink (r : nat) (entry : Logger.LogEntry) : World → World :=
  pushLog r (Logger.message entry).

(** [emit(level, formatted)] of the logger, under the ambient store
    [context] and with [now] the value of [timestamp()]. *)
Definition emit (context : option string) (level formatted now : string)
    (w : World) : World :=
  match context with
  | None => w
  | Some jobId =>
      match logSinks w !! jobId with
      | None => w
      | Some sink =>
          foldl (λ w' line,
                   let trimmed := Js.trimEnd line in
                   if Js.isEmpty trimmed then w'
                   else logSink sink
                          {| Logger.level := level; Logger.message := trimmed;
                             Logger.timestamp := now |} w')
                w (Js.split_lines (Logger.stripAnsi formatted))
      end
  end.

(** Answer of the log poll: [{ lines, nextOffset, status }]. *)
Record PollAnswer := mkPollAnswer {
  lines : list string;
  nextOffset : nat;
  poll_status : JobStatus;
}.

(** Modelled from the spec: the worker's handler of [GET /jobs/:id/logs] is
    not among the sources (only the web route forwarding to it and the
    dashboard calling it are).  Following the spec, the answer holds every
    line from [offset] onward, the total line count and the current status;
    [None] is the NotFound answer for an unknown id. *)
Definition pollLogs (jobId : string) (offset : nat) (w : World)
    : option PollAnswer :=
  match jobs w !! jobId with
  | None => None
  | Some r =>
      match get_job r w with
      | None => None
      | Some j =>
          Some {| lines := drop offset (logs j);
                  nextOffset := length (logs j);
                  poll_status := status j |}
      end
  end.

(** What the logs route answers: an error of its own, the worker's payload
    and status code, or nothing of its own when its [fetch] rejects and the
    handler throws. *)
Inductive RouteResponse (P : Type) :=
| RouteError (code : nat)
| RouteForward (payload : P) (code : nat)
| RouteThrew.

Arguments RouteError {P} code.
Arguments RouteForward {P} payload code.
Arguments RouteThrew {P}.

(** The web route [api/jobs/[id]/logs/route.ts]: 500 without [WORKER_URL],
    401 when [requireUser] throws; otherwise it fetches the worker's logs URL
    for [id], with the [offset] query parameter when that is a non-empty
    string, and hands the worker's payload and status code on unchanged.
    [href base offset] stands for the platform's URL object
    ([new URL(base)], [searchParams.set('offset', offset)], [toString()])
    and [fetch url] for its [fetch] followed by
    [response.json().catch(() => ({}))]: the payload and the status code,
    [None] when [fetch] rejects. *)
Definition GET_logs {P : Type} (workerUrl : option string) (requireUser : bool)
    (id : string) (offset : option string)
    (href : string → option string → string)
    (fetch : string → option (P * nat)) : RouteResponse P :=
  if negb (Js.truthy workerUrl) then RouteError 500
  else if negb requireUser then RouteError 401
  else
    match fetch (href (default "" workerUrl +:+ "/jobs/" +:+ id +:+ "/logs")
                      (if Js.truthy offset then offset else None)) with
    | Some (payload, code) => RouteForward payload code
    | None => RouteThrew
    end.

(** The state of the start handler after
    [jobs.set(job.id, job); runningJobs.add(job.id); startLogSink(job);]
    with the new job object at the next free heap index. *)
Definition allocated (uuid : string) (w : World) : World :=
  {| jobs := <[uuid := length (heap w)]> (jobs w);
     runningJobs := {[uuid]} ∪ runningJobs w;
     logSinks := <[uuid := length (heap w)]> (logSinks w);
     heap := heap w ++ [{| job := {| job_id := uuid; status := running;
                                     logs := []; listeners := [];
                                     aborted := false |};
                           promise := Pending |}];
     subs := subs w |}.

Section Worker.

Variable MAX_CONCURRENT_JOBS : option string.

Definition ceiling : Js.Number := maxConcurrentJobs MAX_CONCURRENT_JOBS.

(** [app.post('/jobs/start', ...)]; [uuid] is the value of [randomUUID()].
    The handler contains no [await]: it runs to completion as one step. *)
Definition start (body : Body) (uuid : string) (w : World) : World * Response :=
  if Js.geb (Js.ofNat (size (runningJobs w))) ceiling then
    (w, Capacity ceiling)
  else if negb (Js.truthy (email body)) || negb (Js.truthy (password body)) then
    (w, MissingCredentials)
  else
    (pushLog (length (heap w)) "Job started." (allocated uuid w), Started uuid).

(** [app.get('/jobs/:id/stream', ...)]: replay of the history, then the new
    listener joins the set; all in one synchronous run of the handler. *)
Definition stream (id : string) (w : World) : World * Response :=
  match jobs w !! id with
  | None => (w, NotFound)
  | Some r =>
      let l := length (subs w) in
      let s := {| owner := r; written := replay (job_logs r w);
                  ended := false |} in
      (update_job r (attach l) (set_subs (λ ss, ss ++ [s]) w), StreamOpen l)
  end.

(** [req.on('close', () => { if (!ended) job.listeners.delete(listener); })] *)
Definition reqClose (l : nat) (w : World) : World :=
  match subs w !! l with
  | None => w
  | Some s =>
      if ended s then w
      else update_job (owner s) (detach l) w
  end.

(** [app.post('/jobs/:id/end', ...)].  [controller.abort()] runs the task's
    abort listener inside this handler, where no job context is bound, so
    the listener's log call is dropped by [emit]. *)
Definition endJob (id : string) (w : World) : World * Response :=
  match jobs w !! id with
  | None => (w, NotFound)
  | Some r =>
      match get_job r w with
      | None => (w, NotFound)
      | Some j =>
          if bool_decide (status j ≠ running) then (w, Conflict (status j))
          else
            (pushLog r "Termination requested." (update_job r abort w),
             Accepted)
      end
  end.

Definition set_status (r : nat) (st : JobStatus) : World → World :=
  update_job r (with_status st).

(** The [.then(() => {...})] callback of the job object [r]. *)
Definition onFulfilled (r : nat) (w : World) : World :=
  match heap w !! r with
  | Some {| job := j; promise := Pending |} =>
      let w1 := set_status r (if aborted j then terminated else completed) w in
      let w2 := pushLog r "Job terminated successfully." w1 in
      let w3 := pushStatus r "terminated" w2 in
      set_promise r Settled w3
  | _ => w
  end.

(** The [.catch((error) => {...})] callback; [reason] is
    [error instanceof Error ? error.message : String(error)]. *)
Definition onRejected (r : nat) (reason : string) (w : World) : World :=
  match heap w !! r with
  | Some {| job := j; promise := Pending |} =>
      let w1 := set_status r (if aborted j then terminated else failed) w in
      let w2 := pushLog r ("Job failed: " +:+ reason) w1 in
      let w3 := pushLog r "Job terminated successfully." w2 in
      let w4 := pushStatus r "terminated" w3 in
      set_promise r Settled w4
  | _ => w
  end.

(** The [.finally(() => { stopLogSink(job); runningJobs.delete(job.id); })]
    callback. *)
Definition onFinally (r : nat) (w : World) : World :=
  match heap w !! r with
  | Some {| job := j; promise := Settled |} =>
      set_promise r Finalized
        {| jobs := jobs w;
           runningJobs := runningJobs w ∖ {[job_id j]};
           logSinks := delete (job_id j) (logSinks w);
           heap := heap w; subs := subs w |}
  | _ => w
  end.

Definition step (w : World) (e : Event) : World * Response :=
  match e with
  | PostStart body uuid => start body uuid w
  | GetStream id => stream id w
  | PostEnd id => endJob id w
  | ReqClose l => (reqClose l w, NoResponse)
  | Resolve r => (onFulfilled r w, NoResponse)
  | Reject r reason => (onRejected r reason w, NoResponse)
  | Finally r => (onFinally r w, NoResponse)
  | Print context level formatted now =>
      (emit context level formatted now w, NoResponse)
  end.

Definition run (w : World) (evs : list Event) : World :=
  foldl (λ w' e, (step w' e).1) w evs.

Definition reachable (w : World) : Prop := ∃ evs, w = run init evs.

(** The contract of [randomUUID()]: every id it returns is new to the
    registry. *)
Fixpoint fresh_uuids (w : World) (evs : list Event) : Prop :=
  match evs with
  | [] => True
  | e :: evs' =>
      match e with
      | PostStart _ uuid => jobs w !! uuid = None
      | _ => True
      end ∧ fresh_uuids (step w e).1 evs'
  end.

(** Number of job objects whose [status] is [running]. *)
Definition running_count (w : World) : nat :=
  length (filter (λ c, status (job c) = running) (heap w)).

(** Modelled from the spec: the client of the spec's pull transport, "a
    client polling repeatedly with the returned nextOffset".  It starts from
    [offset], appends every answer's [lines] to what it has and takes the
    answer's [nextOffset] as the cursor of its next request, for ever;
    [rounds] are the events the worker runs between two requests.  This is
    the protocol, not the dashboard's loop, which also stops polling: that
    one is [Dashboard.pollLogs], and the two are compared below. *)
Fixpoint resuming_client (id : string) (offset : nat) (w : World)
    (rounds : list (list Event)) : list string :=
  match rounds with
  | [] =>
      match pollLogs id offset w with
      | None => []
      | Some answer => lines answer
      end
  | evs :: rounds' =>
      match pollLogs id offset w with
      | None => []
      | Some answer =>
          lines answer
          ++ resuming_client id (nextOffset answer) (run w evs) rounds'
      end
  end.

End Worker.


(* ===================================================================== *)
(** ** Invariants of the worker state *)
(* ===================================================================== *)

(** Every attached listener is open, belongs to the job it is attached to
    and has been written exactly the job's lines, each once and in order;
    a listener that was ended has been written a prefix of the lines and
    then the status event. *)
Definition InvStream (w : World) : Prop :=
  (∀ r c, heap w !! r = Some c →
     NoDup (listeners (job c)) ∧
     ∀ l, l ∈ listeners (job c) →
       ∃ s, subs w !! l = Some s ∧ owner s = r ∧ ended s = false ∧
            written s = replay (logs (job c)))
  ∧
  (∀ l s, subs w !! l = Some s →
     ∃ c, heap w !! owner s = Some c ∧
          (ended s = true →
             ∃ pre, pre `prefix_of` logs (job c) ∧
                    written s = replay pre ++ sse "status" "terminated")).

(** What the registry-level invariants read of a heap cell. *)
Definition core (c : Cell) : string * JobStatus * PromiseState :=
  (job_id (job c), status (job c), promise c).

(** The registry and the sink table point to job objects carrying the right
    id, a sink never outlives the [finally] callback of its job, a job is
    [running] exactly while its promise is pending, and the running set
    respects the ceiling and holds registered ids only. *)
Definition InvReg (ceil : Js.Number) (w : World) : Prop :=
  (∀ id r, jobs w !! id = Some r →
     ∃ c, heap w !! r = Some c ∧ job_id (job c) = id)
  ∧ (∀ id r, logSinks w !! id = Some r →
     ∃ c, heap w !! r = Some c ∧ job_id (job c) = id ∧ promise c ≠ Finalized)
  ∧ (∀ r c, heap w !! r = Some c →
     (promise c = Pending ↔ status (job c) = running))
  ∧ Js.le (Js.ofNat (size (runningJobs w))) ceil
  ∧ (∀ id, id ∈ runningJobs w → is_Some (jobs w !! id)).

(** With ids that are never reused, the registry names every job object and
    the running set holds the id of every job that has not been released. *)
Definition InvFresh (w : World) : Prop :=
  (∀ r c, heap w !! r = Some c → jobs w !! job_id (job c) = Some r)
  ∧ (∀ r c, heap w !! r = Some c → promise c ≠ Finalized →
       job_id (job c) ∈ runningJobs w).

(** The lines of one [emit] call written to the job object [r] in order. *)
Definition pushLogs (r : nat) (ls : list string) (w : World) : World :=
  foldl (λ w' line, pushLog r line w') w ls.

(** The job object and the state after the [then] or [catch] callback that
    sets the status [st] and pushes [lines]. *)
Definition settled_cell (st : JobStatus) (lines : list string) (c : Cell) : Cell :=
  {| job := {| job_id := job_id (job c); status := st;
               logs := logs (job c) ++ lines; listeners := [];
               aborted := aborted (job c) |};
     promise := Settled |}.

Definition settle (r : nat) (st : JobStatus) (lines : list string)
    (w : World) : World :=
  set_promise r Settled
    (pushStatus r "terminated" (pushLogs r lines (set_status r st w))).


(** How one job object can differ between a state and a later one: the id
    is kept, the lines are only extended, a raised cancellation flag stays
    raised, the status is final once the promise has settled, and the lines
    are final once the [finally] callback has run. *)
Definition evolves (c c' : Cell) : Prop :=
  job_id (job c') = job_id (job c)
  ∧ logs (job c) `prefix_of` logs (job c')
  ∧ (aborted (job c) = true → aborted (job c') = true)
  ∧ (promise c ≠ Pending →
       status (job c') = status (job c) ∧ promise c' ≠ Pending)
  ∧ (promise c = Finalized →
       logs (job c') = logs (job c) ∧ promise c' = Finalized).

(** The status of the job object [r]. *)
Definition job_status (r : nat) (w : World) : option JobStatus :=
  status <$> get_job r w.

(** The lines pushed by the [then] callback and by the [catch] callback. *)
Definition final_lines (e : Event) : list string :=
  match e with
  | Reject _ reason =>
      ["Job failed: " +:+ reason; "Job terminated successfully."]
  | _ => ["Job terminated successfully."]
  end.

(* ===================================================================== *)
(** ** Sample runs *)
(* ===================================================================== *)

Module Sample.

(** The numeral of 10^309: a one followed by 309 zeros. *)
Fixpoint zeros (n : nat) : string :=
  match n with
  | O => EmptyString
  | S n' => String "0" (zeros n')
  end.

Definition huge_numeral : string := String "1" (zeros 309).

Definition credentials : Body := mkBody (Some "a@b.c") (Some "pw").

(** One job started, one listener attached, one line logged by the task. *)
Definition one_job : list Event :=
  [PostStart credentials "j1"; GetStream "j1";
   Print (Some "j1") "info"
         (Logger.formatMessage "10:00:00" "INFO" Logger.blue "Job URL: x")
         "10:00:00"].

(** The same job after the end request, the rejection of the task and the
    [finally] callback. *)
Definition one_job_ended : list Event :=
  one_job ++ [PostEnd "j1"; Reject 0 "Job terminated by user"; Finally 0].

(** Two jobs under the default ceiling, the first of them settled. *)
Definition two_jobs : list Event :=
  [PostStart credentials "j1"; PostStart credentials "j2"; Resolve 0].

(** The job object of a run right after its start. *)
Definition started_cell (uuid : string) : Cell :=
  {| job := {| job_id := uuid; status := running; logs := ["Job started."];
               listeners := []; aborted := false |};
     promise := Pending |}.

(** The job object of [one_job] at the end of that run. *)
Definition one_job_cell : Cell :=
  {| job := {| job_id := "j1"; status := running;
               logs := ["Job started."; "[10:00:00] INFO Job URL: x"];
               listeners := [0]; aborted := false |};
     promise := Pending |}.

(** The job object of [one_job_ended] at the end of that run. *)
Definition one_job_ended_cell : Cell :=
  {| job := {| job_id := "j1"; status := terminated;
               logs := ["Job started."; "[10:00:00] INFO Job URL: x";
                        "Termination requested.";
                        "Job failed: Job terminated by user";
                        "Job terminated successfully."];
               listeners := []; aborted := true |};
     promise := Finalized |}.

End Sample.

(* ===================================================================== *)
(** ** Further invariants of the worker state *)
(* ===================================================================== *)

(** A registered sink belongs to the job object that the registry names
    under the same id, and an id in the running set is registered to a job
    whose [finally] callback has not run. *)
Definition InvSink (w : World) : Prop :=
  (∀ id r, logSinks w !! id = Some r → jobs w !! id = Some r)
  ∧ (∀ id, id ∈ runningJobs w →
       ∃ r c, jobs w !! id = Some r ∧ heap w !! r = Some c ∧
              promise c ≠ Finalized).

(** With ids that are never reused, every job keeps its own sink until its
    [finally] callback has run. *)
Definition InvFreshSink (w : World) : Prop :=
  ∀ r c, heap w !! r = Some c → promise c ≠ Finalized →
         logSinks w !! job_id (job c) = Some r.

(** The job object that an event can touch, if any: the one registered
    under the id of an end or stream request, the one whose promise
    callback runs, the owner of the stream whose request closes, the one
    behind the sink of a log call.  A start touches no existing object. *)
Definition touched (w : World) (e : Event) : option nat :=
  match e with
  | PostStart _ _ => None
  | GetStream id => jobs w !! id
  | PostEnd id => jobs w !! id
  | ReqClose l => owner <$> subs w !! l
  | Resolve r => Some r
  | Reject r _ => Some r
  | Finally r => Some r
  | Print context _ _ _ => context ≫= (λ id, logSinks w !! id)
  end.

(* ===================================================================== *)
(** ** Predicates on strings and the logger's methods *)
(* ===================================================================== *)

Module Text.

(** [s.includes(c)] for a single code unit. *)
Fixpoint has_char (c : ascii) (s : string) : bool :=
  match s with
  | EmptyString => false
  | String a r => Ascii.eqb a c || has_char c r
  end.

Fixpoint all_blank (s : string) : bool :=
  match s with
  | EmptyString => true
  | String a r => Js.isWhiteSpace a && all_blank r
  end.

Fixpoint last_char (s : string) : option ascii :=
  match s with
  | EmptyString => None
  | String a EmptyString => Some a
  | String _ r => last_char r
  end.

(** A well-formed colour code [ESC [ params m], [params] being digits and
    semicolons. *)
Fixpoint all_params (s : string) : bool :=
  match s with
  | EmptyString => true
  | String a r => Logger.isParam a && all_params r
  end.

Definition code (params : string) : string :=
  String Js.ESC (String "[" (params +:+ "m")).

(** A decimal numeral: the characters of the digits [ds] (each below 10). *)
Fixpoint numeral (ds : list nat) : string :=
  match ds with
  | [] => EmptyString
  | d :: ds' => String (ascii_of_nat (48 + d)) (numeral ds')
  end.

(** The number that the digits denote, most significant first. *)
Definition denotes (ds : list nat) : Z :=
  foldl (λ acc d, 10 * acc + Z.of_nat d)%Z 0%Z ds.

(** Does the string start with a decimal digit? *)
Definition starts_with_digit (s : string) : bool :=
  match s with
  | EmptyString => false
  | String a _ => Js.isDigit a
  end.

(** The first [n] code units removed ([s.slice(n)]). *)
Fixpoint drop_chars (n : nat) (s : string) : string :=
  match n, s with
  | O, _ => s
  | S n', String _ r => drop_chars n' r
  | S _, EmptyString => EmptyString
  end.

(** [s.startsWith(pattern)] *)
Fixpoint startsWith (pattern s : string) : bool :=
  match pattern, s with
  | EmptyString, _ => true
  | String a pattern', String b s' => Ascii.eqb a b && startsWith pattern' s'
  | String _ _, EmptyString => false
  end.

(** [s.includes(pattern)] *)
Fixpoint includes (pattern s : string) : bool :=
  startsWith pattern s
  || match s with
     | EmptyString => false
     | String _ r => includes pattern r
     end.

(** [s.replace(pattern, '')] for a string pattern: the first occurrence of
    [pattern] is removed, if there is one. *)
Fixpoint remove_first (pattern s : string) : string :=
  if startsWith pattern s then drop_chars (String.length pattern) s
  else match s with
       | EmptyString => EmptyString
       | String c r => String c (remove_first pattern r)
       end.

(** [s.trim()] *)
Definition trim (s : string) : string := Js.trimEnd (Js.skipWhiteSpace s).

End Text.

Module LoggerMethods.

(** The colour codes used by the one-line methods. *)
Definition bright : string := String Js.ESC "[1m".
Definition red : string := String Js.ESC "[31m".
Definition green : string := String Js.ESC "[32m".
Definition yellow : string := String Js.ESC "[33m".
Definition magenta : string := String Js.ESC "[35m".
Definition cyan : string := String Js.ESC "[36m".

(** [logger.info], [success], [warn], [error], [debug], [action], [job]. *)
Inductive Method := info | success | warn | error | debug | action | job.

Definition level (m : Method) : string :=
  match m with
  | info => "info" | success => "success" | warn => "warn"
  | error => "error" | debug => "debug" | action => "action" | job => "job"
  end.

Definition prefix (m : Method) : string :=
  match m with
  | info => "INFO" | success => "SUCCESS" | warn => "WARN"
  | error => "ERROR" | debug => "DEBUG" | action => "BOT" | job => "JOB"
  end.

Definition color (m : Method) : string :=
  match m with
  | info => Logger.blue | success => green | warn => yellow
  | error => red | debug => Logger.dim | action => cyan +:+ bright
  | job => magenta
  end.

(** The [print] call that the method [m] makes for [message]:
    [print(level, formatMessage(PREFIX, color, message))], where [printed]
    is the clock reading of [formatMessage] and [now] the one of [emit]. *)
Definition call (m : Method) (context : option string)
    (message printed now : string) : Event :=
  Print context (level m)
        (Logger.formatMessage printed (prefix m) (color m) message) now.

End LoggerMethods.

(* ===================================================================== *)
(** ** The web application in front of the worker *)
(* ===================================================================== *)

Module Web.

(** The value that [requireUser] returns: [{ id, email }]. *)
Record User := mkUser {
  user_id : string;
  user_email : option string;
}.

(** The three errors that [requireUser] throws. *)
Inductive AuthError :=
| MissingAuthorizationHeader
| EmptyAuthorizationToken
| Unauthorized.

Definition error_message (e : AuthError) : string :=
  match e with
  | MissingAuthorizationHeader => "Missing Authorization header"
  | EmptyAuthorizationToken => "Empty Authorization token"
  | Unauthorized => "Unauthorized"
  end.

(** [requireUser(request)]; [authHeader] is
    [request.headers.get('authorization')] and [getUser token] the user of
    [supabaseServer.auth.getUser(token)], [None] when that call reports an
    error or no user. *)
Definition requireUser (getUser : string → option User)
    (authHeader : option string) : AuthError + User :=
  if negb (Js.truthy authHeader)
     || negb (Text.startsWith "Bearer " (default "" authHeader))
  then inl MissingAuthorizationHeader
  else
    let token := Text.trim (Text.remove_first "Bearer " (default "" authHeader)) in
    if negb (Js.truthy (Some token)) then inl EmptyAuthorizationToken
    else match getUser token with
         | None => inl Unauthorized
         | Some user => inr user
         end.

(** What the stream route answers; when its [fetch] rejects the handler
    throws and answers nothing of its own. *)
Inductive StreamAnswer :=
| NotConfigured                (* 500 'WORKER_URL is not configured.' *)
| Refused (e : AuthError)      (* 401 with the error's message *)
| BadGateway                   (* 502 'Unable to connect to worker stream.' *)
| Piped (r : Response)         (* 200 with the body of the worker's response *)
| Threw.

Definition stream_status (a : StreamAnswer) : option nat :=
  match a with
  | NotConfigured => Some 500
  | Refused _ => Some 401
  | BadGateway => Some 502
  | Piped _ => Some 200
  | Threw => None
  end.

(** [response.ok]: a status code from 200 to 299.  Such a response of the
    worker always has a body. *)
Definition ok (r : Response) : bool :=
  Nat.leb 200 (http_status r) && Nat.leb (http_status r) 299.

(** [GET] of [api/jobs/[id]/stream/route.ts].  [fetch url w] is the
    platform's [fetch] of [url] while the worker is in state [w]: [None]
    when it rejects (the worker cannot be reached), otherwise the worker's
    state after it has handled the request, and its response.  Which
    handler of the worker a URL reaches, and with which id, is the
    platform's and the worker's router's business: the route only pastes
    [id] into the URL. *)
Definition GET_stream (workerUrl : option string)
    (getUser : string → option User) (authHeader : option string)
    (id : string) (fetch : string → World → option (World * Response))
    (w : World) : World * StreamAnswer :=
  if negb (Js.truthy workerUrl) then (w, NotConfigured)
  else match requireUser getUser authHeader with
       | inl e => (w, Refused e)
       | inr _ =>
           match fetch (default "" workerUrl +:+ "/jobs/" +:+ id +:+ "/stream")
                       w with
           | None => (w, Threw)
           | Some (w', r) =>
               if ok r then (w', Piped r) else (w', BadGateway)
           end
       end.

End Web.

(* ===================================================================== *)
(** ** The dashboard's polling loop ([dashboard/page.tsx]) *)
(* ===================================================================== *)

(** The JSON name of a job status. *)
Definition status_name (st : JobStatus) : string :=
  match st with
  | running => "running"
  | completed => "completed"
  | failed => "failed"
  | terminated => "terminated"
  end.

Module Dashboard.

Inductive StreamStatus := idle | running | terminated | error.

(** The parsed body of a response as far as [pollLogs] reads it:
    [data.lines] when it is an array, [data.nextOffset] when it is a
    number (a count of lines), [data.status] when it is a string. *)
Record Data := mkData {
  data_lines : option (list string);
  data_nextOffset : option nat;
  data_status : option string;
}.

(** What one [fetch] of the logs gives: it rejects with an error, the
    response is not [ok], or the response is [ok] with a body. *)
Inductive Reply :=
| Rejected (message : string)
| NotOk
| Ok (data : Data).

(** The state that [pollLogs] reads and writes: [offsetRef.current], the
    [logs] shown, [streamStatus], and whether the interval timer is still
    set. *)
Record State := mkState {
  offsetRef : nat;
  logs : list string;
  streamStatus : StreamStatus;
  pollTimer : bool;
}.

(** The state in which polling starts: [startJob] has reset the cursor and
    set the status, and the effect has set the timer.  [shown] is what the
    log shows by then: nothing after [startJob]'s reset, or a capacity
    notice that arrived while the start request was on its way. *)
Definition started (shown : list string) : State :=
  {| offsetRef := 0; logs := shown; streamStatus := running;
     pollTimer := true |}.

Definition appendLog (line : string) (st : State) : State :=
  {| offsetRef := offsetRef st; logs := logs st ++ [line];
     streamStatus := streamStatus st; pollTimer := pollTimer st |}.

(** [setStreamStatus("terminated"); clearInterval(pollTimer)] *)
Definition stop (st : State) : State :=
  {| offsetRef := offsetRef st; logs := logs st; streamStatus := terminated;
     pollTimer := false |}.

(** The [catch] block of [pollLogs]. *)
Definition failed (message : string) (st : State) : State :=
  appendLog ("Error: " +:+ message)
    {| offsetRef := offsetRef st; logs := logs st; streamStatus := error;
       pollTimer := pollTimer st |}.

(** One run of [pollLogs], given what its [fetch] gives. *)
Definition pollLogs (reply : Reply) (st : State) : State :=
  match reply with
  | Rejected message => failed message st
  | NotOk => failed "Unable to fetch logs." st
  | Ok data =>
      let batch :=
        match data_lines data with
        | Some (line :: lines) => line :: lines
        | _ => []
        end in
      let st1 :=
        {| offsetRef := offsetRef st; logs := logs st ++ batch;
           streamStatus := streamStatus st; pollTimer := pollTimer st |} in
      if existsb (Text.includes "Termination requested.") batch then stop st1
      else
        let st2 :=
          match data_nextOffset data with
          | Some n =>
              {| offsetRef := n; logs := logs st1;
                 streamStatus := streamStatus st1; pollTimer := pollTimer st1 |}
          | None => st1
          end in
        match data_status data with
        | Some s => if String.eqb s "running" then st2 else stop st2
        | None => st2
        end
  end.

End Dashboard.

(** Modelled from the spec: what a poll with the cursor [offset] is answered
    when the web route is configured, the caller is authenticated and the
    request reaches the worker's logs handler (absent from the sources, see
    [pollLogs]) with this id and offset: 404 for an unknown job, otherwise
    200 with [{ lines, nextOffset, status }], which the route hands on
    unchanged. *)
Definition worker_reply (id : string) (offset : nat) (w : World)
    : Dashboard.Reply :=
  match pollLogs id offset w with
  | None => Dashboard.NotOk
  | Some answer =>
      Dashboard.Ok {| Dashboard.data_lines := Some (lines answer);
                      Dashboard.data_nextOffset := Some (nextOffset answer);
                      Dashboard.data_status :=
                        Some (status_name (poll_status answer)) |}
  end.

(** The polls of the dashboard for one job, one after the other (the job id
    is set once, so the effect runs once, and the [inFlight] flag keeps its
    polls from overlapping): the first right away, the following ones for as
    long as the timer is set; [rounds] are the events the worker runs
    between two polls, [ask offset w] what a poll with the cursor [offset]
    is answered by the worker in state [w]. *)
Fixpoint dashboard_polls (env : option string)
    (ask : nat → World → Dashboard.Reply) (st : Dashboard.State) (w : World)
    (rounds : list (list Event)) : Dashboard.State :=
  let st' :=
    if Dashboard.pollTimer st
    then Dashboard.pollLogs (ask (Dashboard.offsetRef st) w) st
    else st in
  match rounds with
  | [] => st'
  | evs :: rounds' => dashboard_polls env ask st' (run env w evs) rounds'
  end.
(* ===================================================================== *)
(** ** Properties of the string primitives *)
(* ===================================================================== *)

Lemma skipParams_length (s : string) :
  (String.length (Logger.skipParams s) ≤ String.length s)%nat.
Proof.
  induction s as [|c r IH]; simpl; [lia|].
  destruct (Logger.isParam c); simpl; lia.
Qed.

Lemma matchAnsi_length (s rest : string) :
  Logger.matchAnsi s = Some rest → (String.length rest < String.length s)%nat.
Proof.
  destruct s as [|c [|b r]]; simpl; try discriminate.
  destruct (Ascii.ascii_dec b "[") as [->|Hb].
  - destruct (Ascii.eqb c Js.ESC); [|discriminate].
    pose proof (skipParams_length r) as Hlen.
    destruct (Logger.skipParams r) as [|m rest'] eqn:Hskip; [discriminate|].
    destruct (Ascii.ascii_dec m "m") as [->|Hm].
    + intros [= <-]. simpl in Hlen. lia.
    + intros H. exfalso. revert H.
      destruct m as [[] [] [] [] [] [] [] []]; try discriminate; congruence.
  - intros H. exfalso. revert H.
    destruct b as [[] [] [] [] [] [] [] []]; try discriminate; congruence.
Qed.

(** Any counter that is at least the length gives the same result. *)
Lemma stripAnsi_from_enough (fuel : nat) :
  ∀ s, (String.length s ≤ fuel)%nat →
       Logger.stripAnsi_from fuel s = Logger.stripAnsi s.
Proof.
  unfold Logger.stripAnsi.
  induction fuel as [fuel IH] using lt_wf_ind. intros s Hlen.
  destruct fuel as [|fuel].
  { destruct s; simpl in *; [reflexivity|lia]. }
  destruct s as [|c r]; [reflexivity|].
  cbn [Logger.stripAnsi_from String.length].
  destruct (Logger.matchAnsi (String c r)) as [rest|] eqn:Hm.
  - apply matchAnsi_length in Hm. simpl in Hm, Hlen.
    rewrite (IH fuel) by lia.
    rewrite (IH (String.length r)) by lia. reflexivity.
  - simpl in Hlen. f_equal. rewrite (IH fuel) by lia. reflexivity.
Qed.

(** The defining equations of the global replacement. *)
Lemma stripAnsi_unfold (s : string) :
  Logger.stripAnsi s =
    match Logger.matchAnsi s with
    | Some rest => Logger.stripAnsi rest
    | None =>
        match s with
        | EmptyString => EmptyString
        | String c r => String c (Logger.stripAnsi r)
        end
    end.
Proof.
  destruct s as [|c r]; [reflexivity|].
  unfold Logger.stripAnsi at 1. cbn [String.length Logger.stripAnsi_from].
  destruct (Logger.matchAnsi (String c r)) as [rest|] eqn:Hm.
  - apply matchAnsi_length in Hm. simpl in Hm.
    apply stripAnsi_from_enough. lia.
  - f_equal.
Qed.

Example stripAnsi_info :
  Logger.stripAnsi (Logger.formatMessage "10:01:02" "INFO" Logger.blue "hello")
  = "[10:01:02] INFO hello".
Proof. reflexivity. Qed.

Example parseInt_examples :
  Js.parseInt "  42abc" = Js.Finite 42 ∧ Js.parseInt "-5" = Js.Finite (-5) ∧
  Js.parseInt "" = Js.NaN ∧ Js.parseInt "3.9" = Js.Finite 3 ∧
  Js.parseInt "x1" = Js.NaN ∧
  Js.parseInt "9007199254740993" = Js.Finite 9007199254740992 ∧
  Js.parseInt "9007199254740995" = Js.Finite 9007199254740996 ∧
  Js.parseInt Sample.huge_numeral = Js.PosInfinity.
Proof. repeat split; vm_compute; reflexivity. Qed.

Example toNumber_examples :
  Js.toNumber (2 ^ 53 + 1) = Js.Finite (2 ^ 53)
  ∧ Js.toNumber (2 ^ 53 + 3) = Js.Finite (2 ^ 53 + 4)
  ∧ Js.toNumber (2 ^ 54 + 1) = Js.Finite (2 ^ 54)
  ∧ Js.toNumber (2 ^ 1024 - 2 ^ 970 - 1) = Js.Finite (2 ^ 1024 - 2 ^ 971)
  ∧ Js.toNumber (2 ^ 1024 - 2 ^ 970) = Js.PosInfinity
  ∧ Js.toNumber (- 2 ^ 1024) = Js.NegInfinity
  ∧ Js.toNumber 0 = Js.Finite 0.
Proof. repeat split; vm_compute; reflexivity. Qed.

Example maxConcurrentJobs_examples :
  maxConcurrentJobs (Some "5") = Js.Finite 5
  ∧ maxConcurrentJobs (Some " 12 jobs") = Js.Finite 12
  ∧ maxConcurrentJobs (Some "0") = Js.Finite 1
  ∧ maxConcurrentJobs (Some "-3") = Js.Finite 1
  ∧ maxConcurrentJobs (Some "") = Js.Finite 1
  ∧ maxConcurrentJobs (Some "three") = Js.Finite 1.
Proof. repeat split; reflexivity. Qed.

(* ===================================================================== *)
(** ** Numbers: comparison, rounding and the ceiling *)
(* ===================================================================== *)

Lemma geb_Finite a b : Js.geb (Js.Finite a) (Js.Finite b) = true ↔ (b ≤ a)%Z.
Proof.
  unfold Js.geb, Js.ltb, Js.isNaN. cbn [negb andb].
  destruct (Z.ltb_spec a b); cbn [negb]; split; (done || lia).
Qed.

Lemma le_ofNat a b : Js.le (Js.ofNat a) (Js.ofNat b) ↔ a ≤ b.
Proof. unfold Js.le, Js.ofNat. rewrite geb_Finite. lia. Qed.

Lemma le_ofNat_mono c a b :
  a ≤ b → Js.le (Js.ofNat b) c → Js.le (Js.ofNat a) c.
Proof.
  intros Hab. unfold Js.le, Js.ofNat.
  destruct c as [|z| |]; try done. rewrite !geb_Finite. lia.
Qed.

Lemma le_succ_lt c n : Js.le (Js.ofNat (S n)) c → Js.lt (Js.ofNat n) c.
Proof.
  unfold Js.le, Js.lt, Js.ofNat. destruct c as [|z| |]; try done.
  rewrite geb_Finite. cbn [Js.ltb]. intros H. apply Z.ltb_lt. lia.
Qed.

Lemma lt_not_geb x y : Js.lt x y → Js.geb x y = false.
Proof.
  unfold Js.lt, Js.geb. intros ->. by rewrite andb_false_r.
Qed.

Section Rounding.

Local Open Scope Z_scope.

Lemma roundToDouble_small n :
  (0 ≤ n < 2 ^ 53)%Z → Js.roundToDouble n = n.
Proof.
  intros [H0 Hn]. unfold Js.roundToDouble.
  assert (Z.log2 n < 53)%Z as Hlog.
  { destruct (Z.eq_dec n 0) as [->|Hne]; [done|].
    apply Z.log2_lt_pow2; lia. }
  destruct (Z.leb_spec (Z.log2 n + 1) 53); [done|lia].
Qed.

Lemma roundToDouble_lower n :
  (0 < n)%Z → (2 ^ Z.log2 n ≤ Js.roundToDouble n)%Z.
Proof.
  intros Hn. unfold Js.roundToDouble.
  pose proof (Z.log2_spec n Hn) as [Hlo Hhi].
  destruct (Z.leb_spec (Z.log2 n + 1) 53) as [Hb|Hb]; [done|].
  set (sh := (Z.log2 n + 1 - 53)%Z).
  assert (0 < sh)%Z as Hsh by (unfold sh; lia).
  assert (Z.log2 n = 52 + sh)%Z as Hlog by (unfold sh; lia).
  rewrite Z.shiftr_div_pow2 by lia.
  assert (2 ^ 52 ≤ n / 2 ^ sh)%Z as Hq.
  { apply Z.div_le_lower_bound; [lia|].
    rewrite Z.mul_comm, <- Z.pow_add_r by lia. by rewrite <- Hlog. }
  set (q := (n / 2 ^ sh)%Z) in *.
  match goal with
  | |- context [if ?b then (q + 1)%Z else q] =>
      set (q' := if b then (q + 1)%Z else q);
      assert (q ≤ q')%Z as Hq' by (unfold q'; destruct b; lia)
  end.
  rewrite Z.shiftl_mul_pow2 by lia.
  rewrite Hlog, Z.pow_add_r by lia.
  apply Z.mul_le_mono_nonneg_r; lia.
Qed.

Lemma toNumber_small n : (0 ≤ n < 2 ^ 53)%Z → Js.toNumber n = Js.Finite n.
Proof.
  intros Hn. unfold Js.toNumber.
  rewrite Z.abs_eq by lia. rewrite roundToDouble_small by done.
  assert (2 ^ 53 < 2 ^ 1024)%Z by (apply Z.pow_lt_mono_r; lia).
  destruct (Z.leb_spec (2 ^ 1024) n); [lia|].
  f_equal. destruct (Z.eq_dec n 0) as [->|]; [done|].
  rewrite Z.sgn_pos by lia. lia.
Qed.

Lemma toNumber_huge n : (2 ^ 1024 ≤ n)%Z → Js.toNumber n = Js.PosInfinity.
Proof.
  intros Hn. unfold Js.toNumber.
  assert (0 < 2 ^ 1024)%Z by (apply Z.pow_pos_nonneg; lia).
  rewrite Z.abs_eq by lia.
  pose proof (roundToDouble_lower n ltac:(lia)) as Hlow.
  assert (1024 ≤ Z.log2 n)%Z as Hlog by (apply Z.log2_le_pow2; lia).
  assert (2 ^ 1024 ≤ 2 ^ Z.log2 n)%Z by (apply Z.pow_le_mono_r; lia).
  destruct (Z.leb_spec (2 ^ 1024) (Js.roundToDouble n)); [|lia].
  destruct (Z.ltb_spec n 0); [lia|done].
Qed.

(** The Number of a positive integer is at least 1, that of a negative
    integer or of zero is below 1. *)
Lemma toNumber_below_one n :
  Js.isNaN (Js.toNumber n) = false
  ∧ Js.ltb (Js.toNumber n) (Js.Finite 1) = (n <? 1)%Z.
Proof.
  unfold Js.toNumber.
  destruct (Z.eq_dec n 0) as [->|Hne]; [done|].
  pose proof (roundToDouble_lower (Z.abs n) ltac:(lia)) as Hlow.
  assert (1 ≤ 2 ^ Z.log2 (Z.abs n))%Z
    by (apply (Z.pow_le_mono_r 2 0); [lia|apply Z.log2_nonneg]).
  destruct (Z.leb_spec (2 ^ 1024) (Js.roundToDouble (Z.abs n))).
  - destruct (Z.ltb_spec n 0), (Z.ltb_spec n 1); (done || lia).
  - split; [done|]. cbn [Js.ltb].
    destruct (Z.ltb_spec n 1).
    + rewrite Z.sgn_neg by lia. apply Z.ltb_lt. lia.
    + rewrite Z.sgn_pos by lia. apply Z.ltb_ge. lia.
Qed.

End Rounding.

Lemma maxConcurrentJobs_cases env :
  (∃ c, maxConcurrentJobs env = Js.Finite c ∧ (1 ≤ c)%Z)
  ∨ maxConcurrentJobs env = Js.PosInfinity.
Proof.
  unfold maxConcurrentJobs. cbv zeta.
  destruct (Js.parseInt (default "3" env)) as [|z| |]; cbn.
  - left. by exists 1%Z.
  - destruct (Z.ltb_spec z 1); left; [by exists 1%Z|by exists z].
  - by right.
  - left. by exists 1%Z.
Qed.

Lemma ceiling_cases env :
  (∃ c, ceiling env = Js.Finite c ∧ (1 ≤ c)%Z)
  ∨ ceiling env = Js.PosInfinity.
Proof. apply maxConcurrentJobs_cases. Qed.

Lemma ceiling_free_slot env n :
  Js.geb (Js.ofNat n) (ceiling env) = false ↔ Js.lt (Js.ofNat n) (ceiling env).
Proof.
  unfold Js.lt, Js.geb, Js.ofNat.
  destruct (ceiling_cases env) as [(c & -> & _)| ->]; cbn; [|done].
  destruct (Z.ltb_spec (Z.of_nat n) c); done.
Qed.

Lemma ceiling_full env n :
  Js.geb (Js.ofNat n) (ceiling env) = true ↔ Js.le (ceiling env) (Js.ofNat n).
Proof. done. Qed.

Lemma ceiling_lt_succ env n :
  Js.lt (Js.ofNat n) (ceiling env) → Js.le (Js.ofNat (S n)) (ceiling env).
Proof.
  unfold Js.lt, Js.le, Js.ofNat.
  destruct (ceiling_cases env) as [(c & -> & _)| ->]; [|done].
  cbn [Js.ltb]. rewrite geb_Finite. intros H%Z.ltb_lt. lia.
Qed.

Lemma ceiling_le_zero env : Js.le (Js.ofNat 0) (ceiling env).
Proof.
  unfold Js.le, Js.ofNat.
  destruct (ceiling_cases env) as [(c & -> & Hc)| ->]; [|done].
  apply geb_Finite. lia.
Qed.

Lemma ceiling_full_not_free env n :
  Js.le (ceiling env) (Js.ofNat n) → ¬ Js.lt (Js.ofNat n) (ceiling env).
Proof.
  intros Hfull Hfree. apply lt_not_geb in Hfree.
  apply ceiling_full in Hfull. congruence.
Qed.

(* ===================================================================== *)
(** ** Broadcast loops *)
(* ===================================================================== *)

Lemma foldl_alter_length {A} (f : nat → A → A) (ls : list nat) :
  ∀ xs : list A, length (foldl (λ xs l, alter (f l) l xs) xs ls) = length xs.
Proof.
  induction ls as [|l ls IH]; intros xs; simpl; [done|].
  by rewrite IH, length_alter.
Qed.

(** Updating the cells named by a duplicate-free list touches each named
    cell once and no other cell. *)
Lemma foldl_alter_lookup {A} (f : A → A) (ls : list nat) :
  ∀ (xs : list A) (i : nat),
    NoDup ls →
    foldl (λ xs l, alter f l xs) xs ls !! i
    = if decide (i ∈ ls) then f <$> xs !! i else xs !! i.
Proof.
  induction ls as [|l ls IH]; intros xs i Hnd; simpl.
  { destruct (decide (i ∈ [])) as [Hin|Hin]; [by apply elem_of_nil in Hin|done]. }
  apply NoDup_cons in Hnd as [Hl Hnd]. rewrite IH by done.
  destruct (decide (i = l)) as [->|Hne].
  - rewrite decide_False by done. rewrite decide_True by apply list_elem_of_here.
    apply list_lookup_alter_eq.
  - rewrite list_lookup_alter_ne by done.
    destruct (decide (i ∈ ls)) as [Hin|Hin].
    + rewrite decide_True by (by apply list_elem_of_further). done.
    + rewrite decide_False; [done|].
      intros [?|?]%elem_of_cons; done.
Qed.

Lemma foldl_send_eq (event data : string) (ls : list nat) :
  ∀ w, foldl (λ w' l, send l event data w') w ls
       = set_subs (λ ss, foldl (λ ss l, alter (receive (sse event data)) l ss)
                               ss ls) w.
Proof.
  induction ls as [|l ls IH]; intros w; simpl.
  - by destruct w.
  - by rewrite IH.
Qed.

Lemma job_listeners_add_line r line w :
  job_listeners r (update_job r (add_line line) w) = job_listeners r w.
Proof.
  unfold job_listeners, get_job, update_job; simpl.
  rewrite list_lookup_alter_eq. by destruct (heap w !! r).
Qed.

(** [pushLog] as one state update. *)
Lemma pushLog_eq r line w :
  pushLog r line w
  = {| jobs := jobs w; runningJobs := runningJobs w; logSinks := logSinks w;
       heap := alter (on_job (add_line line)) r (heap w);
       subs := foldl (λ ss l, alter (receive (sse "log" line)) l ss)
                     (subs w) (job_listeners r w) |}.
Proof.
  unfold pushLog. rewrite foldl_send_eq, job_listeners_add_line. done.
Qed.

(** The [end] of a listener that is open and attached to [r]. *)
Lemma listener_end_open l w s :
  subs w !! l = Some s → ended s = false →
  listener_end l w
  = {| jobs := jobs w; runningJobs := runningJobs w; logSinks := logSinks w;
       heap := alter (on_job (detach l)) (owner s) (heap w);
       subs := alter close l (subs w) |}.
Proof. intros Hl He. unfold listener_end. by rewrite Hl, He. Qed.

(** The loop of [pushStatus(job, 'terminated')] over open listeners of [r]. *)
Lemma terminate_loop r (ls : list nat) :
  ∀ w,
    NoDup ls →
    (∀ l, l ∈ ls → ∃ s, subs w !! l = Some s ∧ owner s = r ∧ ended s = false) →
    foldl (λ w' l, listener_end l (send l "status" "terminated" w')) w ls
    = {| jobs := jobs w; runningJobs := runningJobs w; logSinks := logSinks w;
         heap := foldl (λ h l, alter (on_job (detach l)) r h) (heap w) ls;
         subs := foldl (λ ss l,
                          alter (λ s, close (receive (sse "status" "terminated") s))
                                l ss) (subs w) ls |}.
Proof.
  induction ls as [|l ls IH]; intros w Hnd Hopen; simpl.
  { by destruct w. }
  apply NoDup_cons in Hnd as [Hl Hnd].
  destruct (Hopen l) as (s & Hs & Hown & Hend); [apply list_elem_of_here|].
  erewrite (listener_end_open l (send l "status" "terminated" w)); cycle 1.
  { simpl. rewrite list_lookup_alter_eq, Hs. done. }
  { done. }
  simpl. rewrite Hown. rewrite IH; [|done|].
  - simpl. by rewrite list_alter_alter_eq.
  - intros l' Hl'. simpl.
    destruct (Hopen l') as (s' & Hs' & ?); [by apply list_elem_of_further|].
    exists s'. rewrite !list_lookup_alter_ne by (intros ->; done). done.
Qed.

Lemma detach_loop_lookup r (ls : list nat) :
  ∀ (h : list Cell) (r' : nat),
    foldl (λ h l, alter (on_job (detach l)) r h) h ls !! r'
    = if decide (r' = r)
      then (λ c, {| job := {| job_id := job_id (job c); status := status (job c);
                              logs := logs (job c);
                              listeners := filter (λ l, l ∉ ls)
                                                  (listeners (job c));
                              aborted := aborted (job c) |};
                    promise := promise c |}) <$> h !! r'
      else h !! r'.
Proof.
  induction ls as [|l ls IH]; intros h r'; simpl.
  - case_decide; [|done]. destruct (h !! r') as [[[] ?]|]; simpl; [|done].
    do 3 f_equal. symmetry. induction listeners0 as [|x xs IHx]; [done|].
    rewrite filter_cons_True by apply not_elem_of_nil. by f_equal.
  - rewrite IH. case_decide as Hr; [subst r'|].
    + rewrite list_lookup_alter_eq. destruct (h !! r) as [c|]; simpl; [|done].
      do 3 f_equal. rewrite list_filter_filter. apply list_filter_iff.
      intros x. rewrite not_elem_of_cons. tauto.
    + by rewrite list_lookup_alter_ne.
Qed.

(* ===================================================================== *)
(** ** The stream invariant is kept by the primitive updates *)
(* ===================================================================== *)

Lemma replay_snoc ls line : replay (ls ++ [line]) = replay ls ++ sse "log" line.
Proof. unfold replay. rewrite flat_map_app. cbn [flat_map]. by rewrite app_nil_r. Qed.

Lemma job_listeners_Some r w c :
  heap w !! r = Some c → job_listeners r w = listeners (job c).
Proof. intros H. unfold job_listeners, get_job. by rewrite H. Qed.

Lemma job_listeners_None r w : heap w !! r = None → job_listeners r w = [].
Proof. intros H. unfold job_listeners, get_job. by rewrite H. Qed.

Lemma job_logs_Some r w c : heap w !! r = Some c → job_logs r w = logs (job c).
Proof. intros H. unfold job_logs, get_job. by rewrite H. Qed.

(** An attached listener of a job object is attached to no other one. *)
Lemma InvStream_owner w r c l s :
  InvStream w → heap w !! r = Some c → l ∈ listeners (job c) →
  subs w !! l = Some s → owner s = r ∧ ended s = false.
Proof.
  intros [H1 _] Hc Hl Hs. destruct (H1 r c Hc) as [_ Hm].
  destruct (Hm l Hl) as (s' & Hs' & ? & ? & _). by simplify_eq.
Qed.

Lemma InvStream_pushLog r line w : InvStream w → InvStream (pushLog r line w).
Proof.
  intros Hinv. pose proof Hinv as [H1 H2]. rewrite pushLog_eq.
  assert (HL : NoDup (job_listeners r w)).
  { destruct (heap w !! r) as [c|] eqn:Hc.
    - rewrite (job_listeners_Some _ _ _ Hc). by apply (H1 r c).
    - rewrite (job_listeners_None _ _ Hc). constructor. }
  split; simpl.
  - intros r' c' Hc'. destruct (decide (r' = r)) as [->|Hne].
    + rewrite list_lookup_alter_eq in Hc'.
      destruct (heap w !! r) as [c|] eqn:Hc; [|done]. simplify_eq/=.
      destruct (H1 r c Hc) as [Hnd Hm]. split; [done|].
      intros l Hl. destruct (Hm l Hl) as (s & Hs & Ho & He & Hw).
      exists (receive (sse "log" line) s).
      rewrite foldl_alter_lookup by done.
      rewrite (job_listeners_Some _ _ _ Hc), decide_True by done.
      rewrite Hs. simpl. rewrite Hw, replay_snoc. done.
    + rewrite list_lookup_alter_ne in Hc' by done.
      destruct (H1 r' c' Hc') as [Hnd Hm]. split; [done|].
      intros l Hl. destruct (Hm l Hl) as (s & Hs & Ho & He & Hw).
      exists s. rewrite foldl_alter_lookup by done.
      rewrite decide_False; [done|]. intros Hin.
      destruct (heap w !! r) as [c|] eqn:Hc.
      * rewrite (job_listeners_Some _ _ _ Hc) in Hin.
        destruct (InvStream_owner w r c l s Hinv Hc Hin Hs). congruence.
      * rewrite (job_listeners_None _ _ Hc) in Hin. by apply elem_of_nil in Hin.
  - intros l s' Hs'. rewrite foldl_alter_lookup in Hs' by done.
    assert (∃ s, subs w !! l = Some s ∧ owner s' = owner s ∧
                 ended s' = ended s ∧
                 (ended s = true → s' = s)) as (s & Hs & Ho & He & Hsame).
    { case_decide as Hin.
      - destruct (subs w !! l) as [s|] eqn:Hs; [|done]. simplify_eq/=.
        exists s. repeat split; try done. intros Hend.
        destruct (heap w !! r) as [c|] eqn:Hc.
        + rewrite (job_listeners_Some _ _ _ Hc) in Hin.
          destruct (InvStream_owner w r c l s Hinv Hc Hin Hs). congruence.
        + rewrite (job_listeners_None _ _ Hc) in Hin.
          by apply elem_of_nil in Hin.
      - exists s'. done. }
    destruct (H2 l s Hs) as (c & Hc & Hend). rewrite Ho.
    destruct (decide (owner s = r)) as [Hr|Hr].
    + exists (on_job (add_line line) c). split.
      { rewrite <- Hr, list_lookup_alter_eq, Hc. done. }
      rewrite He. intros Het. rewrite (Hsame Het).
      destruct (Hend Het) as (pre & Hpre & Hw). exists pre. split; [|done].
      simpl. by apply prefix_app_r.
    + exists c. split; [by rewrite list_lookup_alter_ne|].
      rewrite He. intros Het. rewrite (Hsame Het). by apply Hend.
Qed.

(** [pushStatus(job, 'terminated')] under the stream invariant, as one state
    update: every listener of the job gets the status event and is ended,
    and the job's listener set is emptied. *)
Lemma pushStatus_eq r w :
  InvStream w →
  pushStatus r "terminated" w
  = {| jobs := jobs w; runningJobs := runningJobs w; logSinks := logSinks w;
       heap := foldl (λ h l, alter (on_job (detach l)) r h) (heap w)
                     (job_listeners r w);
       subs := foldl (λ ss l,
                        alter (λ s, close (receive (sse "status" "terminated") s))
                              l ss) (subs w) (job_listeners r w) |}.
Proof.
  intros [H1 _]. unfold pushStatus. simpl.
  destruct (heap w !! r) as [c|] eqn:Hc.
  - rewrite (job_listeners_Some _ _ _ Hc). destruct (H1 r c Hc) as [Hnd Hm].
    apply terminate_loop; [done|]. intros l Hl.
    destruct (Hm l Hl) as (s & ? & ? & ? & _). eauto.
  - rewrite (job_listeners_None _ _ Hc). simpl. by destruct w.
Qed.

Lemma filter_not_elem_of_self (ls : list nat) : filter (λ l, l ∉ ls) ls = [].
Proof.
  apply elem_of_nil_inv. intros x [Hx Hin]%list_elem_of_filter. done.
Qed.

Lemma InvStream_pushStatus r w :
  InvStream w → InvStream (pushStatus r "terminated" w).
Proof.
  intros Hinv. pose proof Hinv as [H1 H2]. rewrite pushStatus_eq by done.
  assert (HL : NoDup (job_listeners r w)).
  { destruct (heap w !! r) as [c|] eqn:Hc.
    - rewrite (job_listeners_Some _ _ _ Hc). by apply (H1 r c).
    - rewrite (job_listeners_None _ _ Hc). constructor. }
  assert (Hmem : ∀ l s, l ∈ job_listeners r w → subs w !! l = Some s →
                        owner s = r ∧ ended s = false ∧
                        ∃ c, heap w !! r = Some c ∧
                             written s = replay (logs (job c))).
  { intros l s Hin Hs. destruct (heap w !! r) as [c|] eqn:Hc.
    - rewrite (job_listeners_Some _ _ _ Hc) in Hin.
      destruct (H1 r c Hc) as [_ Hm].
      destruct (Hm l Hin) as (s' & Hs' & ? & ? & ?). simplify_eq. eauto.
    - rewrite (job_listeners_None _ _ Hc) in Hin. by apply elem_of_nil in Hin. }
  split; simpl.
  - intros r' c' Hc'. rewrite detach_loop_lookup in Hc'.
    case_decide as Hr; [subst r'|].
    + destruct (heap w !! r) as [c|] eqn:Hc; [|done]. simplify_eq/=.
      rewrite (job_listeners_Some _ _ _ Hc), filter_not_elem_of_self.
      split; [constructor|]. intros l Hl. by apply elem_of_nil in Hl.
    + destruct (H1 r' c' Hc') as [Hnd Hm]. split; [done|].
      intros l Hl. destruct (Hm l Hl) as (s & Hs & Ho & He & Hw).
      exists s. rewrite foldl_alter_lookup by done.
      rewrite decide_False; [done|]. intros Hin.
      destruct (Hmem l s Hin Hs) as [? _]. congruence.
  - intros l s' Hs'. rewrite foldl_alter_lookup in Hs' by done.
    case_decide as Hin.
    + destruct (subs w !! l) as [s|] eqn:Hs; [|done]. simplify_eq/=.
      destruct (Hmem l s Hin Hs) as (Ho & He & c & Hc & Hw).
      rewrite Ho, detach_loop_lookup, decide_True, Hc by done. simpl.
      eexists. split; [done|]. intros _. exists (logs (job c)). simpl.
      split; [done|]. by rewrite Hw.
    + destruct (H2 l s' Hs') as (c & Hc & Hend).
      rewrite detach_loop_lookup. case_decide as Hr.
      * rewrite Hc. simpl. eexists. split; [done|]. done.
      * exists c. done.
Qed.

(** Updates of a heap cell that keep its lines and its listeners. *)
Lemma InvStream_alter (f : Cell → Cell) r w :
  (∀ c, logs (job (f c)) = logs (job c) ∧
        listeners (job (f c)) = listeners (job c)) →
  InvStream w → InvStream (set_heap (alter f r) w).
Proof.
  intros Hf [H1 H2]. split; simpl.
  - intros r' c' Hc'. rewrite list_lookup_alter in Hc'.
    case_decide as Hr; [subst r'|by apply H1].
    destruct (heap w !! r) as [c|] eqn:Hc; [|done]. simplify_eq/=.
    destruct (Hf c) as [-> ->]. by apply H1.
  - intros l s Hs. destruct (H2 l s Hs) as (c & Hc & Hend).
    rewrite list_lookup_alter. case_decide as Hr.
    + subst r. rewrite Hc. simpl. eexists. split; [done|].
      destruct (Hf c) as [-> _]. done.
    + eauto.
Qed.

(** Removing a listener from its job's set (the [close] of a request). *)
Lemma InvStream_detach l r w :
  InvStream w → InvStream (update_job r (detach l) w).
Proof.
  intros [H1 H2]. split; simpl.
  - intros r' c' Hc'. rewrite list_lookup_alter in Hc'.
    case_decide as Hr; [subst r'|by apply H1].
    destruct (heap w !! r) as [c|] eqn:Hc; [|done]. simplify_eq/=.
    destruct (H1 r c Hc) as [Hnd Hm]. split; [by apply NoDup_filter|].
    intros l' [_ Hl']%list_elem_of_filter. by apply Hm.
  - intros l' s Hs. destruct (H2 l' s Hs) as (c & Hc & Hend).
    rewrite list_lookup_alter. case_decide as Hr.
    + subst r. rewrite Hc. simpl. eexists. split; [done|]. done.
    + eauto.
Qed.

(** A new listener that has been replayed the history joins the set. *)
Lemma InvStream_attach r c w :
  heap w !! r = Some c →
  InvStream w →
  InvStream
    (update_job r (attach (length (subs w)))
       (set_subs (λ ss, ss ++ [{| owner := r; written := replay (logs (job c));
                                  ended := false |}]) w)).
Proof.
  intros Hc [H1 H2]. split; simpl.
  - intros r' c' Hc'. rewrite list_lookup_alter in Hc'.
    case_decide as Hr; [subst r'|].
    + rewrite Hc in Hc'. simplify_eq/=. destruct (H1 r c Hc) as [Hnd Hm].
      split.
      * apply NoDup_app. split; [done|]. split; [|apply NoDup_singleton].
        intros l Hl ->%list_elem_of_singleton.
        destruct (Hm _ Hl) as (s & Hs & _).
        apply lookup_lt_Some in Hs. lia.
      * intros l [Hl| ->%list_elem_of_singleton]%elem_of_app.
        -- destruct (Hm l Hl) as (s & Hs & ?). exists s.
           rewrite lookup_app_l by (by eapply lookup_lt_Some). done.
        -- eexists. rewrite list_lookup_middle by done. done.
    + destruct (H1 r' c' Hc') as [Hnd Hm]. split; [done|].
      intros l Hl. destruct (Hm l Hl) as (s & Hs & ?). exists s.
      rewrite lookup_app_l by (by eapply lookup_lt_Some). done.
  - intros l s Hs. apply lookup_snoc_Some in Hs as [[Hlt Hs]|[-> <-]].
    + destruct (H2 l s Hs) as (c' & Hc' & Hend).
      rewrite list_lookup_alter. case_decide as Hr.
      * subst r. rewrite Hc'. simpl. eexists. split; [done|]. done.
      * eauto.
    + simpl. rewrite list_lookup_alter_eq, Hc. simpl. eexists. split; [done|].
      done.
Qed.

(** A new job object without listeners is allocated. *)
Lemma InvStream_alloc c (w w' : World) :
  listeners (job c) = [] →
  heap w' = heap w ++ [c] → subs w' = subs w →
  InvStream w → InvStream w'.
Proof.
  intros Hl Hh Hs [H1 H2]. split; rewrite ?Hh, ?Hs.
  - intros r c' Hc'. apply lookup_snoc_Some in Hc' as [[Hlt Hc']|[-> <-]].
    + by apply H1.
    + rewrite Hl. split; [constructor|]. intros l Hin.
      by apply elem_of_nil in Hin.
  - intros l s Hsl. destruct (H2 l s Hsl) as (c' & Hc' & Hend).
    exists c'. split; [|done].
    rewrite lookup_app_l by (by eapply lookup_lt_Some). done.
Qed.

(* ===================================================================== *)
(** ** What the primitive updates leave alone *)
(* ===================================================================== *)

Lemma pushLog_heap_lookup r line w r' :
  heap (pushLog r line w) !! r'
  = if decide (r' = r) then on_job (add_line line) <$> heap w !! r'
    else heap w !! r'.
Proof.
  rewrite pushLog_eq. simpl. rewrite list_lookup_alter.
  destruct (decide (r = r')), (decide (r' = r)); congruence.
Qed.

Lemma pushLog_core r line w r' :
  core <$> heap (pushLog r line w) !! r' = core <$> heap w !! r'.
Proof.
  rewrite pushLog_heap_lookup. case_decide; [|done].
  by destruct (heap w !! r').
Qed.

Lemma pushLog_fields r line w :
  jobs (pushLog r line w) = jobs w ∧
  runningJobs (pushLog r line w) = runningJobs w ∧
  logSinks (pushLog r line w) = logSinks w.
Proof. by rewrite pushLog_eq. Qed.

Lemma pushStatus_heap_lookup r w r' :
  InvStream w →
  heap (pushStatus r "terminated" w) !! r'
  = if decide (r' = r)
    then (λ c, {| job := {| job_id := job_id (job c); status := status (job c);
                            logs := logs (job c); listeners := [];
                            aborted := aborted (job c) |};
                  promise := promise c |}) <$> heap w !! r'
    else heap w !! r'.
Proof.
  intros Hinv. rewrite pushStatus_eq by done. simpl.
  rewrite detach_loop_lookup. case_decide as Hr; [subst r'|done].
  destruct (heap w !! r) as [c|] eqn:Hc; [|done]. simpl.
  by rewrite (job_listeners_Some _ _ _ Hc), filter_not_elem_of_self.
Qed.

Lemma pushStatus_core r w r' :
  InvStream w →
  core <$> heap (pushStatus r "terminated" w) !! r' = core <$> heap w !! r'.
Proof.
  intros Hinv. rewrite pushStatus_heap_lookup by done. case_decide; [|done].
  by destruct (heap w !! r').
Qed.

Lemma pushStatus_fields r w :
  InvStream w →
  jobs (pushStatus r "terminated" w) = jobs w ∧
  runningJobs (pushStatus r "terminated" w) = runningJobs w ∧
  logSinks (pushStatus r "terminated" w) = logSinks w.
Proof. intros Hinv. by rewrite pushStatus_eq. Qed.

Lemma update_job_core r f w r' :
  (∀ j, job_id (f j) = job_id j ∧ status (f j) = status j) →
  core <$> heap (update_job r f w) !! r' = core <$> heap w !! r'.
Proof.
  intros Hf. simpl. rewrite list_lookup_alter. case_decide; [subst|done].
  destruct (heap w !! r') as [c|]; [|done]. simpl. unfold core. simpl.
  by destruct (Hf (job c)) as [-> ->].
Qed.

Lemma core_eq c c' :
  core c = core c' →
  job_id (job c) = job_id (job c') ∧ status (job c) = status (job c') ∧
  promise c = promise c'.
Proof. unfold core. intros [= -> -> ->]. done. Qed.

(** The registry invariants only read the registry tables and the core of
    the cells. *)
Lemma InvReg_same ceil w w' :
  jobs w' = jobs w → runningJobs w' = runningJobs w →
  logSinks w' = logSinks w →
  (∀ r, core <$> heap w' !! r = core <$> heap w !! r) →
  InvReg ceil w → InvReg ceil w'.
Proof.
  intros Hj Hr Hs Hcore (R1 & R2 & R3 & R4 & R5).
  assert (Hback : ∀ r c', heap w' !! r = Some c' →
                          ∃ c, heap w !! r = Some c ∧ core c = core c').
  { intros r c' Hc'. specialize (Hcore r). rewrite Hc' in Hcore.
    destruct (heap w !! r) as [c|]; [|done]. simpl in Hcore.
    exists c. split; [done|congruence]. }
  assert (Hforth : ∀ r c, heap w !! r = Some c →
                          ∃ c', heap w' !! r = Some c' ∧ core c = core c').
  { intros r c Hc. specialize (Hcore r). rewrite Hc in Hcore.
    destruct (heap w' !! r) as [c'|]; [|done]. simpl in Hcore.
    exists c'. split; [done|congruence]. }
  unfold InvReg. rewrite Hj, Hr, Hs. repeat split; try done.
  - intros id r Hid. destruct (R1 id r Hid) as (c & Hc & Hidc).
    destruct (Hforth r c Hc) as (c' & Hc' & (Ei & Es & Ep)%core_eq).
    exists c'. split; [done|]. congruence.
  - intros id r Hid. destruct (R2 id r Hid) as (c & Hc & Hidc & Hp).
    destruct (Hforth r c Hc) as (c' & Hc' & (Ei & Es & Ep)%core_eq).
    exists c'. repeat split; [done|congruence|congruence].
  - intros Hp. destruct (Hback r c H) as (c0 & Hc0 & (Ei & Es & Ep)%core_eq).
    rewrite <- Es. apply (R3 r c0 Hc0). congruence.
  - intros Hp. destruct (Hback r c H) as (c0 & Hc0 & (Ei & Es & Ep)%core_eq).
    rewrite <- Ep. apply (R3 r c0 Hc0). congruence.
Qed.

Lemma InvFresh_same w w' :
  jobs w' = jobs w → runningJobs w' = runningJobs w →
  (∀ r, core <$> heap w' !! r = core <$> heap w !! r) →
  InvFresh w → InvFresh w'.
Proof.
  intros Hj Hr Hcore (F1 & F2).
  assert (Hback : ∀ r c', heap w' !! r = Some c' →
                          ∃ c, heap w !! r = Some c ∧ core c = core c').
  { intros r c' Hc'. specialize (Hcore r). rewrite Hc' in Hcore.
    destruct (heap w !! r) as [c|]; [|done]. simpl in Hcore.
    exists c. split; [done|congruence]. }
  unfold InvFresh. rewrite Hj, Hr. split.
  - intros r c' Hc'.
    destruct (Hback r c' Hc') as (c & Hc & (Ei & Es & Ep)%core_eq).
    rewrite <- Ei. by apply F1.
  - intros r c' Hc' Hp.
    destruct (Hback r c' Hc') as (c & Hc & (Ei & Es & Ep)%core_eq).
    rewrite <- Ei. apply (F2 r c Hc). congruence.
Qed.

(* ===================================================================== *)
(** ** The logger's [emit] *)
(* ===================================================================== *)

(** The loop of [emit] hands the sink the trimmed non-empty lines in order. *)
Lemma emit_eq jobId level formatted now w sink :
  logSinks w !! jobId = Some sink →
  emit (Some jobId) level formatted now w
  = pushLogs sink (Logger.emittedLines formatted) w.
Proof.
  intros Hs. unfold emit, Logger.emittedLines, pushLogs. rewrite Hs.
  generalize (Js.split_lines (Logger.stripAnsi formatted)) as ls.
  intros ls. revert w Hs. induction ls as [|x ls IH]; intros w Hs; [done|].
  cbn [foldl map]. destruct (Js.isEmpty (Js.trimEnd x)) eqn:He.
  - rewrite filter_cons_False by (by rewrite He). by apply IH.
  - rewrite filter_cons_True by done. cbn [foldl]. unfold logSink at 2.
    cbn [Logger.message]. apply IH. by rewrite (proj2 (proj2 (pushLog_fields _ _ _))).
Qed.

Lemma pushLogs_fields r ls w :
  jobs (pushLogs r ls w) = jobs w ∧
  runningJobs (pushLogs r ls w) = runningJobs w ∧
  logSinks (pushLogs r ls w) = logSinks w.
Proof.
  revert w. induction ls as [|x ls IH]; intros w; [done|].
  unfold pushLogs in *. cbn [foldl].
  destruct (IH (pushLog r x w)) as (-> & -> & ->). apply pushLog_fields.
Qed.

Lemma pushLogs_core r ls w r' :
  core <$> heap (pushLogs r ls w) !! r' = core <$> heap w !! r'.
Proof.
  revert w. induction ls as [|x ls IH]; intros w; [done|].
  unfold pushLogs in *. cbn [foldl]. rewrite IH. apply pushLog_core.
Qed.

Lemma InvStream_pushLogs r ls w : InvStream w → InvStream (pushLogs r ls w).
Proof.
  revert w. induction ls as [|x ls IH]; intros w Hinv; [done|].
  unfold pushLogs in *. cbn [foldl]. by apply IH, InvStream_pushLog.
Qed.

Lemma pushLogs_heap_lookup r ls w r' :
  heap (pushLogs r ls w) !! r'
  = if decide (r' = r)
    then (λ c, {| job := {| job_id := job_id (job c); status := status (job c);
                            logs := logs (job c) ++ ls;
                            listeners := listeners (job c);
                            aborted := aborted (job c) |};
                  promise := promise c |}) <$> heap w !! r'
    else heap w !! r'.
Proof.
  revert w. induction ls as [|x ls IH]; intros w.
  - simpl. case_decide; [|done]. destruct (heap w !! r') as [[[] ?]|]; [|done].
    simpl. by rewrite app_nil_r.
  - unfold pushLogs in *. cbn [foldl]. rewrite IH, pushLog_heap_lookup.
    case_decide; [|done]. destruct (heap w !! r') as [c|]; [|done].
    simpl. by rewrite <- app_assoc.
Qed.

(** The subscribers of the job object get the lines in the same order. *)
Lemma pushLog_subs_lookup r line w l :
  InvStream w →
  subs (pushLog r line w) !! l
  = if decide (l ∈ job_listeners r w)
    then receive (sse "log" line) <$> subs w !! l
    else subs w !! l.
Proof.
  intros [H1 _]. rewrite pushLog_eq. simpl. apply foldl_alter_lookup.
  destruct (heap w !! r) as [c|] eqn:Hc.
  - rewrite (job_listeners_Some _ _ _ Hc). by apply (H1 r c).
  - rewrite (job_listeners_None _ _ Hc). constructor.
Qed.

Lemma pushLog_job_listeners r line w r' :
  job_listeners r' (pushLog r line w) = job_listeners r' w.
Proof.
  unfold job_listeners, get_job. rewrite pushLog_heap_lookup.
  case_decide; [|done]. by destruct (heap w !! r').
Qed.

Lemma pushLogs_subs_lookup r ls w l :
  InvStream w →
  subs (pushLogs r ls w) !! l
  = if decide (l ∈ job_listeners r w)
    then receive (replay ls) <$> subs w !! l
    else subs w !! l.
Proof.
  revert w. induction ls as [|x ls IH]; intros w Hinv.
  - simpl. case_decide; [|done]. destruct (subs w !! l) as [[]|]; [|done].
    unfold receive. simpl. by rewrite app_nil_r.
  - unfold pushLogs in *. cbn [foldl].
    rewrite IH by (by apply InvStream_pushLog).
    rewrite pushLog_job_listeners, pushLog_subs_lookup by done.
    case_decide; [|done]. destruct (subs w !! l) as [s|]; [|done].
    unfold receive, replay. simpl. by rewrite <- !app_assoc.
Qed.

(* ===================================================================== *)
(** ** Every event keeps the invariants *)
(* ===================================================================== *)

Section Preservation.

Context (env : option string).

Lemma start_cases body uuid w :
  (start env body uuid w = (w, Capacity (ceiling env)) ∧
   Js.le (ceiling env) (Js.ofNat (size (runningJobs w))))
  ∨ (start env body uuid w = (w, MissingCredentials) ∧
     Js.lt (Js.ofNat (size (runningJobs w))) (ceiling env) ∧
     (Js.truthy (email body) && Js.truthy (password body) = false))
  ∨ (start env body uuid w
       = (pushLog (length (heap w)) "Job started." (allocated uuid w),
          Started uuid) ∧
     Js.lt (Js.ofNat (size (runningJobs w))) (ceiling env) ∧
     Js.truthy (email body) = true ∧ Js.truthy (password body) = true).
Proof.
  unfold start.
  destruct (Js.geb (Js.ofNat (size (runningJobs w))) (ceiling env)) eqn:Hcap;
    [by left|]. right. apply ceiling_free_slot in Hcap.
  destruct (Js.truthy (email body)), (Js.truthy (password body)); simpl.
  - right. by repeat split.
  - left. by repeat split.
  - left. by repeat split.
  - left. by repeat split.
Qed.

Lemma InvReg_allocated uuid w :
  Js.lt (Js.ofNat (size (runningJobs w))) (ceiling env) →
  InvReg (ceiling env) w → InvReg (ceiling env) (allocated uuid w).
Proof.
  intros Hcap (R1 & R2 & R3 & R4 & R5). unfold InvReg. simpl.
  repeat split.
  - intros id r Hid. apply lookup_insert_Some in Hid as [[<- <-]|[Hne Hid]].
    + eexists. rewrite list_lookup_middle by done. done.
    + destruct (R1 id r Hid) as (c & Hc & ?). exists c.
      rewrite lookup_app_l by (by eapply lookup_lt_Some). done.
  - intros id r Hid. apply lookup_insert_Some in Hid as [[<- <-]|[Hne Hid]].
    + eexists. rewrite list_lookup_middle by done. done.
    + destruct (R2 id r Hid) as (c & Hc & ?). exists c.
      rewrite lookup_app_l by (by eapply lookup_lt_Some). done.
  - apply lookup_snoc_Some in H as [[_ Hc]|[_ <-]]; [by apply (R3 _ _ Hc)|done].
  - apply lookup_snoc_Some in H as [[_ Hc]|[_ <-]]; [by apply (R3 _ _ Hc)|done].
  - pose proof (size_union_alt {[uuid]} (runningJobs w)) as Hsz.
    rewrite size_singleton in Hsz.
    pose proof (subseteq_size (runningJobs w ∖ {[uuid]}) (runningJobs w)) as Hle.
    assert (runningJobs w ∖ {[uuid]} ⊆ runningJobs w) as Hsub
      by (intros x [Hx _]%elem_of_difference; exact Hx).
    apply Hle in Hsub. apply ceiling_lt_succ in Hcap.
    eapply le_ofNat_mono; [|exact Hcap]. lia.
  - intros id [->%elem_of_singleton|Hin]%elem_of_union.
    + rewrite lookup_insert_eq. eauto.
    + destruct (decide (uuid = id)) as [->|Hne].
      * rewrite lookup_insert_eq. eauto.
      * rewrite lookup_insert_ne by done. by apply R5.
Qed.

Lemma InvFresh_allocated uuid w :
  jobs w !! uuid = None →
  InvFresh w → InvFresh (allocated uuid w).
Proof.
  intros Hfresh (F1 & F2). unfold InvFresh. simpl. split.
  - intros r c Hc. apply lookup_snoc_Some in Hc as [[_ Hc]|[-> <-]].
    + rewrite lookup_insert_ne; [by apply F1|].
      intros ->. rewrite (F1 r c Hc) in Hfresh. done.
    + simpl. by rewrite lookup_insert_eq.
  - intros r c Hc Hp. apply lookup_snoc_Some in Hc as [[_ Hc]|[-> <-]].
    + apply elem_of_union. right. by apply (F2 r c).
    + simpl. apply elem_of_union. left. by apply elem_of_singleton.
Qed.

Lemma InvStream_allocated uuid w : InvStream w → InvStream (allocated uuid w).
Proof.
  intros Hinv. eapply InvStream_alloc with (w := w); cycle 1;
    [reflexivity|reflexivity|exact Hinv|reflexivity].
Qed.

(** Invariants under an update of one heap cell that keeps the job id. *)
Lemma InvReg_cell ceil r (f : Cell → Cell) w w' :
  jobs w' = jobs w → runningJobs w' = runningJobs w →
  logSinks w' = logSinks w →
  (∀ r', heap w' !! r'
         = if decide (r' = r) then f <$> heap w !! r' else heap w !! r') →
  (∀ c, heap w !! r = Some c →
        job_id (job (f c)) = job_id (job c) ∧ promise (f c) ≠ Finalized ∧
        (promise (f c) = Pending ↔ status (job (f c)) = running)) →
  InvReg ceil w → InvReg ceil w'.
Proof.
  intros Hj Hr Hs Hh Hf (R1 & R2 & R3 & R4 & R5).
  unfold InvReg. rewrite Hj, Hr, Hs.
  split; [|split; [|split; [|split]]]; try done.
  - intros id r' Hid. destruct (R1 id r' Hid) as (c & Hc & Hidc).
    rewrite Hh. case_decide as Hr'; [subst r'|eauto].
    rewrite Hc. simpl. eexists. split; [done|].
    destruct (Hf c Hc) as (-> & _). done.
  - intros id r' Hid. destruct (R2 id r' Hid) as (c & Hc & Hidc & Hp).
    rewrite Hh. case_decide as Hr'; [subst r'|eauto].
    rewrite Hc. simpl. eexists. split; [done|].
    destruct (Hf c Hc) as (-> & ? & _). done.
  - intros r' c' Hc'. rewrite Hh in Hc'. case_decide as Hr'; [subst r'|eauto].
    destruct (heap w !! r) as [c|] eqn:Hc; [|done]. simplify_eq/=.
    by apply Hf.
Qed.

Lemma InvFresh_cell r (f : Cell → Cell) w w' :
  jobs w' = jobs w → runningJobs w' = runningJobs w →
  (∀ r', heap w' !! r'
         = if decide (r' = r) then f <$> heap w !! r' else heap w !! r') →
  (∀ c, heap w !! r = Some c →
        job_id (job (f c)) = job_id (job c) ∧
        (promise (f c) ≠ Finalized → promise c ≠ Finalized)) →
  InvFresh w → InvFresh w'.
Proof.
  intros Hj Hr Hh Hf (F1 & F2). unfold InvFresh. rewrite Hj, Hr. split.
  - intros r' c' Hc'. rewrite Hh in Hc'. case_decide as Hr'; [subst r'|eauto].
    destruct (heap w !! r) as [c|] eqn:Hc; [|done]. simplify_eq/=.
    destruct (Hf c eq_refl) as (-> & _). by apply F1.
  - intros r' c' Hc'. rewrite Hh in Hc'. case_decide as Hr'; [subst r'|eauto].
    destruct (heap w !! r) as [c|] eqn:Hc; [|done]. simplify_eq/=.
    destruct (Hf c eq_refl) as (-> & Hp). intros Hp'. apply (F2 r c Hc). auto.
Qed.

Lemma InvStream_set_status r st w : InvStream w → InvStream (set_status r st w).
Proof. intros Hinv. by apply InvStream_alter. Qed.

Lemma settle_heap_lookup r st lines w r' :
  InvStream w →
  heap (settle r st lines w) !! r'
  = if decide (r' = r) then settled_cell st lines <$> heap w !! r'
    else heap w !! r'.
Proof.
  intros Hinv. unfold settle. cbn [set_promise set_heap heap].
  assert (Hinv' : InvStream (pushLogs r lines (set_status r st w)))
    by (by apply InvStream_pushLogs, InvStream_set_status).
  rewrite list_lookup_alter.
  destruct (decide (r = r')) as [<-|Hne].
  - rewrite decide_True by done.
    rewrite pushStatus_heap_lookup, decide_True by done.
    rewrite pushLogs_heap_lookup, decide_True by done.
    unfold set_status, update_job. cbn [set_heap heap].
    rewrite list_lookup_alter_eq. by destruct (heap w !! r).
  - rewrite decide_False by done.
    rewrite pushStatus_heap_lookup, decide_False by done.
    rewrite pushLogs_heap_lookup, decide_False by done.
    unfold set_status, update_job. cbn [set_heap heap].
    by rewrite list_lookup_alter_ne.
Qed.

Lemma settle_fields r st lines w :
  InvStream w →
  jobs (settle r st lines w) = jobs w ∧
  runningJobs (settle r st lines w) = runningJobs w ∧
  logSinks (settle r st lines w) = logSinks w.
Proof.
  intros Hinv. unfold settle.
  assert (Hinv' : InvStream (pushLogs r lines (set_status r st w)))
    by (by apply InvStream_pushLogs, InvStream_set_status).
  cbn [set_promise set_heap jobs runningJobs logSinks].
  destruct (pushStatus_fields r _ Hinv') as (-> & -> & ->).
  destruct (pushLogs_fields r lines (set_status r st w)) as (-> & -> & ->).
  done.
Qed.

Lemma InvStream_settle r st lines w :
  InvStream w → InvStream (settle r st lines w).
Proof.
  intros Hinv. apply InvStream_alter; [done|].
  by apply InvStream_pushStatus, InvStream_pushLogs, InvStream_set_status.
Qed.

Lemma InvReg_settle r st lines w :
  st ≠ running → InvStream w →
  InvReg (ceiling env) w → InvReg (ceiling env) (settle r st lines w).
Proof.
  intros Hst Hinv. destruct (settle_fields r st lines w Hinv) as (Hj & Hr & Hs).
  apply (InvReg_cell _ r (settled_cell st lines) w); [done|done|done| |].
  - intros r'. by apply settle_heap_lookup.
  - intros c _. simpl. repeat split; done.
Qed.

Lemma InvFresh_settle r st lines w c :
  InvStream w → heap w !! r = Some c → promise c = Pending →
  InvFresh w → InvFresh (settle r st lines w).
Proof.
  intros Hinv Hc Hp. destruct (settle_fields r st lines w Hinv) as (Hj & Hr & Hs).
  apply (InvFresh_cell r (settled_cell st lines) w); [done|done| |].
  - intros r'. by apply settle_heap_lookup.
  - intros c' Hc'. simplify_eq. simpl. split; [done|]. by rewrite Hp.
Qed.

Lemma onFulfilled_eq r w :
  onFulfilled r w
  = match heap w !! r with
    | Some c =>
        if decide (promise c = Pending)
        then settle r (if aborted (job c) then terminated else completed)
                    ["Job terminated successfully."] w
        else w
    | None => w
    end.
Proof.
  unfold onFulfilled. destruct (heap w !! r) as [[j []]|]; done.
Qed.

Lemma onRejected_eq r reason w :
  onRejected r reason w
  = match heap w !! r with
    | Some c =>
        if decide (promise c = Pending)
        then settle r (if aborted (job c) then terminated else failed)
                    ["Job failed: " +:+ reason; "Job terminated successfully."] w
        else w
    | None => w
    end.
Proof.
  unfold onRejected. destruct (heap w !! r) as [[j []]|]; done.
Qed.

Lemma onFinally_eq r w :
  onFinally r w
  = match heap w !! r with
    | Some c =>
        if decide (promise c = Settled)
        then set_promise r Finalized
               {| jobs := jobs w;
                  runningJobs := runningJobs w ∖ {[job_id (job c)]};
                  logSinks := delete (job_id (job c)) (logSinks w);
                  heap := heap w; subs := subs w |}
        else w
    | None => w
    end.
Proof.
  unfold onFinally. destruct (heap w !! r) as [[j []]|]; done.
Qed.

Lemma stream_known id r c w :
  jobs w !! id = Some r → heap w !! r = Some c →
  stream id w
  = (update_job r (attach (length (subs w)))
       (set_subs (λ ss, ss ++ [{| owner := r; written := replay (logs (job c));
                                  ended := false |}]) w),
     StreamOpen (length (subs w))).
Proof.
  intros Hid Hc. unfold stream. by rewrite Hid, (job_logs_Some _ _ _ Hc).
Qed.

Lemma step_InvStream w e :
  InvReg (ceiling env) w → InvStream w → InvStream (step env w e).1.
Proof.
  intros Hreg Hinv. destruct e as [body uuid|id|id|l|r|r reason|r|ctx lv fm now];
    cbn [step fst].
  - destruct (start_cases body uuid w) as [[-> _]|[[-> _]|[-> _]]]; try done.
    by apply InvStream_pushLog, InvStream_allocated.
  - destruct (jobs w !! id) as [r|] eqn:Hid; [|unfold stream; by rewrite Hid].
    destruct Hreg as (R1 & _). destruct (R1 id r Hid) as (c & Hc & _).
    rewrite (stream_known id r c) by done. by apply InvStream_attach.
  - unfold endJob. destruct (jobs w !! id) as [r|]; [|done].
    destruct (get_job r w) as [j|]; [|done].
    case_bool_decide; [done|]. cbn [fst].
    by apply InvStream_pushLog, InvStream_alter.
  - unfold reqClose. destruct (subs w !! l) as [s|]; [|done].
    destruct (ended s); [done|]. by apply InvStream_detach.
  - rewrite onFulfilled_eq. destruct (heap w !! r) as [c|]; [|done].
    case_decide; [|done]. by apply InvStream_settle.
  - rewrite onRejected_eq. destruct (heap w !! r) as [c|]; [|done].
    case_decide; [|done]. by apply InvStream_settle.
  - rewrite onFinally_eq. destruct (heap w !! r) as [c|]; [|done].
    case_decide; [|done].
    apply (InvStream_alter _ r
             {| jobs := jobs w; runningJobs := runningJobs w ∖ {[job_id (job c)]};
                logSinks := delete (job_id (job c)) (logSinks w);
                heap := heap w; subs := subs w |}); [done|].
    destruct Hinv as [H1 H2]. split; simpl; done.
  - destruct ctx as [jobId|]; [|done].
    destruct (logSinks w !! jobId) as [sink|] eqn:Hs;
      [|unfold emit; by rewrite Hs].
    rewrite (emit_eq _ _ _ _ _ sink) by done. by apply InvStream_pushLogs.
Qed.

Lemma step_InvReg w e :
  InvStream w → InvReg (ceiling env) w → InvReg (ceiling env) (step env w e).1.
Proof.
  intros Hinv Hreg.
  destruct e as [body uuid|id|id|l|r|r reason|r|ctx lv fm now]; cbn [step fst].
  - destruct (start_cases body uuid w) as [[-> _]|[[-> _]|[-> (Hcap & _)]]];
      try done.
    cbn [fst]. eapply InvReg_same; [| | | |by apply InvReg_allocated].
    1-3: apply pushLog_fields. intros r. apply pushLog_core.
  - destruct (jobs w !! id) as [r|] eqn:Hid; [|unfold stream; by rewrite Hid].
    pose proof Hreg as (R1 & _). destruct (R1 id r Hid) as (c & Hc & _).
    rewrite (stream_known id r c) by done. cbn [fst].
    apply (InvReg_same _ w); [done|done|done| |done].
    intros r'. by rewrite (update_job_core r (attach _)).
  - unfold endJob. destruct (jobs w !! id) as [r|]; [|done].
    destruct (get_job r w) as [j|]; [|done].
    case_bool_decide; [done|]. cbn [fst].
    apply (InvReg_same _ w); [| | | |exact Hreg].
    1-3: by rewrite ?(proj1 (pushLog_fields _ _ _)),
                    ?(proj1 (proj2 (pushLog_fields _ _ _))),
                    ?(proj2 (proj2 (pushLog_fields _ _ _))).
    intros r'. rewrite pushLog_core. by apply (update_job_core r abort).
  - unfold reqClose. destruct (subs w !! l) as [s|]; [|done].
    destruct (ended s); [done|].
    apply (InvReg_same _ w); [done|done|done| |done].
    intros r'. by apply (update_job_core _ (detach l)).
  - rewrite onFulfilled_eq. destruct (heap w !! r) as [c|]; [|done].
    case_decide; [|done]. apply InvReg_settle; [|done|done].
    by destruct (aborted (job c)).
  - rewrite onRejected_eq. destruct (heap w !! r) as [c|]; [|done].
    case_decide; [|done]. apply InvReg_settle; [|done|done].
    by destruct (aborted (job c)).
  - rewrite onFinally_eq. destruct (heap w !! r) as [c|] eqn:Hc; [|done].
    case_decide as Hp; [|done].
    destruct Hreg as (R1 & R2 & R3 & R4 & R5).
    unfold InvReg. cbn [set_promise set_heap jobs runningJobs logSinks heap].
    split; [|split; [|split; [|split]]].
    + intros id r' Hid. destruct (R1 id r' Hid) as (c' & Hc' & Hidc).
      rewrite list_lookup_alter. case_decide; [subst r'|eauto].
      rewrite Hc'. simpl. eauto.
    + intros id r' [Hne Hid]%lookup_delete_Some.
      destruct (R2 id r' Hid) as (c' & Hc' & Hidc & Hp').
      rewrite list_lookup_alter_ne; [eauto|]. intros <-. congruence.
    + intros r' c' Hc'. rewrite list_lookup_alter in Hc'.
      case_decide; [subst r'|eauto]. rewrite Hc in Hc'. simplify_eq/=.
      pose proof (R3 r c Hc) as Hiff. rewrite Hp in Hiff.
      split; [done|]. intros Hrun. apply Hiff in Hrun. done.
    + pose proof (subseteq_size (runningJobs w ∖ {[job_id (job c)]})
                                (runningJobs w)) as Hle.
      assert (runningJobs w ∖ {[job_id (job c)]} ⊆ runningJobs w) as Hsub
        by (intros x [Hx _]%elem_of_difference; exact Hx).
      apply Hle in Hsub. eapply le_ofNat_mono; [exact Hsub|exact R4].
    + intros id [Hin _]%elem_of_difference. by apply R5.
  - destruct ctx as [jobId|]; [|done].
    destruct (logSinks w !! jobId) as [sink|] eqn:Hs;
      [|unfold emit; by rewrite Hs].
    rewrite (emit_eq _ _ _ _ _ sink) by done. cbn [fst].
    apply (InvReg_same _ w); [| | | |exact Hreg].
    1-3: apply pushLogs_fields. intros r. apply pushLogs_core.
Qed.

End Preservation.

Section Reachability.

Context (env : option string).

Lemma step_InvFresh w e :
  InvStream w → InvReg (ceiling env) w → fresh_uuids env w [e] →
  InvFresh w → InvFresh (step env w e).1.
Proof.
  intros Hinv Hreg [Hfresh _] Hfr.
  destruct e as [body uuid|id|id|l|r|r reason|r|ctx lv fm now]; cbn [step fst].
  - destruct (start_cases env body uuid w) as [[-> _]|[[-> _]|[-> _]]];
      try done.
    cbn [fst]. apply (InvFresh_same (allocated uuid w));
      [apply pushLog_fields|apply pushLog_fields| |by apply InvFresh_allocated].
    intros r. apply pushLog_core.
  - destruct (jobs w !! id) as [r|] eqn:Hid; [|unfold stream; by rewrite Hid].
    pose proof Hreg as (R1 & _). destruct (R1 id r Hid) as (c & Hc & _).
    rewrite (stream_known id r c) by done. cbn [fst].
    apply (InvFresh_same w); [done|done| |done].
    intros r'. by rewrite (update_job_core r (attach _)).
  - unfold endJob. destruct (jobs w !! id) as [r|]; [|done].
    destruct (get_job r w) as [j|]; [|done].
    case_bool_decide; [done|]. cbn [fst].
    apply (InvFresh_same w); [| | |done].
    1-2: by rewrite ?(proj1 (pushLog_fields _ _ _)),
                    ?(proj1 (proj2 (pushLog_fields _ _ _))).
    intros r'. rewrite pushLog_core. by apply (update_job_core r abort).
  - unfold reqClose. destruct (subs w !! l) as [s|]; [|done].
    destruct (ended s); [done|].
    apply (InvFresh_same w); [done|done| |done].
    intros r'. by apply (update_job_core _ (detach l)).
  - rewrite onFulfilled_eq. destruct (heap w !! r) as [c|] eqn:Hc; [|done].
    case_decide; [|done]. by apply (InvFresh_settle _ _ _ _ c).
  - rewrite onRejected_eq. destruct (heap w !! r) as [c|] eqn:Hc; [|done].
    case_decide; [|done]. by apply (InvFresh_settle _ _ _ _ c).
  - rewrite onFinally_eq. destruct (heap w !! r) as [c|] eqn:Hc; [|done].
    case_decide as Hp; [|done]. destruct Hfr as (F1 & F2).
    unfold InvFresh. cbn [set_promise set_heap jobs runningJobs heap]. split.
    + intros r' c' Hc'. rewrite list_lookup_alter in Hc'.
      case_decide; [subst r'|eauto]. rewrite Hc in Hc'. simplify_eq/=. eauto.
    + intros r' c' Hc' Hp'. rewrite list_lookup_alter in Hc'.
      case_decide as Hr; [subst r'|].
      * rewrite Hc in Hc'. by simplify_eq/=.
      * apply elem_of_difference. split; [by apply (F2 r' c')|].
        intros Heq%elem_of_singleton.
        pose proof (F1 r' c' Hc') as E1. pose proof (F1 r c Hc) as E2.
        rewrite Heq in E1. congruence.
  - destruct ctx as [jobId|]; [|done].
    destruct (logSinks w !! jobId) as [sink|] eqn:Hs;
      [|unfold emit; by rewrite Hs].
    rewrite (emit_eq _ _ _ _ _ sink) by done. cbn [fst].
    apply (InvFresh_same w); [apply pushLogs_fields|apply pushLogs_fields| |done].
    intros r. apply pushLogs_core.
Qed.

Lemma run_snoc w evs e : run env w (evs ++ [e]) = (step env (run env w evs) e).1.
Proof. unfold run. by rewrite foldl_app. Qed.

Lemma run_cons w e evs : run env w (e :: evs) = run env (step env w e).1 evs.
Proof. done. Qed.

Lemma run_app w evs1 evs2 :
  run env w (evs1 ++ evs2) = run env (run env w evs1) evs2.
Proof. unfold run. by rewrite foldl_app. Qed.

Lemma run_Inv evs :
  ∀ w, InvStream w → InvReg (ceiling env) w →
       InvStream (run env w evs) ∧ InvReg (ceiling env) (run env w evs).
Proof.
  induction evs as [|e evs IH]; intros w Hs Hr; [done|].
  rewrite run_cons. apply IH; [by apply step_InvStream|by apply step_InvReg].
Qed.

Lemma run_InvFresh evs :
  ∀ w, InvStream w → InvReg (ceiling env) w → InvFresh w →
       fresh_uuids env w evs → InvFresh (run env w evs).
Proof.
  induction evs as [|e evs IH]; intros w Hs Hr Hf Hfresh; [done|].
  destruct Hfresh as [He Hrest]. rewrite run_cons.
  apply IH; [by apply step_InvStream|by apply step_InvReg| |done].
  apply step_InvFresh; [done|done|by split|done].
Qed.

Lemma init_InvStream : InvStream init.
Proof. split; intros ? ? H; simpl in H; by rewrite lookup_nil in H. Qed.

Lemma init_InvReg : InvReg (ceiling env) init.
Proof.
  unfold InvReg, init. cbn [jobs runningJobs logSinks heap].
  split; [|split; [|split; [|split]]].
  - intros id r H. by rewrite lookup_empty in H.
  - intros id r H. by rewrite lookup_empty in H.
  - intros r c H. by rewrite lookup_nil in H.
  - rewrite size_empty. apply ceiling_le_zero.
  - intros id H. by apply not_elem_of_empty in H.
Qed.

Lemma init_InvFresh : InvFresh init.
Proof. split; intros ? ? H; simpl in H; by rewrite lookup_nil in H. Qed.

Lemma reachable_Inv w :
  reachable env w → InvStream w ∧ InvReg (ceiling env) w.
Proof.
  intros [evs ->]. apply run_Inv; [apply init_InvStream|apply init_InvReg].
Qed.

Lemma reachable_step w e : reachable env w → reachable env (step env w e).1.
Proof. intros [evs ->]. exists (evs ++ [e]). by rewrite run_snoc. Qed.


End Reachability.

(* ===================================================================== *)
(** ** How a job object evolves *)
(* ===================================================================== *)

Lemma evolves_refl c : evolves c c.
Proof. unfold evolves. repeat split; done. Qed.

Lemma evolves_trans c1 c2 c3 : evolves c1 c2 → evolves c2 c3 → evolves c1 c3.
Proof.
  intros (I1 & L1 & A1 & S1 & F1) (I2 & L2 & A2 & S2 & F2).
  unfold evolves. split; [congruence|]. split; [by etrans|].
  split; [auto|]. split.
  - intros Hp. destruct (S1 Hp) as [E1 P1]. destruct (S2 P1) as [E2 P2].
    split; [congruence|done].
  - intros Hp. destruct (F1 Hp) as [E1 P1]. destruct (F2 P1) as [E2 P2].
    split; [congruence|done].
Qed.

(** Updates of one field that the evolution leaves free. *)
Lemma evolves_on_job (f : Job → Job) c :
  job_id (f (job c)) = job_id (job c) →
  status (f (job c)) = status (job c) →
  logs (f (job c)) = logs (job c) →
  (aborted (job c) = true → aborted (f (job c)) = true) →
  evolves c (on_job f c).
Proof.
  intros Hi Hs Hl Ha. unfold evolves. simpl. rewrite Hi, Hs, Hl.
  repeat split; done.
Qed.

Section Evolution.

Context (env : option string).

Lemma step_evolves w e r c :
  InvStream w → InvReg (ceiling env) w →
  heap w !! r = Some c →
  ∃ c', heap (step env w e).1 !! r = Some c' ∧ evolves c c'.
Proof.
  intros Hinv Hreg Hc. pose proof Hreg as (R1 & R2 & R3 & _).
  destruct e as [body uuid|id|id|l|r0|r0 reason|r0|ctx lv fm now];
    cbn [step fst].
  - destruct (start_cases env body uuid w) as [[-> _]|[[-> _]|[-> _]]];
      cbn [fst]; [exists c; split; [done|apply evolves_refl]..|].
    exists c. split; [|apply evolves_refl].
    rewrite pushLog_heap_lookup, decide_False
      by (apply lookup_lt_Some in Hc; lia).
    cbn [allocated heap]. rewrite lookup_app_l by (by eapply lookup_lt_Some).
    done.
  - destruct (jobs w !! id) as [r0|] eqn:Hid;
      [|unfold stream; rewrite Hid; exists c; split; [done|apply evolves_refl]].
    destruct (R1 id r0 Hid) as (c0 & Hc0 & _).
    rewrite (stream_known id r0 c0) by done. cbn [fst update_job set_heap heap].
    cbn [set_subs heap]. rewrite list_lookup_alter.
    case_decide; [subst r0|exists c; split; [done|apply evolves_refl]].
    rewrite Hc. eexists. split; [done|]. by apply evolves_on_job.
  - unfold endJob. destruct (jobs w !! id) as [r0|];
      [|exists c; split; [done|apply evolves_refl]].
    destruct (get_job r0 w) as [j|] eqn:Hj;
      [|exists c; split; [done|apply evolves_refl]].
    case_bool_decide as Hst; [exists c; split; [done|apply evolves_refl]|].
    cbn [fst]. rewrite pushLog_heap_lookup.
    cbn [update_job set_heap heap]. rewrite list_lookup_alter.
    destruct (decide (r = r0)) as [->|Hne].
    + rewrite decide_True, Hc by done. eexists. split; [done|].
      unfold get_job in Hj. rewrite Hc in Hj. simplify_eq/=.
      assert (promise c = Pending) as Hp.
      { apply (R3 r0 c Hc). by destruct (status (job c)). }
      unfold evolves. simpl. rewrite Hp.
      repeat split; try done. by apply prefix_app_r.
    + rewrite decide_False by done. exists c. split; [done|apply evolves_refl].
  - unfold reqClose. destruct (subs w !! l) as [s|];
      [|exists c; split; [done|apply evolves_refl]].
    destruct (ended s); [exists c; split; [done|apply evolves_refl]|].
    cbn [update_job set_heap heap]. rewrite list_lookup_alter.
    case_decide as Ho; [|exists c; split; [done|apply evolves_refl]].
    rewrite Ho, Hc. eexists. split; [done|]. by apply evolves_on_job.
  - rewrite onFulfilled_eq. destruct (heap w !! r0) as [c0|] eqn:Hc0;
      [|exists c; split; [done|apply evolves_refl]].
    case_decide as Hp; [|exists c; split; [done|apply evolves_refl]].
    rewrite settle_heap_lookup by done.
    case_decide; [subst r0|exists c; split; [done|apply evolves_refl]].
    rewrite Hc. eexists. split; [done|]. simplify_eq.
    unfold evolves. simpl. rewrite Hp.
    repeat split; try done. by apply prefix_app_r.
  - rewrite onRejected_eq. destruct (heap w !! r0) as [c0|] eqn:Hc0;
      [|exists c; split; [done|apply evolves_refl]].
    case_decide as Hp; [|exists c; split; [done|apply evolves_refl]].
    rewrite settle_heap_lookup by done.
    case_decide; [subst r0|exists c; split; [done|apply evolves_refl]].
    rewrite Hc. eexists. split; [done|]. simplify_eq.
    unfold evolves. simpl. rewrite Hp.
    repeat split; try done. by apply prefix_app_r.
  - rewrite onFinally_eq. destruct (heap w !! r0) as [c0|] eqn:Hc0;
      [|exists c; split; [done|apply evolves_refl]].
    case_decide as Hp; [|exists c; split; [done|apply evolves_refl]].
    cbn [set_promise set_heap heap]. rewrite list_lookup_alter.
    case_decide; [subst r0|exists c; split; [done|apply evolves_refl]].
    rewrite Hc. eexists. split; [done|]. simplify_eq.
    unfold evolves. simpl. rewrite Hp. repeat split; done.
  - destruct ctx as [jobId|]; [|exists c; split; [done|apply evolves_refl]].
    destruct (logSinks w !! jobId) as [sink|] eqn:Hs;
      [|unfold emit; rewrite Hs; exists c; split; [done|apply evolves_refl]].
    rewrite (emit_eq _ _ _ _ _ sink) by done. cbn [fst].
    rewrite pushLogs_heap_lookup.
    case_decide; [subst sink|exists c; split; [done|apply evolves_refl]].
    rewrite Hc. eexists. split; [done|].
    destruct (R2 jobId r Hs) as (c0 & Hc0 & _ & Hnf). simplify_eq.
    unfold evolves. simpl.
    split; [done|]. split; [by apply prefix_app_r|]. split; [done|].
    split; [done|]. intros Hfin. congruence.
Qed.

Lemma run_evolves evs :
  ∀ w r c,
    InvStream w → InvReg (ceiling env) w → heap w !! r = Some c →
    ∃ c', heap (run env w evs) !! r = Some c' ∧ evolves c c'.
Proof.
  induction evs as [|e evs IH]; intros w r c Hs Hr Hc.
  { exists c. split; [done|apply evolves_refl]. }
  destruct (step_evolves w e r c Hs Hr Hc) as (c1 & Hc1 & E1).
  destruct (IH (step env w e).1 r c1) as (c2 & Hc2 & E2);
    [by apply step_InvStream|by apply step_InvReg|done|].
  exists c2. split; [done|]. by eapply evolves_trans.
Qed.

End Evolution.

(* ===================================================================== *)
(** ** What the subscribers are written *)
(* ===================================================================== *)

Lemma job_listeners_set_status r st w r' :
  job_listeners r' (set_status r st w) = job_listeners r' w.
Proof.
  unfold job_listeners, get_job, set_status, update_job.
  cbn [set_heap heap]. rewrite list_lookup_alter.
  case_decide; [subst|done]. by destruct (heap w !! r').
Qed.

Lemma pushLogs_job_listeners r ls w r' :
  job_listeners r' (pushLogs r ls w) = job_listeners r' w.
Proof.
  unfold job_listeners, get_job. rewrite pushLogs_heap_lookup.
  case_decide; [|done]. by destruct (heap w !! r').
Qed.

Lemma InvStream_NoDup_listeners r w : InvStream w → NoDup (job_listeners r w).
Proof.
  intros [H1 _]. destruct (heap w !! r) as [c|] eqn:Hc.
  - rewrite (job_listeners_Some _ _ _ Hc). by apply (H1 r c).
  - rewrite (job_listeners_None _ _ Hc). constructor.
Qed.

(** The [then] or [catch] callback writes to every listener of the job the
    final lines and then the status event, and ends it; no other listener is
    written to. *)
Lemma settle_subs_lookup r st lines w l :
  InvStream w →
  subs (settle r st lines w) !! l
  = if decide (l ∈ job_listeners r w)
    then (λ s, close (receive (replay lines ++ sse "status" "terminated") s))
           <$> subs w !! l
    else subs w !! l.
Proof.
  intros Hinv. unfold settle. cbn [set_promise set_heap subs].
  assert (Hinv1 : InvStream (set_status r st w))
    by (by apply InvStream_set_status).
  assert (Hinv2 : InvStream (pushLogs r lines (set_status r st w)))
    by (by apply InvStream_pushLogs).
  rewrite pushStatus_eq by done. cbn [subs].
  rewrite foldl_alter_lookup by (by apply InvStream_NoDup_listeners).
  rewrite pushLogs_job_listeners, job_listeners_set_status.
  rewrite pushLogs_subs_lookup by done.
  rewrite job_listeners_set_status.
  case_decide; [|done]. cbn [set_status update_job set_heap subs].
  destruct (subs w !! l) as [s|]; [|done]. simpl.
  unfold close, receive. simpl. by rewrite <- app_assoc.
Qed.

Lemma settle_job_listeners r st lines w c :
  InvStream w → heap w !! r = Some c →
  job_listeners r (settle r st lines w) = [].
Proof.
  intros Hinv Hc. unfold job_listeners, get_job.
  rewrite settle_heap_lookup, decide_True, Hc by done. done.
Qed.

Section Transcripts.

Context (env : option string).



(** Only the start handler writes to the registry, and only at its new id. *)
Lemma step_jobs w e id :
  InvStream w →
  (∀ body uuid, e = PostStart body uuid → uuid ≠ id) →
  jobs (step env w e).1 !! id = jobs w !! id.
Proof.
  intros Hinv Hne.
  destruct e as [body uuid|id0|id0|l0|r0|r0 reason|r0|ctx lv fm now];
    cbn [step fst].
  - destruct (start_cases env body uuid w) as [[-> _]|[[-> _]|[-> _]]];
      cbn [fst]; [done..|].
    rewrite (proj1 (pushLog_fields _ _ _)). cbn [allocated jobs].
    rewrite lookup_insert_ne; [done|]. by eapply Hne.
  - unfold stream. by destruct (jobs w !! id0).
  - unfold endJob. destruct (jobs w !! id0) as [r0|]; [|done].
    destruct (get_job r0 w) as [j|]; [|done].
    case_bool_decide; [done|]. cbn [fst].
    by rewrite (proj1 (pushLog_fields _ _ _)).
  - unfold reqClose. destruct (subs w !! l0) as [s0|]; [|done].
    by destruct (ended s0).
  - rewrite onFulfilled_eq. destruct (heap w !! r0) as [c0|]; [|done].
    case_decide; [|done]. by rewrite (proj1 (settle_fields _ _ _ _ Hinv)).
  - rewrite onRejected_eq. destruct (heap w !! r0) as [c0|]; [|done].
    case_decide; [|done]. by rewrite (proj1 (settle_fields _ _ _ _ Hinv)).
  - rewrite onFinally_eq. destruct (heap w !! r0) as [c0|]; [|done].
    by case_decide.
  - destruct ctx as [jobId|]; [|done].
    destruct (logSinks w !! jobId) as [sink|] eqn:Hk;
      [|unfold emit; by rewrite Hk].
    rewrite (emit_eq _ _ _ _ _ sink) by done.
    by rewrite (proj1 (pushLogs_fields _ _ _)).
Qed.

Lemma run_jobs_fresh evs :
  ∀ w id r,
    InvStream w → InvReg (ceiling env) w →
    fresh_uuids env w evs → jobs w !! id = Some r →
    jobs (run env w evs) !! id = Some r.
Proof.
  induction evs as [|e evs IH]; intros w id r Hinv Hreg Hfresh Hid; [done|].
  destruct Hfresh as [He Hrest]. rewrite run_cons.
  apply IH; [by apply step_InvStream|by apply step_InvReg|done|].
  rewrite step_jobs; [done|done|]. intros body uuid ->. congruence.
Qed.

End Transcripts.

(* ===================================================================== *)
(** ** C9: the concurrency ceiling *)
(* ===================================================================== *)

(** C9, as the code has it. Whatever the MAX_CONCURRENT_JOBS environment
    variable holds, the ceiling is a number that is at least 1 and never
    NaN: an integer, or +Infinity, which it is exactly when [parseInt]
    gives +Infinity (a numeral too large for a double), and then no start
    request is refused for capacity.  When the variable is absent the
    ceiling is 3; when its value does not parse ([parseInt] gives NaN) or
    parses to a number below 1, it is 1. *)
Theorem maxConcurrentJobs_at_least_one :
  (∀ env, Js.le (Js.Finite 1) (maxConcurrentJobs env)
          ∧ ((∃ n, maxConcurrentJobs env = Js.Finite n ∧ (1 ≤ n)%Z)
             ∨ maxConcurrentJobs env = Js.PosInfinity))
  ∧ maxConcurrentJobs None = Js.Finite 3
  ∧ (∀ raw, Js.isNaN (Js.parseInt raw) = true
            ∨ Js.lt (Js.parseInt raw) (Js.Finite 1) →
            maxConcurrentJobs (Some raw) = Js.Finite 1)
  ∧ (∀ env, maxConcurrentJobs env = Js.PosInfinity
            ↔ Js.parseInt (default "3" env) = Js.PosInfinity)
  ∧ (∀ env w body uuid c,
       maxConcurrentJobs env = Js.PosInfinity →
       (step env w (PostStart body uuid)).2 ≠ Capacity c).
Proof.
  split; [|split; [|split; [|split]]].
  - intros env. split; [|apply maxConcurrentJobs_cases].
    unfold Js.le.
    destruct (maxConcurrentJobs_cases env) as [(c & -> & Hc)| ->]; [|done].
    by apply geb_Finite.
  - reflexivity.
  - intros raw H. unfold maxConcurrentJobs.
    change (default "3" (Some raw)) with raw. cbv zeta.
    destruct H as [-> | H]; [done|]. unfold Js.lt in H. rewrite H.
    by rewrite orb_true_r.
  - intros env. unfold maxConcurrentJobs. cbv zeta.
    destruct (Js.parseInt (default "3" env)) as [|z| |]; cbn; try done.
    by destruct (Z.ltb_spec z 1).
  - intros env w body uuid c Hinf. cbn [step]. unfold start, ceiling.
    rewrite Hinf. cbn.
    by destruct (negb (Js.truthy (email body))
                 || negb (Js.truthy (password body))).
Qed.

(** A numeral of 310 digits makes the ceiling +Infinity, which is not an
    integer. *)
Lemma infinite_ceiling_counterexample :
  maxConcurrentJobs (Some Sample.huge_numeral) = Js.PosInfinity
  ∧ ¬ ∃ n : Z, maxConcurrentJobs (Some Sample.huge_numeral) = Js.Finite n.
Proof.
  assert (H : maxConcurrentJobs (Some Sample.huge_numeral) = Js.PosInfinity)
    by (vm_compute; reflexivity).
  split; [exact H|]. intros [n Hn]. rewrite H in Hn. discriminate Hn.
Qed.

(* ===================================================================== *)
(** ** C1: admission control *)
(* ===================================================================== *)

Section Admission.

Context (env : option string).

(** With distinct job ids, the running job objects are counted by the
    running set. *)
Lemma running_count_le_size w :
  InvReg (ceiling env) w → InvFresh w →
  running_count w ≤ size (runningJobs w).
Proof.
  intros (_ & _ & R3 & _ & _) (F1 & F2). unfold running_count.
  set (L := filter (λ c, status (job c) = running) (heap w)).
  assert (Hnd : NoDup ((job_id ∘ job) <$> L)).
  { apply (sublist_NoDup _ ((job_id ∘ job) <$> heap w)).
    - apply NoDup_alt. intros i j x Hi Hj.
      rewrite list_lookup_fmap in Hi, Hj.
      destruct (heap w !! i) as [ci|] eqn:Hci; [|done].
      destruct (heap w !! j) as [cj|] eqn:Hcj; [|done].
      simplify_eq/=. pose proof (F1 i ci Hci) as E1.
      pose proof (F1 j cj Hcj) as E2. congruence.
    - apply fmap_sublist, sublist_filter. }
  rewrite <- (length_fmap (job_id ∘ job) L).
  rewrite <- (size_list_to_set (C := gset string)) by done.
  apply subseteq_size. intros id Hid.
  apply elem_of_list_to_set, list_elem_of_fmap in Hid as (c & -> & Hc).
  apply list_elem_of_filter in Hc as [Hrun Hc].
  apply list_elem_of_lookup in Hc as [r Hc]. simpl.
  apply (F2 r c Hc). apply (R3 r c Hc) in Hrun. congruence.
Qed.

(** C1. Along every interleaving of requests, promise callbacks and log
    calls in which [randomUUID] never returns an id twice, the number of
    job objects whose status is [running] never exceeds the ceiling; a
    start request made when the running set is full is answered with the
    capacity error and leaves the whole state as it was (no slot, no job
    record); and since the check and the reservation are one step of the
    handler, of two consecutive start requests made when one slot is left
    at most one is answered with a job id. *)
Theorem admission_never_exceeds_ceiling (evs : list Event) :
  fresh_uuids env init evs →
  let w := run env init evs in
  Js.le (Js.ofNat (running_count w)) (ceiling env)
  ∧ (∀ body uuid,
       Js.le (ceiling env) (Js.ofNat (size (runningJobs w))) →
       step env w (PostStart body uuid) = (w, Capacity (ceiling env)))
  ∧ (∀ body1 uuid1 body2 uuid2,
       ceiling env = Js.ofNat (S (size (runningJobs w))) →
       jobs w !! uuid1 = None →
       let a1 := step env w (PostStart body1 uuid1) in
       let a2 := step env a1.1 (PostStart body2 uuid2) in
       ¬ (a1.2 = Started uuid1 ∧ a2.2 = Started uuid2)).
Proof.
  intros Hfresh w.
  destruct (run_Inv env evs init init_InvStream (init_InvReg env))
    as [Hstream Hreg].
  pose proof (run_InvFresh env evs init init_InvStream (init_InvReg env)
                init_InvFresh Hfresh) as Hfr.
  fold w in Hstream, Hreg, Hfr. split; [|split].
  - pose proof (running_count_le_size w Hreg Hfr) as Hle.
    destruct Hreg as (_ & _ & _ & R4 & _).
    eapply le_ofNat_mono; [exact Hle|exact R4].
  - intros body uuid Hfull. cbn [step]. unfold start.
    apply ceiling_full in Hfull. by rewrite Hfull.
  - intros body1 uuid1 body2 uuid2 Hone Hnew a1 a2 [E1 E2].
    subst a1 a2. cbn [step] in *.
    destruct (start_cases env body1 uuid1 w)
      as [[Hs _]|[[Hs _]|[Hs _]]]; rewrite Hs in E1, E2; try done.
    cbn [fst snd] in *.
    destruct (start_cases env body2 uuid2
                (pushLog (length (heap w)) "Job started." (allocated uuid1 w)))
      as [[Hs2 _]|[[Hs2 _]|[Hs2 (Hroom & _)]]]; rewrite Hs2 in E2; try done.
    rewrite (proj1 (proj2 (pushLog_fields _ _ _))) in Hroom.
    cbn [allocated runningJobs] in Hroom.
    rewrite size_union in Hroom.
    + rewrite size_singleton, Hone in Hroom.
      unfold Js.lt, Js.ofNat in Hroom. cbn [Js.ltb] in Hroom.
      apply Z.ltb_lt in Hroom. lia.
    + apply disjoint_singleton_l. intros Hin.
      destruct Hreg as (_ & _ & _ & _ & R5).
      destruct (R5 uuid1 Hin) as [r Hr]. congruence.
Qed.

End Admission.

(* ===================================================================== *)
(** ** C2, C5, C10: finalization and the end endpoint *)
(* ===================================================================== *)

Section Lifecycle.

Context (env : option string).

Lemma job_status_Some r w c :
  heap w !! r = Some c → job_status r w = Some (status (job c)).
Proof. intros H. unfold job_status, get_job. by rewrite H. Qed.

(** Once the promise of a job has settled its status never changes. *)
Lemma settled_status_final w r c evs :
  reachable env w → heap w !! r = Some c → promise c ≠ Pending →
  job_status r (run env w evs) = Some (status (job c)).
Proof.
  intros [Hs Hr]%reachable_Inv Hc Hp.
  destruct (run_evolves env evs w r c Hs Hr Hc) as (c' & Hc' & E).
  destruct E as (_ & _ & _ & Hst & _). destruct (Hst Hp) as [<- _].
  by apply job_status_Some.
Qed.

Lemma settle_status r st lines w c evs :
  reachable env w → heap w !! r = Some c → reachable env (settle r st lines w) →
  job_status r (run env (settle r st lines w) evs) = Some st.
Proof.
  intros [Hs Hr]%reachable_Inv Hc Hreach.
  apply (settled_status_final _ r (settled_cell st lines c)); [done| |done].
  by rewrite settle_heap_lookup, decide_True, Hc.
Qed.

Lemma resolve_settle w r c :
  heap w !! r = Some c → promise c = Pending →
  (step env w (Resolve r)).1
  = settle r (if aborted (job c) then terminated else completed)
           ["Job terminated successfully."] w.
Proof.
  intros Hc Hp. cbn [step fst]. rewrite onFulfilled_eq, Hc.
  by rewrite decide_True.
Qed.

Lemma reject_settle w r c reason :
  heap w !! r = Some c → promise c = Pending →
  (step env w (Reject r reason)).1
  = settle r (if aborted (job c) then terminated else failed)
           ["Job failed: " +:+ reason; "Job terminated successfully."] w.
Proof.
  intros Hc Hp. cbn [step fst]. rewrite onRejected_eq, Hc.
  by rewrite decide_True.
Qed.

(** C2. For a job whose task is still pending: when the promise resolves
    and the cancellation flag is not set the status becomes [completed];
    when the promise resolves or rejects with the flag set it becomes
    [terminated]; when it rejects with the flag not set it becomes
    [failed]; the status then stays the same whatever happens afterwards;
    and the rejection pushes the line with the failure message (followed by
    the closing line) onto the job's log. *)
Theorem outcome_decides_final_status (w : World) (r : nat) (c : Cell) :
  reachable env w → heap w !! r = Some c → promise c = Pending →
  (aborted (job c) = false →
     ∀ evs, job_status r (run env (step env w (Resolve r)).1 evs)
            = Some completed)
  ∧ (aborted (job c) = true →
     ∀ evs, job_status r (run env (step env w (Resolve r)).1 evs)
            = Some terminated)
  ∧ (aborted (job c) = true →
     ∀ reason evs, job_status r (run env (step env w (Reject r reason)).1 evs)
                   = Some terminated)
  ∧ (aborted (job c) = false →
     ∀ reason evs, job_status r (run env (step env w (Reject r reason)).1 evs)
                   = Some failed)
  ∧ (∀ reason,
       job_logs r (step env w (Reject r reason)).1
       = logs (job c) ++ ["Job failed: " +:+ reason;
                          "Job terminated successfully."]).
Proof.
  intros Hreach Hc Hp.
  assert (Hres : ∀ evs, job_status r (run env (step env w (Resolve r)).1 evs)
                 = Some (if aborted (job c) then terminated else completed)).
  { intros evs. pose proof (reachable_step env w (Resolve r) Hreach) as Hre.
    rewrite (resolve_settle w r c) in * by done.
    by apply (settle_status _ _ _ _ c). }
  assert (Hrej : ∀ reason evs,
            job_status r (run env (step env w (Reject r reason)).1 evs)
            = Some (if aborted (job c) then terminated else failed)).
  { intros reason evs.
    pose proof (reachable_step env w (Reject r reason) Hreach) as Hre.
    rewrite (reject_settle w r c) in * by done.
    by apply (settle_status _ _ _ _ c). }
  repeat split.
  - intros Ha evs. by rewrite Hres, Ha.
  - intros Ha evs. by rewrite Hres, Ha.
  - intros Ha reason evs. by rewrite Hrej, Ha.
  - intros Ha reason evs. by rewrite Hrej, Ha.
  - intros reason. rewrite (reject_settle w r c) by done.
    apply reachable_Inv in Hreach as [Hs _].
    unfold job_logs, get_job.
    by rewrite settle_heap_lookup, decide_True, Hc.
Qed.

(** C5. The end endpoint answers NotFound (404) for an unknown id and
    Conflict (409) for a job that is not running; for a running job it
    answers Accepted (202) after raising the job's cancellation flag and
    pushing the line 'Termination requested.'; in no case does it change
    the status of any job. *)
Theorem end_endpoint (w : World) (id : string) :
  reachable env w →
  let answer := step env w (PostEnd id) in
  (jobs w !! id = None → answer = (w, NotFound))
  ∧ (∀ r, jobs w !! id = Some r →
       ∃ c, heap w !! r = Some c ∧
            (status (job c) ≠ running → answer = (w, Conflict (status (job c))))
            ∧ (status (job c) = running →
                 answer.2 = Accepted ∧ http_status answer.2 = 202 ∧
                 heap answer.1 !! r
                 = Some {| job := {| job_id := job_id (job c);
                                     status := running;
                                     logs := logs (job c)
                                             ++ ["Termination requested."];
                                     listeners := listeners (job c);
                                     aborted := true |};
                           promise := promise c |}))
  ∧ (∀ r, job_status r answer.1 = job_status r w).
Proof.
  intros [Hs Hr]%reachable_Inv answer. subst answer. cbn [step].
  split; [|split].
  - intros Hid. unfold endJob. by rewrite Hid.
  - intros r Hid. destruct Hr as (R1 & _).
    destruct (R1 id r Hid) as (c & Hc & _). exists c. split; [done|].
    unfold endJob, get_job. rewrite Hid, Hc. simpl. split.
    + intros Hst. by rewrite bool_decide_eq_true_2.
    + intros Hst. rewrite bool_decide_eq_false_2 by (by intros []).
      cbn [fst snd]. split; [done|]. split; [done|].
      rewrite pushLog_heap_lookup, decide_True by done.
      cbn [update_job set_heap heap]. rewrite list_lookup_alter_eq, Hc.
      simpl. unfold on_job, add_line, abort. simpl. by rewrite Hst.
  - intros r. unfold endJob. destruct (jobs w !! id) as [r0|]; [|done].
    destruct (get_job r0 w) as [j|]; [|done].
    case_bool_decide; [done|]. cbn [fst]. unfold job_status, get_job.
    rewrite pushLog_heap_lookup. cbn [update_job set_heap heap].
    rewrite list_lookup_alter.
    destruct (decide (r = r0)) as [->|Hne].
    + rewrite decide_True by done. by destruct (heap w !! r0).
    + by rewrite decide_False.
Qed.

(** C10. When the task of a pending job settles, by resolving or by
    rejecting and whichever status the job is given, every listener
    attached to the job is written the final lines followed by the status
    event with the data 'terminated', is ended, and the job's listener set
    is left empty. *)
Theorem status_event_says_terminated (w : World) (r : nat) (c : Cell)
    (e : Event) :
  reachable env w → heap w !! r = Some c → promise c = Pending →
  (e = Resolve r ∨ ∃ reason, e = Reject r reason) →
  let w' := (step env w e).1 in
  job_listeners r w' = []
  ∧ ∀ l, l ∈ listeners (job c) →
      ∃ s, subs w !! l = Some s ∧ ended s = false ∧
           subs w' !! l
           = Some {| owner := r;
                     written := written s ++ replay (final_lines e)
                                ++ ["event: status" +:+ String Js.LF "";
                                    "data: terminated"
                                      +:+ String Js.LF (String Js.LF "")];
                     ended := true |}.
Proof.
  intros [Hs Hr]%reachable_Inv Hc Hp He w'.
  assert (∃ st, w' = settle r st (final_lines e) w) as [st ->].
  { subst w'. destruct He as [->|[reason ->]].
    - eexists. by apply resolve_settle.
    - eexists. by apply reject_settle. }
  split; [by apply (settle_job_listeners _ _ _ _ c)|].
  intros l Hl. pose proof Hs as [H1 _]. destruct (H1 r c Hc) as [_ Hm].
  destruct (Hm l Hl) as (s & Hsl & Ho & Hend & _). exists s.
  split; [done|]. split; [done|].
  rewrite settle_subs_lookup by done.
  rewrite (job_listeners_Some _ _ _ Hc), decide_True, Hsl by done.
  simpl. unfold close, receive. simpl. by rewrite Ho.
Qed.

End Lifecycle.

(* ===================================================================== *)
(** ** C3, C6: the stream endpoint and the order of events *)
(* ===================================================================== *)

Section Streaming.

Context (env : option string).





End Streaming.

(* ===================================================================== *)
(** ** C7: the logger's emit and the job's log sink *)
(* ===================================================================== *)

Section Emit.

Context (env : option string).

(** C7, as the code has it. For a log call made under the job context
    [jobId] while a sink is registered for that id: the formatted message,
    stripped of its ANSI codes, is split at the line feeds, every part is
    trimmed at the end, the empty ones are dropped, and of every remaining
    line the text alone is appended, in order, to the log of the job behind
    the sink (which carries the id [jobId]) and written as a log event to
    every listener attached to that job at that moment.  Level and
    timestamp reach the sink but are stored nowhere: the state after the
    call does not depend on them.  A log call made under no job context, or
    for an id without a sink, changes nothing. *)
Theorem emit_appends_message_lines (w : World) (jobId : string) (r : nat)
    (level formatted now : string) :
  reachable env w → logSinks w !! jobId = Some r →
  let kept := filter (λ trimmed, Js.isEmpty trimmed = false)
                     (Js.trimEnd <$> Js.split_lines (Logger.stripAnsi formatted)) in
  let w' := emit (Some jobId) level formatted now w in
  (∃ c, heap w !! r = Some c ∧ job_id (job c) = jobId
        ∧ job_logs r w' = logs (job c) ++ kept
        ∧ ∀ l, l ∈ listeners (job c) →
               ∃ s, subs w !! l = Some s ∧
                    subs w' !! l
                    = Some {| owner := owner s;
                              written := written s ++ replay kept;
                              ended := ended s |})
  ∧ (∀ level' now', emit (Some jobId) level' formatted now' w = w')
  ∧ (∀ w0 level' formatted' now', emit None level' formatted' now' w0 = w0)
  ∧ (∀ w0 id level' formatted' now',
       logSinks w0 !! id = None →
       emit (Some id) level' formatted' now' w0 = w0).
Proof.
  intros [Hs Hr]%reachable_Inv Hsink kept w'.
  assert (Hw' : ∀ level' now',
            emit (Some jobId) level' formatted now' w = pushLogs r kept w).
  { intros level' now'. by rewrite (emit_eq _ _ _ _ _ r). }
  split; [|split; [|split]].
  - destruct Hr as (_ & R2 & _). destruct (R2 jobId r Hsink) as (c & Hc & Hid & _).
    exists c. split; [done|]. split; [done|]. subst w'. rewrite Hw'. split.
    + unfold job_logs, get_job.
      by rewrite pushLogs_heap_lookup, decide_True, Hc.
    + intros l Hl. destruct Hs as [H1 H2]. destruct (H1 r c Hc) as [_ Hm].
      destruct (Hm l Hl) as (s & Hsl & _). exists s. split; [done|].
      rewrite pushLogs_subs_lookup by (by split).
      by rewrite (job_listeners_Some _ _ _ Hc), decide_True, Hsl.
  - intros level' now'. subst w'. by rewrite !Hw'.
  - done.
  - intros w0 id level' formatted' now' Hnone. unfold emit. by rewrite Hnone.
Qed.

End Emit.

(** C7 as stated fails: what the job's log holds after a log call is the
    bare text; no [{level, message, timestamp}] entry can be read back from
    it, since calls that differ in level and timestamp append the same. *)
Lemma emit_stores_no_entry_counterexample :
  let w := run None init [PostStart (mkBody (Some "a@b.c") (Some "pw")) "j"] in
  job_logs 0 (emit (Some "j") "info" "hello" "10:00:00" w)
  = ["Job started."; "hello"]
  ∧ ¬ ∃ entry_of : string → Logger.LogEntry,
        ∀ level now,
          entry_of <$> drop 1 (job_logs 0 (emit (Some "j") level "hello" now w))
          = [Logger.mkLogEntry level "hello" now].
Proof.
  split; [reflexivity|]. intros [entry_of H].
  pose proof (H "info" "10:00:00") as H1.
  pose proof (H "error" "23:59:59") as H2.
  vm_compute in H1, H2. congruence.
Qed.

(* ===================================================================== *)
(** ** C8: a job id that is already registered *)
(* ===================================================================== *)

Section Duplicate.

Context (env : option string).

(** C8, as the code has it. The start handler makes no check for a
    duplicate id: a request that passes the capacity and credential checks
    and whose generated id is already registered is answered 202 with that
    id; the registry entry and the log sink of the id are rebound to a new
    running job object whose log holds 'Job started.'; every earlier job
    object, the one registered under the id before included, is left as it
    was. *)
Theorem start_rebinds_duplicate_id (w : World) (body : Body) (uuid : string)
    (r0 : nat) :
  reachable env w → jobs w !! uuid = Some r0 →
  Js.lt (Js.ofNat (size (runningJobs w))) (ceiling env) →
  Js.truthy (email body) = true → Js.truthy (password body) = true →
  let answer := step env w (PostStart body uuid) in
  let r := length (heap w) in
  answer.2 = Started uuid ∧ http_status answer.2 = 202
  ∧ r0 ≠ r
  ∧ jobs answer.1 !! uuid = Some r
  ∧ logSinks answer.1 !! uuid = Some r
  ∧ heap answer.1 !! r
    = Some {| job := {| job_id := uuid; status := running;
                        logs := ["Job started."]; listeners := [];
                        aborted := false |};
              promise := Pending |}
  ∧ (∀ r', r' < r → heap answer.1 !! r' = heap w !! r').
Proof.
  intros [Hs Hr]%reachable_Inv Hid Hroom He Hp answer r. subst answer.
  cbn [step].
  destruct (start_cases env body uuid w)
    as [[_ Hfull]|[[_ (_ & Hcred)]|[-> _]]].
  { by apply ceiling_full_not_free in Hfull. }
  { by rewrite He, Hp in Hcred. }
  cbn [fst snd]. split; [done|]. split; [done|]. split.
  { destruct Hr as (R1 & _). destruct (R1 uuid r0 Hid) as (c & Hc & _).
    apply lookup_lt_Some in Hc. subst r. lia. }
  destruct (pushLog_fields (length (heap w)) "Job started." (allocated uuid w))
    as (-> & _ & ->).
  cbn [allocated jobs logSinks]. rewrite !lookup_insert_eq.
  split; [done|]. split; [done|]. split.
  - rewrite pushLog_heap_lookup, decide_True by done.
    cbn [allocated heap]. by rewrite list_lookup_middle.
  - intros r' Hlt. rewrite pushLog_heap_lookup, decide_False by (subst r; lia).
    cbn [allocated heap]. by rewrite lookup_app_l.
Qed.

End Duplicate.

(** C8 as stated fails: a second start with the id of a registered job is
    not refused; it is answered with that id like any other start, a second
    job runs, and the registry entry of the id then names the new job
    object. *)
Lemma duplicate_id_counterexample :
  let body := mkBody (Some "a@b.c") (Some "pw") in
  let w := run None init [PostStart body "x"] in
  let answer := step None w (PostStart body "x") in
  jobs w !! "x" = Some 0
  ∧ ¬ ((∀ id, answer.2 ≠ Started id) ∧ jobs answer.1 !! "x" = jobs w !! "x")
  ∧ answer.2 = Started "x"
  ∧ jobs answer.1 !! "x" = Some 1
  ∧ running_count answer.1 = 2.
Proof.
  split; [vm_compute; reflexivity|]. split.
  - intros [Hrefused _]. apply (Hrefused "x"). vm_compute. reflexivity.
  - vm_compute. done.
Qed.

(* ===================================================================== *)
(** ** C4: polling with a cursor *)
(* ===================================================================== *)

Lemma GET_logs_forwards {P : Type} (url id : string) (offset : option string)
    (href : string → option string → string)
    (fetch : string → option (P * nat)) (payload : P) (code : nat) :
  Js.isEmpty url = false →
  fetch (href (url +:+ "/jobs/" +:+ id +:+ "/logs")
              (if Js.truthy offset then offset else None))
  = Some (payload, code) →
  GET_logs (Some url) true id offset href fetch = RouteForward payload code.
Proof.
  intros Hu Hf. unfold GET_logs. cbn [Js.truthy]. rewrite Hu. cbn [negb].
  change (default "" (Some url)) with url. by rewrite Hf.
Qed.

Section Polling.

Context (env : option string).

Lemma fresh_uuids_app w evs1 evs2 :
  fresh_uuids env w (evs1 ++ evs2) →
  fresh_uuids env w evs1 ∧ fresh_uuids env (run env w evs1) evs2.
Proof.
  revert w. induction evs1 as [|e evs1 IH]; intros w; [done|].
  simpl. intros [He Hrest]. destruct (IH _ Hrest) as [H1 H2]. done.
Qed.

(** Resuming from the returned cursor, the lines seen so far plus the lines
    of the coming answers make up the log at the last poll. *)
Lemma resuming_client_from id r rounds :
  ∀ w offset c,
    InvStream w → InvReg (ceiling env) w →
    fresh_uuids env w (concat rounds) →
    jobs w !! id = Some r → heap w !! r = Some c →
    offset ≤ length (logs (job c)) →
    take offset (logs (job c)) ++ resuming_client env id offset w rounds
    = job_logs r (run env w (concat rounds)).
Proof.
  induction rounds as [|evs rounds IH]; intros w offset c Hs Hr Hfresh Hid Hc Hle.
  - simpl. unfold pollLogs, get_job. rewrite Hid, Hc. simpl.
    rewrite take_drop. by rewrite (job_logs_Some _ _ _ Hc).
  - cbn [resuming_client concat]. unfold pollLogs, get_job. rewrite Hid, Hc.
    cbn [fmap option_fmap option_map lines nextOffset].
    apply fresh_uuids_app in Hfresh as [Hf1 Hf2].
    destruct (run_Inv env evs w Hs Hr) as [Hs1 Hr1].
    destruct (run_evolves env evs w r c Hs Hr Hc) as (c1 & Hc1 & E).
    destruct E as (_ & [k Hk] & _).
    rewrite run_app.
    rewrite <- (IH (run env w evs) (length (logs (job c))) c1); try done.
    + rewrite Hk, take_app_length, app_assoc, take_drop. done.
    + by apply run_jobs_fresh.
    + rewrite Hk, length_app. lia.
Qed.

(** What the dashboard shows before a poll: the lines up to its cursor
    while its timer is set, some prefix of the log once it has stopped. *)
Definition before_poll (shown : list string) (st : Dashboard.State)
    (log : list string) : Prop :=
  ∃ seen, Dashboard.logs st = shown ++ seen ∧ seen `prefix_of` log
          ∧ (Dashboard.pollTimer st = true →
               seen = take (Dashboard.offsetRef st) log
               ∧ Dashboard.offsetRef st ≤ length log)
          ∧ Dashboard.streamStatus st ≠ Dashboard.error.

(** What it shows after a poll: the whole log while its timer is set. *)
Definition after_poll (shown : list string) (st : Dashboard.State)
    (log : list string) : Prop :=
  ∃ seen, Dashboard.logs st = shown ++ seen ∧ seen `prefix_of` log
          ∧ (Dashboard.pollTimer st = true →
               seen = log ∧ Dashboard.offsetRef st = length seen)
          ∧ Dashboard.streamStatus st ≠ Dashboard.error.

Lemma dashboard_poll shown st w id r c :
  jobs w !! id = Some r → heap w !! r = Some c →
  before_poll shown st (logs (job c)) →
  after_poll shown
    (if Dashboard.pollTimer st
     then Dashboard.pollLogs (worker_reply id (Dashboard.offsetRef st) w) st
     else st)
    (logs (job c)).
Proof.
  intros Hid Hc (seen & Hlogs & Hpre & Hon & Hst).
  destruct (Dashboard.pollTimer st) eqn:Ht.
  2:{ exists seen. rewrite Ht. by repeat split. }
  destruct (Hon eq_refl) as [-> Hle].
  unfold worker_reply, pollLogs, get_job. rewrite Hid, Hc.
  cbn [fmap option_fmap option_map lines nextOffset poll_status].
  unfold Dashboard.pollLogs.
  cbn [Dashboard.data_lines Dashboard.data_nextOffset Dashboard.data_status].
  set (L := logs (job c)) in *. set (o := Dashboard.offsetRef st) in *.
  assert (Hbatch : match drop o L with
                   | line :: lines => line :: lines
                   | [] => []
                   end = drop o L) by (by destruct (drop o L)).
  rewrite Hbatch.
  assert (Hall : Dashboard.logs st ++ drop o L = shown ++ L)
    by (by rewrite Hlogs, <- app_assoc, take_drop).
  destruct (existsb _ (drop o L)).
  { exists L. cbn. by repeat split. }
  destruct (String.eqb (status_name (status (job c))) "running").
  - exists L. cbn. rewrite Ht. by repeat split.
  - exists L. cbn. by repeat split.
Qed.

Lemma after_before shown st log log' :
  log `prefix_of` log' → after_poll shown st log → before_poll shown st log'.
Proof.
  intros [k ->] (seen & Hlogs & Hpre & Hon & Hst).
  exists seen. split; [done|]. split; [by etrans; [|apply prefix_app_r]|].
  split; [|done]. intros Ht. destruct (Hon Ht) as [-> ->].
  rewrite take_app_length, length_app. split; [done|lia].
Qed.

(** The dashboard's polls: what they add to the log shown is at every
    moment a prefix of the job's log, and the whole of it as long as the
    timer is set. *)
Lemma dashboard_polls_from id r shown rounds :
  ∀ w st c,
    InvStream w → InvReg (ceiling env) w →
    fresh_uuids env w (concat rounds) →
    jobs w !! id = Some r → heap w !! r = Some c →
    before_poll shown st (logs (job c)) →
    after_poll shown (dashboard_polls env (worker_reply id) st w rounds)
               (job_logs r (run env w (concat rounds))).
Proof.
  induction rounds as [|evs rounds IH]; intros w st c Hs Hr Hfresh Hid Hc Hb.
  - cbn [dashboard_polls concat]. change (run env w []) with w.
    rewrite (job_logs_Some _ _ _ Hc).
    by apply (dashboard_poll shown st w id r c).
  - cbn [dashboard_polls concat].
    apply fresh_uuids_app in Hfresh as [Hf1 Hf2].
    destruct (run_Inv env evs w Hs Hr) as [Hs1 Hr1].
    destruct (run_evolves env evs w r c Hs Hr Hc) as (c1 & Hc1 & E).
    destruct E as (_ & Hk & _).
    rewrite run_app. apply (IH _ _ c1); try done.
    + by apply run_jobs_fresh.
    + eapply after_before; [exact Hk|].
      by apply (dashboard_poll shown st w id r c).
Qed.

(** C4. With the poll handler as the spec describes it: an unknown id is
    answered NotFound; for a known job and an offset that does not exceed
    the number of buffered lines, the answer holds exactly the lines from
    position [offset] on, the number of buffered lines as [nextOffset], and
    the job's current status; and a client that starts at 0 and always
    resumes from the returned [nextOffset] has, after any number of polls
    with any events in between, collected exactly the job's log as it is at
    the last poll: every line once, in order (job ids are assumed not to be
    reused between the polls).  The dashboard follows that protocol until it
    stops polling (after a batch with 'Termination requested.' or a status
    other than running): what its polls have added to the log it shows is
    always a prefix of what the resuming client collects, and all of it as
    long as its timer is set.  The web route in front of the worker hands
    the payload and the status code of the worker's answer on unchanged. *)
Theorem poll_cursor_sees_every_line_once (w : World) (id : string)
    (rounds : list (list Event)) :
  reachable env w → fresh_uuids env w (concat rounds) →
  (jobs w !! id = None → ∀ offset, pollLogs id offset w = None)
  ∧ (∀ r, jobs w !! id = Some r →
       (∀ offset, offset ≤ length (job_logs r w) →
          ∃ st, job_status r w = Some st ∧
                pollLogs id offset w
                = Some {| lines := drop offset (job_logs r w);
                          nextOffset := length (job_logs r w);
                          poll_status := st |})
       ∧ resuming_client env id 0 w rounds
         = job_logs r (run env w (concat rounds))
       ∧ ∀ shown,
           let st := dashboard_polls env (worker_reply id)
                                     (Dashboard.started shown) w rounds in
           ∃ seen, Dashboard.logs st = shown ++ seen
                   ∧ seen `prefix_of` resuming_client env id 0 w rounds
                   ∧ (Dashboard.pollTimer st = true →
                        seen = resuming_client env id 0 w rounds
                        ∧ Dashboard.offsetRef st = length seen)
                   ∧ Dashboard.streamStatus st ≠ Dashboard.error)
  ∧ (∀ (P : Type) url offset href (fetch : string → option (P * nat))
       payload code,
       Js.isEmpty url = false →
       fetch (href (url +:+ "/jobs/" +:+ id +:+ "/logs")
                   (if Js.truthy offset then offset else None))
       = Some (payload, code) →
       GET_logs (Some url) true id offset href fetch
       = RouteForward payload code).
Proof.
  intros [Hs Hr]%reachable_Inv Hfresh.
  split; [|split; [|intros; by apply GET_logs_forwards]].
  - intros Hid offset. unfold pollLogs. by rewrite Hid.
  - intros r Hid. pose proof Hr as (R1 & _).
    destruct (R1 id r Hid) as (c & Hc & _).
    assert (Hclient : resuming_client env id 0 w rounds
                      = job_logs r (run env w (concat rounds))).
    { pose proof (resuming_client_from id r rounds w 0 c Hs Hr Hfresh Hid Hc)
        as H.
      rewrite take_0 in H. apply H. lia. }
    split; [|split; [exact Hclient|]].
    + intros offset _. exists (status (job c)).
      unfold job_status, pollLogs, job_logs, get_job. by rewrite Hid, Hc.
    + intros shown st. subst st. rewrite Hclient.
      apply (dashboard_polls_from id r shown rounds w _ c); try done.
      exists []. cbn. rewrite app_nil_r, take_0.
      repeat split; try done; [apply prefix_nil|lia].
Qed.

End Polling.

(** On the sample run the resuming client ends with the five lines of the
    log; the dashboard stops after the batch that holds
    'Termination requested.' and shows the first three. *)
Example dashboard_stops_after_termination_request :
  let w := run None init Sample.one_job in
  let rounds := [[PostEnd "j1"]; [Reject 0 "Job terminated by user"; Finally 0]] in
  let st := dashboard_polls None (worker_reply "j1") (Dashboard.started [])
                            w rounds in
  resuming_client None "j1" 0 w rounds = logs (job Sample.one_job_ended_cell)
  ∧ Dashboard.logs st
    = ["Job started."; "[10:00:00] INFO Job URL: x"; "Termination requested."]
  ∧ Dashboard.offsetRef st = 2
  ∧ Dashboard.pollTimer st = false
  ∧ Dashboard.streamStatus st = Dashboard.terminated.
Proof. vm_compute. by repeat split. Qed.

(* ===================================================================== *)
(** ** The theorems at sample runs *)
(* ===================================================================== *)

Lemma maxConcurrentJobs_at_least_one_witness :
  (Js.isNaN (Js.parseInt "many") = true
   ∨ Js.lt (Js.parseInt "many") (Js.Finite 1))
  ∧ maxConcurrentJobs (Some "many") = Js.Finite 1.
Proof.
  assert (H : Js.isNaN (Js.parseInt "many") = true
              ∨ Js.lt (Js.parseInt "many") (Js.Finite 1))
    by (left; reflexivity).
  split; [exact H|].
  exact (proj1 (proj2 (proj2 maxConcurrentJobs_at_least_one)) "many" H).
Defined.

Lemma admission_never_exceeds_ceiling_witness :
  fresh_uuids None init Sample.two_jobs
  ∧ Js.le (Js.ofNat (running_count (run None init Sample.two_jobs)))
          (ceiling None).
Proof.
  assert (H : fresh_uuids None init Sample.two_jobs)
    by (vm_compute; repeat split; reflexivity).
  split; [exact H|].
  exact (proj1 (admission_never_exceeds_ceiling None Sample.two_jobs H)).
Defined.

Lemma outcome_decides_final_status_witness :
  let w := run None init Sample.one_job in
  reachable None w ∧ heap w !! 0 = Some Sample.one_job_cell
  ∧ promise Sample.one_job_cell = Pending
  ∧ job_status 0 (run None (step None w (Reject 0 "boom")).1 [Finally 0])
    = Some failed.
Proof.
  intros w.
  assert (H1 : reachable None w) by (exists Sample.one_job; reflexivity).
  assert (H2 : heap w !! 0 = Some Sample.one_job_cell) by (vm_compute; reflexivity).
  assert (H3 : promise Sample.one_job_cell = Pending) by reflexivity.
  split; [exact H1|]. split; [exact H2|]. split; [exact H3|].
  destruct (outcome_decides_final_status None w 0 Sample.one_job_cell H1 H2 H3)
    as (_ & _ & _ & Hfailed & _).
  exact (Hfailed eq_refl "boom" [Finally 0]).
Defined.


Lemma poll_cursor_sees_every_line_once_witness :
  let w := run None init Sample.one_job in
  let rounds := [[PostEnd "j1"]; [Reject 0 "Job terminated by user"; Finally 0]] in
  reachable None w ∧ fresh_uuids None w (concat rounds)
  ∧ resuming_client None "j1" 0 w rounds
    = job_logs 0 (run None w (concat rounds)).
Proof.
  intros w rounds.
  assert (H1 : reachable None w) by (exists Sample.one_job; reflexivity).
  assert (H2 : fresh_uuids None w (concat rounds))
    by (vm_compute; repeat split; reflexivity).
  split; [exact H1|]. split; [exact H2|].
  destruct (poll_cursor_sees_every_line_once None w "j1" rounds H1 H2)
    as (_ & Hknown & _).
  exact (proj1 (proj2 (Hknown 0 ltac:(vm_compute; reflexivity)))).
Defined.

Lemma end_endpoint_witness :
  let w := run None init Sample.one_job in
  reachable None w
  ∧ (step None w (PostEnd "nobody")) = (w, NotFound)
  ∧ ∀ r, job_status r (step None w (PostEnd "j1")).1 = job_status r w.
Proof.
  intros w.
  assert (H1 : reachable None w) by (exists Sample.one_job; reflexivity).
  split; [exact H1|].
  destruct (end_endpoint None w "nobody" H1) as (Hunknown & _ & _).
  destruct (end_endpoint None w "j1" H1) as (_ & _ & Hstatus).
  split; [exact (Hunknown ltac:(vm_compute; reflexivity))|exact Hstatus].
Defined.


Lemma emit_appends_message_lines_witness :
  let w := run None init Sample.one_job in
  reachable None w ∧ logSinks w !! "j1" = Some 0
  ∧ ∀ level' now',
      emit (Some "j1") level' "two  " now' w
      = emit (Some "j1") "info" "two  " "10:00:01" w.
Proof.
  intros w.
  assert (H1 : reachable None w) by (exists Sample.one_job; reflexivity).
  assert (H2 : logSinks w !! "j1" = Some 0) by (vm_compute; reflexivity).
  split; [exact H1|]. split; [exact H2|].
  destruct (emit_appends_message_lines None w "j1" 0 "info" "two  " "10:00:01"
              H1 H2) as (_ & Hsame & _).
  exact Hsame.
Defined.

Lemma start_rebinds_duplicate_id_witness :
  let w := run None init Sample.one_job in
  reachable None w ∧ jobs w !! "j1" = Some 0
  ∧ Js.lt (Js.ofNat (size (runningJobs w))) (ceiling None)
  ∧ Js.truthy (email Sample.credentials) = true
  ∧ Js.truthy (password Sample.credentials) = true
  ∧ jobs (step None w (PostStart Sample.credentials "j1")).1 !! "j1" = Some 1.
Proof.
  intros w.
  assert (H1 : reachable None w) by (exists Sample.one_job; reflexivity).
  assert (H2 : jobs w !! "j1" = Some 0) by (vm_compute; reflexivity).
  assert (H3 : Js.lt (Js.ofNat (size (runningJobs w))) (ceiling None))
    by (vm_compute; reflexivity).
  assert (H4 : Js.truthy (email Sample.credentials) = true) by reflexivity.
  assert (H5 : Js.truthy (password Sample.credentials) = true) by reflexivity.
  split; [exact H1|]. split; [exact H2|]. split; [exact H3|].
  split; [exact H4|]. split; [exact H5|].
  destruct (start_rebinds_duplicate_id None w Sample.credentials "j1" 0
              H1 H2 H3 H4 H5) as (_ & _ & _ & Hjobs & _).
  exact Hjobs.
Defined.

Lemma status_event_says_terminated_witness :
  let w := run None init Sample.one_job in
  reachable None w ∧ heap w !! 0 = Some Sample.one_job_cell
  ∧ promise Sample.one_job_cell = Pending
  ∧ job_listeners 0 (step None w (Resolve 0)).1 = [].
Proof.
  intros w.
  assert (H1 : reachable None w) by (exists Sample.one_job; reflexivity).
  assert (H2 : heap w !! 0 = Some Sample.one_job_cell) by (vm_compute; reflexivity).
  assert (H3 : promise Sample.one_job_cell = Pending) by reflexivity.
  split; [exact H1|]. split; [exact H2|]. split; [exact H3|].
  exact (proj1 (status_event_says_terminated None w 0 Sample.one_job_cell
                  (Resolve 0) H1 H2 H3 (or_introl eq_refl))).
Defined.

(* ===================================================================== *)
(** ** Further properties of the worker *)
(* ===================================================================== *)

Section WorkerMore.

Context (env : option string).

Lemma job_listeners_allocated uuid w :
  job_listeners (length (heap w)) (allocated uuid w) = [].
Proof.
  unfold job_listeners, get_job. cbn [allocated heap].
  by rewrite list_lookup_middle.
Qed.

(** X1. Isolation of jobs.  An event leaves every job object other than the one
    it is addressed to exactly as it was (log, status, listener set, flag),
    and writes to no stream of another job. *)
Theorem event_touches_one_job (w : World) (e : Event) :
  reachable env w →
  (∀ r c, heap w !! r = Some c → touched w e ≠ Some r →
          heap (step env w e).1 !! r = Some c)
  ∧ (∀ l s, subs w !! l = Some s → touched w e ≠ Some (owner s) →
            subs (step env w e).1 !! l = Some s).
Proof.
  intros [Hs Hr]%reachable_Inv. pose proof Hr as (R1 & R2 & _).
  assert (Hmember : ∀ r0 l s, l ∈ job_listeners r0 w → subs w !! l = Some s →
                              owner s = r0).
  { intros r0 l s Hin Hl. destruct (heap w !! r0) as [c0|] eqn:Hc0.
    - rewrite (job_listeners_Some _ _ _ Hc0) in Hin.
      by destruct (InvStream_owner w r0 c0 l s Hs Hc0 Hin Hl).
    - rewrite (job_listeners_None _ _ Hc0) in Hin. by apply elem_of_nil in Hin. }
  destruct e as [body uuid|id|id|l0|r0|r0 reason|r0|ctx lv fm now];
    cbn [step fst touched].
  - destruct (start_cases env body uuid w) as [[-> _]|[[-> _]|[-> _]]];
      cbn [fst]; [done..|]. split.
    + intros r c Hc _. rewrite pushLog_heap_lookup, decide_False
        by (apply lookup_lt_Some in Hc; lia).
      cbn [allocated heap]. by rewrite lookup_app_l by (by eapply lookup_lt_Some).
    + intros l s Hl _.
      rewrite pushLog_subs_lookup by (by apply InvStream_allocated).
      rewrite job_listeners_allocated.
      by rewrite decide_False by apply not_elem_of_nil.
  - destruct (jobs w !! id) as [r0|] eqn:Hid;
      [|unfold stream; by rewrite Hid].
    destruct (R1 id r0 Hid) as (c0 & Hc0 & _).
    rewrite (stream_known id r0 c0) by done.
    cbn [fst update_job set_heap set_subs heap subs]. split.
    + intros r c Hc Hne. rewrite list_lookup_alter_ne; [done|congruence].
    + intros l s Hl _. by rewrite lookup_app_l by (by eapply lookup_lt_Some).
  - unfold endJob. destruct (jobs w !! id) as [r0|]; [|done].
    destruct (get_job r0 w) as [j|]; [|done].
    case_bool_decide; [done|]. cbn [fst]. split.
    + intros r c Hc Hne. rewrite pushLog_heap_lookup, decide_False by congruence.
      cbn [update_job set_heap heap].
      rewrite list_lookup_alter_ne; [done|congruence].
    + intros l s Hl Hne.
      rewrite pushLog_subs_lookup by (by apply InvStream_alter).
      rewrite decide_False; [done|]. intros Hin. apply Hne. f_equal.
      symmetry. apply (Hmember r0 l s); [|done].
      revert Hin. unfold job_listeners, get_job. cbn [update_job set_heap heap].
      rewrite list_lookup_alter_eq. by destruct (heap w !! r0).
  - unfold reqClose. destruct (subs w !! l0) as [s0|]; [|done].
    destruct (ended s0); [done|]. cbn [update_job set_heap heap subs fmap option_fmap option_map].
    split; [|done].
    intros r c Hc Hne. rewrite list_lookup_alter_ne; [done|congruence].
  - rewrite onFulfilled_eq. destruct (heap w !! r0) as [c0|]; [|done].
    case_decide; [|done]. split.
    + intros r c Hc Hne. by rewrite settle_heap_lookup, decide_False by congruence.
    + intros l s Hl Hne. rewrite settle_subs_lookup by done.
      rewrite decide_False; [done|]. intros Hin. apply Hne. f_equal.
      symmetry. by apply (Hmember r0 l s).
  - rewrite onRejected_eq. destruct (heap w !! r0) as [c0|]; [|done].
    case_decide; [|done]. split.
    + intros r c Hc Hne. by rewrite settle_heap_lookup, decide_False by congruence.
    + intros l s Hl Hne. rewrite settle_subs_lookup by done.
      rewrite decide_False; [done|]. intros Hin. apply Hne. f_equal.
      symmetry. by apply (Hmember r0 l s).
  - rewrite onFinally_eq. destruct (heap w !! r0) as [c0|]; [|done].
    case_decide; [|done]. cbn [set_promise set_heap heap subs]. split; [|done].
    intros r c Hc Hne. rewrite list_lookup_alter_ne; [done|congruence].
  - destruct ctx as [jobId|]; [|done]. cbn [mbind option_bind].
    destruct (logSinks w !! jobId) as [sink|] eqn:Hk;
      [|unfold emit; by rewrite Hk].
    rewrite (emit_eq _ _ _ _ _ sink) by done. split.
    + intros r c Hc Hne. by rewrite pushLogs_heap_lookup, decide_False by congruence.
    + intros l s Hl Hne. rewrite pushLogs_subs_lookup by done.
      rewrite decide_False; [done|]. intros Hin. apply Hne. f_equal.
      symmetry. by apply (Hmember sink l s).
Qed.

(** X2. A job record is never removed and only grows: whatever happens later,
    the job object is still there under the same id, its earlier log is a
    prefix of its later log, a raised cancellation flag stays raised, and a
    status other than [running] is kept. *)
Theorem job_record_only_grows (w : World) (evs : list Event) (r : nat)
    (c : Cell) :
  reachable env w → heap w !! r = Some c →
  ∃ c', heap (run env w evs) !! r = Some c'
        ∧ job_id (job c') = job_id (job c)
        ∧ logs (job c) `prefix_of` logs (job c')
        ∧ (aborted (job c) = true → aborted (job c') = true)
        ∧ (status (job c) ≠ running → status (job c') = status (job c)).
Proof.
  intros [Hs Hr]%reachable_Inv Hc.
  destruct (run_evolves env evs w r c Hs Hr Hc) as (c' & Hc' & E).
  destruct E as (Hid & Hpre & Hab & Hst & _). exists c'.
  split; [done|]. split; [done|]. split; [done|]. split; [done|].
  intros Hrun. apply Hst. destruct Hr as (_ & _ & R3 & _).
  intros Hp. by apply (R3 r c Hc) in Hp.
Qed.

(** The only event that creates a job object is an accepted start, and the
    object it creates is the started one under the generated id. *)
Lemma step_heap_new w e r c' :
  InvStream w → InvReg (ceiling env) w →
  heap w !! r = None → heap (step env w e).1 !! r = Some c' →
  c' = Sample.started_cell (job_id (job c')).
Proof.
  intros Hs Hr Hnone Hc'. pose proof Hr as (R1 & _). revert Hc'.
  destruct e as [body uuid|id|id|l0|r0|r0 reason|r0|ctx lv fm now];
    cbn [step fst].
  - destruct (start_cases env body uuid w) as [[-> _]|[[-> _]|[-> _]]];
      cbn [fst]; [congruence..|].
    rewrite pushLog_heap_lookup. cbn [allocated heap]. case_decide as Hr0.
    + subst r. rewrite list_lookup_middle by done. by intros [= <-].
    + intros Hc'. apply lookup_snoc_Some in Hc' as [[_ Hc']|[-> _]]; congruence.
  - destruct (jobs w !! id) as [r0|] eqn:Hid;
      [|unfold stream; rewrite Hid; cbn [fst]; congruence].
    destruct (R1 id r0 Hid) as (c0 & Hc0 & _).
    rewrite (stream_known id r0 c0) by done.
    cbn [fst update_job set_heap set_subs heap]. rewrite list_lookup_alter.
    case_decide; [subst r0|]; congruence.
  - unfold endJob. destruct (jobs w !! id) as [r0|]; [|cbn [fst]; congruence].
    destruct (get_job r0 w) as [j|]; [|cbn [fst]; congruence].
    case_bool_decide; [cbn [fst]; congruence|]. cbn [fst].
    rewrite pushLog_heap_lookup. cbn [update_job set_heap heap].
    rewrite list_lookup_alter.
    destruct (decide (r = r0)) as [->|Hne].
    + rewrite !decide_True by done. by rewrite Hnone.
    + rewrite !decide_False by done. congruence.
  - unfold reqClose. destruct (subs w !! l0) as [s0|]; [|congruence].
    destruct (ended s0); [congruence|]. cbn [update_job set_heap heap].
    rewrite list_lookup_alter.
    case_decide as Ho; [rewrite Ho, Hnone; done|congruence].
  - rewrite onFulfilled_eq. destruct (heap w !! r0) as [c0|] eqn:Hc0; [|congruence].
    case_decide; [|congruence]. rewrite settle_heap_lookup by done.
    case_decide; [subst r0|]; congruence.
  - rewrite onRejected_eq. destruct (heap w !! r0) as [c0|] eqn:Hc0; [|congruence].
    case_decide; [|congruence]. rewrite settle_heap_lookup by done.
    case_decide; [subst r0|]; congruence.
  - rewrite onFinally_eq. destruct (heap w !! r0) as [c0|] eqn:Hc0; [|congruence].
    case_decide; [|congruence]. cbn [set_promise set_heap heap].
    rewrite list_lookup_alter. case_decide; [subst r0|]; congruence.
  - destruct ctx as [jobId|]; [|cbn [emit]; congruence].
    destruct (logSinks w !! jobId) as [sink|] eqn:Hk;
      [|unfold emit; rewrite Hk; congruence].
    rewrite (emit_eq _ _ _ _ _ sink) by done. rewrite pushLogs_heap_lookup.
    case_decide; [subst sink; by rewrite Hnone|congruence].
Qed.

(** X3. Every job's log begins with the line 'Job started.', at every moment
    of every run. *)
Theorem every_log_begins_with_job_started (w : World) (r : nat) (c : Cell) :
  reachable env w → heap w !! r = Some c →
  ∃ rest, logs (job c) = "Job started." :: rest.
Proof.
  intros [evs ->]. revert r c.
  induction evs as [|e evs IH] using rev_ind; intros r c Hc.
  { simpl in Hc. by rewrite lookup_nil in Hc. }
  rewrite run_snoc in Hc.
  destruct (run_Inv env evs init init_InvStream (init_InvReg env)) as [Hs Hr].
  destruct (heap (run env init evs) !! r) as [c0|] eqn:Hc0.
  - destruct (IH r c0 Hc0) as [rest Hrest].
    destruct (step_evolves env _ e r c0 Hs Hr Hc0) as (c1 & Hc1 & E).
    assert (c1 = c) as -> by congruence.
    destruct E as (_ & [k Hk] & _). rewrite Hk, Hrest. by eexists.
  - rewrite (step_heap_new _ e r c Hs Hr Hc0 Hc). by eexists.
Qed.

(** X4. Terminal idempotence of the end endpoint.  Once the task of a job has
    settled, every end request for it is answered Conflict (409) with the
    job's final status and changes nothing, however often it is repeated and
    whatever happens in between. *)
Theorem end_after_settlement_is_conflict (w : World) (id : string) (r : nat)
    (c : Cell) (evs : list Event) :
  reachable env w → jobs w !! id = Some r → heap w !! r = Some c →
  promise c ≠ Pending → fresh_uuids env w evs →
  let w' := run env w evs in
  step env w' (PostEnd id) = (w', Conflict (status (job c))).
Proof.
  intros Hreach Hid Hc Hp Hfresh w'.
  pose proof Hreach as [Hs Hr]%reachable_Inv.
  destruct (run_Inv env evs w Hs Hr) as [Hs' Hr'].
  pose proof (run_jobs_fresh env evs w id r Hs Hr Hfresh Hid) as Hid'.
  destruct (run_evolves env evs w r c Hs Hr Hc) as (c' & Hc' & E).
  destruct E as (_ & _ & _ & Hst & _). destruct (Hst Hp) as [Hsame Hp'].
  fold w' in Hid', Hc', Hr'. cbn [step]. unfold endJob, get_job.
  rewrite Hid', Hc'. simpl. rewrite bool_decide_eq_true_2; [by rewrite Hsame|].
  intros Hrun. destruct Hr' as (_ & _ & R3 & _).
  by apply (R3 r c' Hc') in Hrun.
Qed.

(** X5. Repeated end requests on a job that keeps running: each one is accepted
    and pushes one more 'Termination requested.' line; status and listener
    set stay as they are and the cancellation flag is raised. *)
Theorem repeated_end_requests (w : World) (id : string) (r : nat) (c : Cell)
    (n : nat) :
  reachable env w → jobs w !! id = Some r → heap w !! r = Some c →
  status (job c) = running →
  let w' := run env w (replicate (S n) (PostEnd id)) in
  heap w' !! r
  = Some {| job := {| job_id := job_id (job c); status := running;
                      logs := logs (job c)
                              ++ replicate (S n) "Termination requested.";
                      listeners := listeners (job c);
                      aborted := true |};
            promise := promise c |}
  ∧ (step env w' (PostEnd id)).2 = Accepted.
Proof.
  intros Hreach Hid Hc Hrun. revert w c Hreach Hid Hc Hrun.
  assert (Hone : ∀ w c, reachable env w → jobs w !! id = Some r →
            heap w !! r = Some c → status (job c) = running →
            (step env w (PostEnd id)).2 = Accepted
            ∧ jobs (step env w (PostEnd id)).1 !! id = Some r
            ∧ heap (step env w (PostEnd id)).1 !! r
              = Some {| job := {| job_id := job_id (job c); status := running;
                                  logs := logs (job c) ++ ["Termination requested."];
                                  listeners := listeners (job c);
                                  aborted := true |};
                        promise := promise c |}).
  { intros w c Hreach Hid Hc Hrun. cbn [step]. unfold endJob, get_job.
    rewrite Hid, Hc. simpl.
    rewrite bool_decide_eq_false_2 by (by intros []). cbn [fst snd].
    split; [done|]. split; [by rewrite (proj1 (pushLog_fields _ _ _))|].
    rewrite pushLog_heap_lookup, decide_True by done.
    cbn [update_job set_heap heap]. rewrite list_lookup_alter_eq, Hc.
    simpl. unfold on_job, add_line, abort. simpl. by rewrite Hrun. }
  induction n as [|n IH]; intros w c Hreach Hid Hc Hrun w'.
  - subst w'. cbn [replicate run foldl].
    destruct (Hone w c Hreach Hid Hc Hrun) as (_ & Hid1 & Hc1).
    split; [done|].
    by apply (Hone _ _ (reachable_step env w _ Hreach) Hid1 Hc1).
  - subst w'.
    change (replicate (S (S n)) (PostEnd id))
      with (PostEnd id :: replicate (S n) (PostEnd id)).
    rewrite run_cons.
    destruct (Hone w c Hreach Hid Hc Hrun) as (_ & Hid1 & Hc1).
    destruct (IH _ _ (reachable_step env w _ Hreach) Hid1 Hc1 eq_refl)
      as [Hheap Hacc].
    split; [|done]. rewrite Hheap. simpl. do 3 f_equal.
    by rewrite <- app_assoc.
Qed.

(** X6. Order of the checks of the start handler.  At capacity the answer is
    the capacity error (429) even when the credentials are missing; with a
    free slot, an absent or empty email or password is answered 400; in both
    cases nothing is registered, reserved or logged. *)
Theorem start_checks_capacity_then_credentials (w : World) (body : Body)
    (uuid : string) :
  let answer := step env w (PostStart body uuid) in
  (Js.le (ceiling env) (Js.ofNat (size (runningJobs w))) →
     answer = (w, Capacity (ceiling env)) ∧ http_status answer.2 = 429)
  ∧ (Js.lt (Js.ofNat (size (runningJobs w))) (ceiling env) →
     email body = None ∨ email body = Some "" ∨
     password body = None ∨ password body = Some "" →
     answer = (w, MissingCredentials) ∧ http_status answer.2 = 400)
  ∧ (answer.1 ≠ w → ∃ id, answer.2 = Started id).
Proof.
  intros answer. subst answer. cbn [step].
  destruct (start_cases env body uuid w)
    as [[-> Hfull]|[[-> (Hroom & Hcred)]|[-> (Hroom & He & Hp)]]].
  - split; [done|]. split; [|done].
    intros Hroom. by apply ceiling_full_not_free in Hfull.
  - split; [intros Hfull; by apply ceiling_full_not_free in Hfull|].
    split; [done|done].
  - split; [intros Hfull; by apply ceiling_full_not_free in Hfull|].
    split; [|by eexists].
    intros _ [H|[H|[H|H]]]; rewrite H in *; done.
Qed.

End WorkerMore.

Section SlotsAndSinks.

Context (env : option string).

(** The four shapes of a step, as far as the registry tables and the cores
    of the job objects are concerned. *)
Lemma step_shape w e :
  InvStream w → InvReg (ceiling env) w →
  let w' := (step env w e).1 in
  (jobs w' = jobs w ∧ runningJobs w' = runningJobs w ∧ logSinks w' = logSinks w
   ∧ ∀ r, core <$> heap w' !! r = core <$> heap w !! r)
  ∨ (∃ body uuid, e = PostStart body uuid
       ∧ Js.lt (Js.ofNat (size (runningJobs w))) (ceiling env)
       ∧ w' = pushLog (length (heap w)) "Job started." (allocated uuid w))
  ∨ (∃ r st lines c, heap w !! r = Some c ∧ promise c = Pending
       ∧ w' = settle r st lines w)
  ∨ (∃ r c, heap w !! r = Some c ∧ promise c = Settled
       ∧ w' = set_promise r Finalized
                {| jobs := jobs w;
                   runningJobs := runningJobs w ∖ {[job_id (job c)]};
                   logSinks := delete (job_id (job c)) (logSinks w);
                   heap := heap w; subs := subs w |}).
Proof.
  intros Hs Hr w'. subst w'. pose proof Hr as (R1 & _).
  destruct e as [body uuid|id|id|l0|r0|r0 reason|r0|ctx lv fm now];
    cbn [step fst].
  - destruct (start_cases env body uuid w) as [[-> _]|[[-> _]|[-> (Hroom & _)]]];
      cbn [fst]; [by left..|].
    right. left. by exists body, uuid.
  - left. destruct (jobs w !! id) as [r0|] eqn:Hid;
      [|unfold stream; by rewrite Hid].
    destruct (R1 id r0 Hid) as (c0 & Hc0 & _).
    rewrite (stream_known id r0 c0) by done. cbn [fst].
    repeat split; try done. intros r. by rewrite (update_job_core r0 (attach _)).
  - left. unfold endJob. destruct (jobs w !! id) as [r0|]; [|done].
    destruct (get_job r0 w) as [j|]; [|done].
    case_bool_decide; [done|]. cbn [fst].
    destruct (pushLog_fields r0 "Termination requested." (update_job r0 abort w))
      as (-> & -> & ->).
    repeat split; try done. intros r.
    rewrite pushLog_core. by apply (update_job_core r0 abort).
  - left. unfold reqClose. destruct (subs w !! l0) as [s0|]; [|done].
    destruct (ended s0); [done|]. repeat split; try done.
    intros r. by apply (update_job_core _ (detach l0)).
  - rewrite onFulfilled_eq. destruct (heap w !! r0) as [c0|] eqn:Hc0; [|by left].
    case_decide; [|by left]. right. right. left. by eexists r0, _, _, c0.
  - rewrite onRejected_eq. destruct (heap w !! r0) as [c0|] eqn:Hc0; [|by left].
    case_decide; [|by left]. right. right. left. by eexists r0, _, _, c0.
  - rewrite onFinally_eq. destruct (heap w !! r0) as [c0|] eqn:Hc0; [|by left].
    case_decide; [|by left]. right. right. right. by exists r0, c0.
  - left. destruct ctx as [jobId|]; [|done].
    destruct (logSinks w !! jobId) as [sink|] eqn:Hk;
      [|unfold emit; by rewrite Hk].
    rewrite (emit_eq _ _ _ _ _ sink) by done.
    destruct (pushLogs_fields sink (Logger.emittedLines fm) w) as (-> & -> & ->).
    repeat split; try done. intros r. apply pushLogs_core.
Qed.

Lemma core_back w w' :
  (∀ r, core <$> heap w' !! r = core <$> heap w !! r) →
  ∀ r c', heap w' !! r = Some c' →
          ∃ c, heap w !! r = Some c ∧ job_id (job c) = job_id (job c')
               ∧ promise c = promise c'.
Proof.
  intros Hcore r c' Hc'. specialize (Hcore r). rewrite Hc' in Hcore.
  destruct (heap w !! r) as [c|]; [|done]. simpl in Hcore.
  assert (core c = core c') as (? & ? & ?)%core_eq by congruence. eauto.
Qed.

Lemma core_forth w w' :
  (∀ r, core <$> heap w' !! r = core <$> heap w !! r) →
  ∀ r c, heap w !! r = Some c →
         ∃ c', heap w' !! r = Some c' ∧ job_id (job c) = job_id (job c')
               ∧ promise c = promise c'.
Proof.
  intros Hcore r c Hc. specialize (Hcore r). rewrite Hc in Hcore.
  destruct (heap w' !! r) as [c'|]; [|done]. simpl in Hcore.
  assert (core c = core c') as (? & ? & ?)%core_eq by congruence. eauto.
Qed.

Lemma step_InvSink w e :
  InvStream w → InvReg (ceiling env) w → InvSink w →
  InvSink (step env w e).1.
Proof.
  intros Hs Hr [S3 S2]. pose proof Hr as (R1 & R2 & _).
  destruct (step_shape w e Hs Hr)
    as [(Hj & Hrun & Hk & Hcore)
       |[(body & uuid & -> & Hroom & Hw')
        |[(r & st & lines & c & Hc & Hp & Hw')|(r & c & Hc & Hp & Hw')]]].
  - unfold InvSink. rewrite Hj, Hrun, Hk. split; [done|].
    intros id Hin. destruct (S2 id Hin) as (r & c & Hid & Hc & Hp).
    destruct (core_forth _ _ Hcore r c Hc) as (c' & Hc' & _ & Hp').
    exists r, c'. split; [done|]. split; [done|congruence].
  - rewrite Hw'. unfold InvSink.
    destruct (pushLog_fields (length (heap w)) "Job started." (allocated uuid w))
      as (-> & -> & ->).
    cbn [allocated jobs runningJobs logSinks]. split.
    + intros id r Hid. apply lookup_insert_Some in Hid as [[<- <-]|[Hne Hid]].
      * by rewrite lookup_insert_eq.
      * rewrite lookup_insert_ne by done. by apply S3.
    + intros id Hin.
      destruct (decide (id = uuid)) as [->|Hne].
      * exists (length (heap w)), (Sample.started_cell uuid).
        rewrite lookup_insert_eq. split; [done|].
        rewrite pushLog_heap_lookup, decide_True by done.
        cbn [allocated heap]. by rewrite list_lookup_middle.
      * apply elem_of_union in Hin as [Hin%elem_of_singleton|Hin]; [done|].
        destruct (S2 id Hin) as (r & c & Hid & Hc & Hp). exists r, c.
        rewrite lookup_insert_ne by done. split; [done|]. split; [|done].
        rewrite pushLog_heap_lookup, decide_False
          by (apply lookup_lt_Some in Hc; lia).
        cbn [allocated heap]. by rewrite lookup_app_l by (by eapply lookup_lt_Some).
  - rewrite Hw'. unfold InvSink.
    destruct (settle_fields r st lines w Hs) as (-> & -> & ->).
    split; [done|]. intros id Hin.
    destruct (S2 id Hin) as (r' & c' & Hid & Hc' & Hp').
    destruct (decide (r' = r)) as [->|Hne].
    + exists r, (settled_cell st lines c). split; [done|].
      by rewrite settle_heap_lookup, decide_True, Hc.
    + exists r', c'. split; [done|].
      by rewrite settle_heap_lookup, decide_False.
  - rewrite Hw'. unfold InvSink.
    cbn [set_promise set_heap jobs runningJobs logSinks heap]. split.
    + intros id r' [_ Hid]%lookup_delete_Some. by apply S3.
    + intros id [Hin Hne]%elem_of_difference.
      destruct (S2 id Hin) as (r' & c' & Hid & Hc' & Hp').
      exists r', c'. split; [done|]. split; [|done].
      rewrite list_lookup_alter_ne; [done|]. intros <-.
      destruct (R1 id r Hid) as (c0 & Hc0 & Hi). apply Hne.
      apply elem_of_singleton. congruence.
Qed.

Lemma step_InvFreshSink w e :
  InvStream w → InvReg (ceiling env) w → InvFresh w →
  fresh_uuids env w [e] → InvFreshSink w →
  InvFreshSink (step env w e).1.
Proof.
  intros Hs Hr [F1 F2] [Hfresh _] S1.
  destruct (step_shape w e Hs Hr)
    as [(Hj & Hrun & Hk & Hcore)
       |[(body & uuid & -> & Hroom & Hw')
        |[(r & st & lines & c & Hc & Hp & Hw')|(r & c & Hc & Hp & Hw')]]].
  - unfold InvFreshSink. rewrite Hk. intros r c' Hc' Hp'.
    destruct (core_back _ _ Hcore r c' Hc') as (c & Hc & <- & Hp).
    apply (S1 r c Hc). congruence.
  - rewrite Hw'. unfold InvFreshSink.
    destruct (pushLog_fields (length (heap w)) "Job started." (allocated uuid w))
      as (_ & _ & ->).
    cbn [allocated logSinks]. intros r c' Hc' Hp'.
    rewrite pushLog_heap_lookup in Hc'. cbn [allocated heap] in Hc'.
    case_decide as Hr0.
    + subst r. rewrite list_lookup_middle in Hc' by done. simplify_eq/=.
      by rewrite lookup_insert_eq.
    + apply lookup_snoc_Some in Hc' as [[_ Hc']|[-> _]]; [|done].
      rewrite lookup_insert_ne; [by apply S1|].
      intros ->. rewrite (F1 r c' Hc') in Hfresh. done.
  - rewrite Hw'. unfold InvFreshSink.
    destruct (settle_fields r st lines w Hs) as (_ & _ & ->).
    intros r' c' Hc' Hp'. rewrite settle_heap_lookup in Hc' by done.
    case_decide as Hr0.
    + subst r'. rewrite Hc in Hc'. simplify_eq/=. apply (S1 r c Hc).
      by rewrite Hp.
    + by apply S1.
  - rewrite Hw'. unfold InvFreshSink.
    cbn [set_promise set_heap logSinks heap]. intros r' c' Hc' Hp'.
    rewrite list_lookup_alter in Hc'. case_decide as Hr0.
    + subst r'. rewrite Hc in Hc'. by simplify_eq/=.
    + rewrite lookup_delete_ne; [by apply S1|]. intros Heq.
      pose proof (F1 r c Hc) as E1. pose proof (F1 r' c' Hc') as E2.
      rewrite Heq in E1. congruence.
Qed.

Lemma run_InvSink evs :
  ∀ w, InvStream w → InvReg (ceiling env) w → InvSink w →
       InvSink (run env w evs).
Proof.
  induction evs as [|e evs IH]; intros w Hs Hr Hk; [done|].
  rewrite run_cons.
  apply IH; [by apply step_InvStream|by apply step_InvReg|by apply step_InvSink].
Qed.

Lemma run_InvFreshSink evs :
  ∀ w, InvStream w → InvReg (ceiling env) w → InvFresh w → InvFreshSink w →
       fresh_uuids env w evs → InvFreshSink (run env w evs).
Proof.
  induction evs as [|e evs IH]; intros w Hs Hr Hf Hk Hfresh; [done|].
  destruct Hfresh as [He Hrest]. rewrite run_cons.
  apply IH; [by apply step_InvStream|by apply step_InvReg| | |done].
  - apply step_InvFresh; [done|done|by split|done].
  - apply step_InvFreshSink; [done|done|done|by split|done].
Qed.

Lemma init_InvSink : InvSink init.
Proof.
  split.
  - intros id r H. simpl in H. by rewrite lookup_empty in H.
  - intros id H. simpl in H. by apply not_elem_of_empty in H.
Qed.

Lemma init_InvFreshSink : InvFreshSink init.
Proof. intros r c H. simpl in H. by rewrite lookup_nil in H. Qed.

End SlotsAndSinks.

Section SlotsAndSinksTheorems.

Context (env : option string).

Lemma fresh_run_invariants evs :
  fresh_uuids env init evs →
  let w := run env init evs in
  InvStream w ∧ InvReg (ceiling env) w ∧ InvFresh w ∧ InvSink w ∧ InvFreshSink w.
Proof.
  intros Hfresh w.
  destruct (run_Inv env evs init init_InvStream (init_InvReg env)) as [Hs Hr].
  split; [done|]. split; [done|]. split; [|split].
  - by apply run_InvFresh;
      [apply init_InvStream|apply init_InvReg|apply init_InvFresh|].
  - by apply run_InvSink; [apply init_InvStream|apply init_InvReg|apply init_InvSink].
  - by apply run_InvFreshSink;
      [apply init_InvStream|apply init_InvReg|apply init_InvFresh
      |apply init_InvFreshSink|].
Qed.

(** X7. Capacity release.  With job ids never reused, the [finally] callback of
    a settled job frees exactly one slot and removes the job's sink; a start
    request with credentials made right after it is accepted, also when the
    worker was at capacity before.  The [then] and [catch] callbacks free
    nothing: the slot stays reserved until [finally] runs. *)
Theorem finally_frees_exactly_one_slot (evs : list Event) (r : nat) (c : Cell) :
  fresh_uuids env init evs →
  let w := run env init evs in
  heap w !! r = Some c →
  (promise c = Settled →
     let w' := (step env w (Finally r)).1 in
     size (runningJobs w') + 1 = size (runningJobs w)
     ∧ (job_id (job c) ∉ runningJobs w')
     ∧ logSinks w' !! job_id (job c) = None
     ∧ ∀ body uuid,
         Js.truthy (email body) = true → Js.truthy (password body) = true →
         (step env w' (PostStart body uuid)).2 = Started uuid)
  ∧ (promise c = Pending →
       ∀ reason,
         runningJobs (step env w (Resolve r)).1 = runningJobs w
         ∧ runningJobs (step env w (Reject r reason)).1 = runningJobs w).
Proof.
  intros Hfresh w Hc.
  destruct (fresh_run_invariants evs Hfresh) as (Hs & Hr & [F1 F2] & _).
  fold w in Hs, Hr, F1, F2. split.
  - intros Hp w'. subst w'. cbn [step fst]. rewrite onFinally_eq, Hc.
    rewrite decide_True by done.
    cbn [set_promise set_heap runningJobs logSinks].
    assert (Hin : job_id (job c) ∈ runningJobs w)
      by (apply (F2 r c Hc); by rewrite Hp).
    assert (Hsize : size (runningJobs w ∖ {[job_id (job c)]}) + 1
                    = size (runningJobs w)).
    { assert (size (runningJobs w)
              = size ({[job_id (job c)]} ∪ runningJobs w ∖ {[job_id (job c)]}))
        as E by (by rewrite <- union_difference_singleton_L).
      rewrite size_union in E.
      - rewrite size_singleton in E. rewrite Nat.add_comm. symmetry. exact E.
      - apply disjoint_singleton_l. intros [_ Hne]%elem_of_difference.
        apply Hne. by apply elem_of_singleton. }
    split; [done|]. split; [|split].
    + intros [_ Hne]%elem_of_difference. apply Hne. by apply elem_of_singleton.
    + apply lookup_delete_eq.
    + intros body uuid He Hpw. unfold start.
      cbn [set_promise set_heap runningJobs]. destruct Hr as (_ & _ & _ & R4 & _).
      rewrite <- Hsize, Nat.add_1_r in R4. apply le_succ_lt, lt_not_geb in R4.
      by rewrite R4, He, Hpw.
  - intros Hp reason.
    rewrite (resolve_settle env w r c), (reject_settle env w r c) by done.
    split; by rewrite (proj1 (proj2 (settle_fields _ _ _ _ Hs))).
Qed.

(** X8. With job ids never reused, the running set holds exactly the ids of the
    jobs whose [finally] callback has not run yet. *)
Theorem running_set_is_the_unreleased_jobs (evs : list Event) (id : string) :
  fresh_uuids env init evs →
  let w := run env init evs in
  id ∈ runningJobs w
  ↔ ∃ r c, heap w !! r = Some c ∧ job_id (job c) = id ∧ promise c ≠ Finalized.
Proof.
  intros Hfresh w.
  destruct (fresh_run_invariants evs Hfresh)
    as (Hs & Hr & [F1 F2] & [S3 S2] & _).
  fold w in Hs, Hr, F1, F2, S3, S2. split.
  - intros Hin. destruct (S2 id Hin) as (r & c & Hid & Hc & Hp).
    exists r, c. split; [done|]. split; [|done].
    destruct Hr as (R1 & _). destruct (R1 id r Hid) as (c' & Hc' & Hi).
    congruence.
  - intros (r & c & Hc & <- & Hp). by apply (F2 r c).
Qed.

(** X9. Ambient routing.  With job ids never reused, a log call made under the
    id of a job whose [finally] callback has not run appends its lines to
    that job's log and leaves every other job object as it was; once the
    [finally] callback has run, log calls under that id change nothing. *)
Theorem log_calls_reach_their_own_job (evs : list Event) (r : nat) (c : Cell)
    (level formatted now : string) :
  fresh_uuids env init evs →
  let w := run env init evs in
  heap w !! r = Some c →
  let w' := emit (Some (job_id (job c))) level formatted now w in
  (promise c ≠ Finalized →
     job_logs r w' = logs (job c) ++ Logger.emittedLines formatted
     ∧ ∀ r', r' ≠ r → heap w' !! r' = heap w !! r')
  ∧ (promise c = Finalized → w' = w).
Proof.
  intros Hfresh w Hc w'.
  destruct (fresh_run_invariants evs Hfresh)
    as (Hs & Hr & [F1 F2] & [S3 S2] & S1).
  fold w in Hs, Hr, F1, F2, S3, S2, S1. split.
  - intros Hp. subst w'. rewrite (emit_eq _ _ _ _ _ r) by (by apply S1). split.
    + unfold job_logs, get_job.
      by rewrite pushLogs_heap_lookup, decide_True, Hc.
    + intros r' Hne. by rewrite pushLogs_heap_lookup, decide_False.
  - intros Hp. subst w'. unfold emit.
    destruct (logSinks w !! job_id (job c)) as [r'|] eqn:Hk; [|done].
    exfalso. pose proof (S3 _ _ Hk) as Hj. rewrite (F1 r c Hc) in Hj.
    simplify_eq. destruct Hr as (_ & R2 & _).
    destruct (R2 _ _ Hk) as (c' & Hc' & _ & Hnf). congruence.
Qed.

End SlotsAndSinksTheorems.

Section Listeners.

Context (env : option string).

Lemma job_listeners_settle r st lines w r' :
  InvStream w →
  job_listeners r' (settle r st lines w)
  = if decide (r' = r) then [] else job_listeners r' w.
Proof.
  intros Hs. unfold job_listeners, get_job. rewrite settle_heap_lookup by done.
  case_decide; [|done]. by destruct (heap w !! r').
Qed.

(** A listener that exists already never joins a listener set. *)
Lemma step_attached_back w e l s r :
  InvStream w → InvReg (ceiling env) w →
  subs w !! l = Some s →
  l ∈ job_listeners r (step env w e).1 → l ∈ job_listeners r w.
Proof.
  intros Hs Hr Hl. pose proof Hr as (R1 & _).
  destruct e as [body uuid|id|id|l0|r0|r0 reason|r0|ctx lv fm now];
    cbn [step fst].
  - destruct (start_cases env body uuid w) as [[-> _]|[[-> _]|[-> _]]];
      cbn [fst]; [done..|].
    rewrite pushLog_job_listeners. unfold job_listeners, get_job.
    cbn [allocated heap]. intros Hin.
    destruct (heap w !! r) as [c|] eqn:Hc.
    + by rewrite lookup_app_l, Hc in Hin by (by eapply lookup_lt_Some).
    + destruct ((heap w ++ [_]) !! r) as [c'|] eqn:Hc'; [|by apply elem_of_nil in Hin].
      apply lookup_snoc_Some in Hc' as [[_ Hc']|[_ <-]]; [congruence|].
      by apply elem_of_nil in Hin.
  - destruct (jobs w !! id) as [r0|] eqn:Hid;
      [|unfold stream; by rewrite Hid].
    destruct (R1 id r0 Hid) as (c0 & Hc0 & _).
    rewrite (stream_known id r0 c0) by done.
    unfold job_listeners, get_job. cbn [fst update_job set_heap set_subs heap].
    rewrite list_lookup_alter. case_decide; [subst r0|done].
    rewrite Hc0. simpl. intros [Hin| ->%list_elem_of_singleton]%elem_of_app;
      [done|]. apply lookup_lt_Some in Hl. lia.
  - unfold endJob. destruct (jobs w !! id) as [r0|]; [|done].
    destruct (get_job r0 w) as [j|]; [|done].
    case_bool_decide; [done|]. cbn [fst]. rewrite pushLog_job_listeners.
    unfold job_listeners, get_job. cbn [update_job set_heap heap].
    rewrite list_lookup_alter. case_decide; [subst r0|done].
    by destruct (heap w !! r).
  - unfold reqClose. destruct (subs w !! l0) as [s0|]; [|done].
    destruct (ended s0); [done|].
    unfold job_listeners, get_job. cbn [update_job set_heap heap].
    rewrite list_lookup_alter. case_decide as Ho; [rewrite Ho|done].
    destruct (heap w !! r) as [c|]; [|done]. simpl.
    by intros [_ Hin]%list_elem_of_filter.
  - rewrite onFulfilled_eq. destruct (heap w !! r0) as [c0|]; [|done].
    case_decide; [|done]. rewrite job_listeners_settle by done.
    case_decide; [|done]. by intros ?%elem_of_nil.
  - rewrite onRejected_eq. destruct (heap w !! r0) as [c0|]; [|done].
    case_decide; [|done]. rewrite job_listeners_settle by done.
    case_decide; [|done]. by intros ?%elem_of_nil.
  - rewrite onFinally_eq. destruct (heap w !! r0) as [c0|]; [|done].
    case_decide; [|done]. unfold job_listeners, get_job.
    cbn [set_promise set_heap heap]. rewrite list_lookup_alter.
    case_decide; [subst r0|done]. by destruct (heap w !! r).
  - destruct ctx as [jobId|]; [|done].
    destruct (logSinks w !! jobId) as [sink|] eqn:Hk;
      [|unfold emit; by rewrite Hk].
    rewrite (emit_eq _ _ _ _ _ sink) by done. by rewrite pushLogs_job_listeners.
Qed.

(** What a step can do to a response: nothing, write log events to it while
    it stays attached, or end it, which happens only to a listener attached
    to a job whose task is settling. *)
Lemma step_subs_cases w e l s :
  InvStream w → InvReg (ceiling env) w →
  subs w !! l = Some s →
  ∃ s', subs (step env w e).1 !! l = Some s' ∧ owner s' = owner s ∧
        (s' = s
         ∨ (l ∈ job_listeners (owner s) w ∧ ended s' = false)
         ∨ (l ∈ job_listeners (owner s) w ∧ ended s' = true ∧
            ∃ c, heap w !! owner s = Some c ∧ promise c = Pending)).
Proof.
  intros Hs Hr Hl. pose proof Hr as (R1 & _).
  assert (Hsame : ∃ s', subs w !! l = Some s' ∧ owner s' = owner s ∧
            (s' = s
             ∨ (l ∈ job_listeners (owner s) w ∧ ended s' = false)
             ∨ (l ∈ job_listeners (owner s) w ∧ ended s' = true ∧
                ∃ c, heap w !! owner s = Some c ∧ promise c = Pending)))
    by (exists s; auto).
  assert (Hmember : ∀ w0 r0, InvStream w0 → subs w0 !! l = Some s →
            l ∈ job_listeners r0 w0 → owner s = r0 ∧ ended s = false).
  { intros w0 r0 Hs0 Hl0 Hin. destruct (heap w0 !! r0) as [c0|] eqn:Hc0.
    - rewrite (job_listeners_Some _ _ _ Hc0) in Hin.
      by apply (InvStream_owner w0 r0 c0 l s).
    - rewrite (job_listeners_None _ _ Hc0) in Hin. by apply elem_of_nil in Hin. }
  assert (Hpush : ∀ r0 ls w0,
            InvStream w0 → subs w0 !! l = Some s →
            job_listeners (owner s) w0 = job_listeners (owner s) w →
            ∃ s', subs (pushLogs r0 ls w0) !! l = Some s' ∧ owner s' = owner s ∧
                  (s' = s
                   ∨ (l ∈ job_listeners (owner s) w ∧ ended s' = false)
                   ∨ (l ∈ job_listeners (owner s) w ∧ ended s' = true ∧
                      ∃ c, heap w !! owner s = Some c ∧ promise c = Pending))).
  { intros r0 ls w0 Hs0 Hl0 Hsamel. rewrite pushLogs_subs_lookup by done.
    case_decide as Hin; [|exists s; auto]. rewrite Hl0. simpl. eexists.
    split; [done|]. split; [done|]. right. left.
    destruct (Hmember w0 r0 Hs0 Hl0 Hin) as [<- He].
    split; [by rewrite <- Hsamel|done]. }
  assert (Hsettle : ∀ r0 st lines c0,
            heap w !! r0 = Some c0 → promise c0 = Pending →
            ∃ s', subs (settle r0 st lines w) !! l = Some s' ∧
                  owner s' = owner s ∧
                  (s' = s
                   ∨ (l ∈ job_listeners (owner s) w ∧ ended s' = false)
                   ∨ (l ∈ job_listeners (owner s) w ∧ ended s' = true ∧
                      ∃ c, heap w !! owner s = Some c ∧ promise c = Pending))).
  { intros r0 st lines c0 Hc0 Hp0. rewrite settle_subs_lookup by done.
    case_decide as Hin; [|exists s; auto]. rewrite Hl. simpl. eexists.
    split; [done|]. split; [done|]. right. right.
    destruct (Hmember w r0 Hs Hl Hin) as [<- He]. eauto. }
  destruct e as [body uuid|id|id|l0|r0|r0 reason|r0|ctx lv fm now];
    cbn [step fst].
  - destruct (start_cases env body uuid w) as [[-> _]|[[-> _]|[-> _]]];
      cbn [fst]; [done..|].
    apply (Hpush _ ["Job started."]); [by apply InvStream_allocated|done|].
    unfold job_listeners, get_job. cbn [allocated heap].
    destruct (Hs) as [_ H2]. destruct (H2 l s Hl) as (c & Hc & _).
    by rewrite lookup_app_l by (by eapply lookup_lt_Some).
  - destruct (jobs w !! id) as [r0|] eqn:Hid;
      [|unfold stream; by rewrite Hid].
    destruct (R1 id r0 Hid) as (c0 & Hc0 & _).
    rewrite (stream_known id r0 c0) by done. cbn [fst update_job set_heap subs].
    cbn [set_subs subs]. exists s.
    rewrite lookup_app_l by (by eapply lookup_lt_Some). auto.
  - unfold endJob. destruct (jobs w !! id) as [r0|]; [|done].
    destruct (get_job r0 w) as [j|]; [|done].
    case_bool_decide; [done|]. cbn [fst].
    apply (Hpush _ ["Termination requested."]); [by apply InvStream_alter|done|].
    unfold job_listeners, get_job. cbn [update_job set_heap heap].
    rewrite list_lookup_alter. case_decide as Ho; [rewrite Ho|done].
    by destruct (heap w !! owner s).
  - unfold reqClose. destruct (subs w !! l0) as [s0|]; [|done].
    destruct (ended s0); done.
  - rewrite onFulfilled_eq. destruct (heap w !! r0) as [c0|] eqn:Hc0; [|done].
    case_decide; [|done]. by apply (Hsettle _ _ _ c0).
  - rewrite onRejected_eq. destruct (heap w !! r0) as [c0|] eqn:Hc0; [|done].
    case_decide; [|done]. by apply (Hsettle _ _ _ c0).
  - rewrite onFinally_eq. destruct (heap w !! r0) as [c0|]; [|done].
    case_decide; done.
  - destruct ctx as [jobId|]; [|done].
    destruct (logSinks w !! jobId) as [sink|] eqn:Hk;
      [|unfold emit; by rewrite Hk].
    rewrite (emit_eq _ _ _ _ _ sink) by done. by apply Hpush.
Qed.

(** A detached open response stays as it is for ever. *)
Lemma run_detached_frozen evs :
  ∀ w l s,
    InvStream w → InvReg (ceiling env) w →
    subs w !! l = Some s → l ∉ job_listeners (owner s) w →
    subs (run env w evs) !! l = Some s.
Proof.
  induction evs as [|e evs IH]; intros w l s Hs Hr Hl Hout; [done|].
  rewrite run_cons.
  destruct (step_subs_cases w e l s Hs Hr Hl)
    as (s' & Hl' & Ho & [->|[[Hin _]|[Hin _]]]); [|done..].
  apply IH; [by apply step_InvStream|by apply step_InvReg|done|].
  intros Hin. apply Hout. by eapply step_attached_back.
Qed.

(** X10. Client disconnect.  When the request of an open stream closes, no job's
    log or status and no other listener is affected, and from then on the
    response is never written to and never ended by the worker. *)
Theorem closed_request_is_left_alone (w : World) (l : nat) (s : Listener) :
  reachable env w → subs w !! l = Some s → ended s = false →
  let w1 := (step env w (ReqClose l)).1 in
  (l ∉ job_listeners (owner s) w1)
  ∧ subs w1 = subs w
  ∧ (∀ r, job_logs r w1 = job_logs r w ∧ job_status r w1 = job_status r w)
  ∧ (∀ r l', l' ≠ l → l' ∈ job_listeners r w1 ↔ l' ∈ job_listeners r w)
  ∧ ∀ evs, subs (run env w1 evs) !! l = Some s.
Proof.
  intros Hreach Hl He w1. pose proof Hreach as [Hs Hr]%reachable_Inv.
  pose proof (reachable_step env w (ReqClose l) Hreach) as Hreach1.
  pose proof Hreach1 as [Hs1 Hr1]%reachable_Inv. fold w1 in Hs1, Hr1.
  assert (Hw1 : w1 = update_job (owner s) (detach l) w).
  { subst w1. cbn [step fst]. unfold reqClose. by rewrite Hl, He. }
  assert (Hout : l ∉ job_listeners (owner s) w1).
  { rewrite Hw1. unfold job_listeners, get_job. cbn [update_job set_heap heap].
    rewrite list_lookup_alter_eq.
    destruct (heap w !! owner s) as [c|]; [|apply not_elem_of_nil]. simpl.
    by intros [Hne _]%list_elem_of_filter. }
  split; [done|]. split; [by rewrite Hw1|]. split; [|split].
  - intros r. rewrite Hw1. unfold job_logs, job_status, get_job.
    cbn [update_job set_heap heap]. rewrite list_lookup_alter.
    case_decide as Ho; [rewrite Ho|done]. by destruct (heap w !! r).
  - intros r l' Hne. rewrite Hw1. unfold job_listeners, get_job.
    cbn [update_job set_heap heap]. rewrite list_lookup_alter.
    case_decide as Ho; [rewrite Ho|done].
    destruct (heap w !! r) as [c|]; [|done]. simpl.
    rewrite list_elem_of_filter. tauto.
  - intros evs. apply run_detached_frozen; try done. by rewrite Hw1.
Qed.

(** A response that is open and belongs to a job whose task has settled is
    never ended. *)
Lemma run_open_stays evs :
  ∀ w l s c,
    InvStream w → InvReg (ceiling env) w →
    subs w !! l = Some s → ended s = false →
    heap w !! owner s = Some c → promise c ≠ Pending →
    ∃ s', subs (run env w evs) !! l = Some s' ∧ owner s' = owner s
          ∧ ended s' = false.
Proof.
  induction evs as [|e evs IH]; intros w l s c Hs Hr Hl He Hc Hp.
  { by exists s. }
  rewrite run_cons.
  destruct (step_subs_cases w e l s Hs Hr Hl)
    as (s' & Hl' & Ho & Hcase).
  destruct (step_evolves env w e (owner s) c Hs Hr Hc) as (c' & Hc' & E).
  destruct E as (_ & _ & _ & Hst & _). destruct (Hst Hp) as [_ Hp'].
  assert (He' : ended s' = false).
  { destruct Hcase as [->|[[_ H]|(_ & _ & c0 & Hc0 & Hp0)]]; [done|done|].
    congruence. }
  destruct (IH (step env w e).1 l s' c') as (s'' & Hl'' & Ho'' & He'');
    [by apply step_InvStream|by apply step_InvReg|done|done|by rewrite Ho|done|].
  exists s''. split; [done|]. split; [congruence|done].
Qed.

(** X11. A late subscriber.  A stream opened for a job whose task has already
    settled is replayed the whole log, the closing lines included, but it is
    never sent the status event and never ended by the worker: while it is
    attached it holds exactly the job's lines, and it stays open whatever
    happens later. *)
Theorem late_subscriber_is_never_ended (w : World) (id : string) (r : nat)
    (c : Cell) (evs : list Event) :
  reachable env w → jobs w !! id = Some r → heap w !! r = Some c →
  promise c ≠ Pending →
  let l := length (subs w) in
  let w1 := (step env w (GetStream id)).1 in
  subs w1 !! l = Some {| owner := r; written := replay (logs (job c));
                         ended := false |}
  ∧ ∃ s, subs (run env w1 evs) !! l = Some s ∧ ended s = false
         ∧ (l ∈ job_listeners r (run env w1 evs) →
              written s = replay (job_logs r (run env w1 evs))).
Proof.
  intros Hreach Hid Hc Hp l w1. pose proof Hreach as [Hs Hr]%reachable_Inv.
  pose proof (reachable_step env w (GetStream id) Hreach) as Hreach1.
  pose proof Hreach1 as [Hs1 Hr1]%reachable_Inv. fold w1 in Hreach1, Hs1, Hr1.
  assert (Hw1 : w1 = update_job r (attach (length (subs w)))
                       (set_subs (λ ss, ss ++ [{| owner := r;
                                                  written := replay (logs (job c));
                                                  ended := false |}]) w)).
  { subst w1. cbn [step]. by rewrite (stream_known id r c). }
  assert (Hl1 : subs w1 !! l
                = Some {| owner := r; written := replay (logs (job c));
                          ended := false |}).
  { rewrite Hw1. subst l. cbn [update_job set_heap set_subs subs].
    by rewrite list_lookup_middle. }
  split; [done|].
  assert (Hc1 : heap w1 !! r = Some (on_job (attach (length (subs w))) c)).
  { rewrite Hw1. cbn [update_job set_heap set_subs heap].
    by rewrite list_lookup_alter_eq, Hc. }
  destruct (run_open_stays evs w1 l _ _ Hs1 Hr1 Hl1 eq_refl Hc1 Hp)
    as (s & Hl' & Ho & He).
  exists s. split; [done|]. split; [done|].
  destruct (run_Inv env evs w1 Hs1 Hr1) as [[H1 H2] _].
  destruct (H2 l s Hl') as (c' & Hc' & _). simpl in Ho. rewrite Ho in Hc'.
  rewrite (job_listeners_Some _ _ _ Hc'), (job_logs_Some _ _ _ Hc').
  intros Hin. destruct (H1 r c' Hc') as [_ Hm].
  destruct (Hm l Hin) as (s' & Hs' & _ & _ & Hw). congruence.
Qed.

End Listeners.

(* ===================================================================== *)
(** ** Further properties of the string primitives and of the logger *)
(* ===================================================================== *)

Lemma app_cons c r (s : string) : String c r +:+ s = String c (r +:+ s).
Proof. reflexivity. Qed.

Lemma app_empty (s : string) : "" +:+ s = s.
Proof. reflexivity. Qed.

Lemma has_char_app c s t :
  Text.has_char c (s +:+ t) = Text.has_char c s || Text.has_char c t.
Proof.
  induction s as [|a r IH]; [done|]. simpl. rewrite IH. by rewrite orb_assoc.
Qed.

Lemma split_lines_nonempty s : Js.split_lines s ≠ [].
Proof.
  destruct s as [|c r]; [done|]. simpl.
  destruct (Ascii.eqb c Js.LF); [done|]. by destruct (Js.split_lines r).
Qed.

Lemma split_lines_parts (s : string) :
  Forall (λ part, Text.has_char Js.LF part = false) (Js.split_lines s).
Proof.
  induction s as [|c r IH]; [by repeat constructor|].
  cbn [Js.split_lines]. destruct (Ascii.eqb_spec c Js.LF) as [->|Hne].
  - by constructor.
  - pose proof (split_lines_nonempty r) as Hn.
    destruct (Js.split_lines r) as [|h t] eqn:E; [done|].
    apply Forall_cons in IH as [Hh Ht]. constructor; [|done].
    simpl. rewrite Hh. apply Ascii.eqb_neq in Hne. by rewrite Hne.
Qed.

(** X12. [split('\n')] loses nothing: joining the parts with line feeds gives the
    string back, and no part contains a line feed. *)
Theorem split_lines_join (s : string) :
  String.concat (String Js.LF "") (Js.split_lines s) = s
  ∧ Forall (λ part, Text.has_char Js.LF part = false) (Js.split_lines s).
Proof.
  induction s as [|c r [IHjoin IHparts]]; [split; [done|by repeat constructor]|].
  cbn [Js.split_lines]. destruct (Ascii.eqb_spec c Js.LF) as [->|Hne].
  - split.
    + pose proof (split_lines_nonempty r) as Hn.
      destruct (Js.split_lines r) as [|h t] eqn:E; [done|].
      rewrite <- IHjoin. reflexivity.
    + by constructor.
  - pose proof (split_lines_nonempty r) as Hn.
    destruct (Js.split_lines r) as [|h t] eqn:E; [done|]. split.
    + rewrite <- IHjoin. by destruct t.
    + apply Forall_cons in IHparts as [Hh Ht]. constructor; [|done].
      simpl. rewrite Hh. apply Ascii.eqb_neq in Hne. by rewrite Hne.
Qed.


Lemma split_lines_single s :
  Text.has_char Js.LF s = false → Js.split_lines s = [s].
Proof.
  induction s as [|c r IH]; [done|]. simpl.
  destruct (Ascii.eqb c Js.LF); [done|]. simpl. intros H. by rewrite IH.
Qed.

Lemma trimEnd_cons c r :
  Js.trimEnd (String c r)
  = if Js.isWhiteSpace c && Js.isEmpty (Js.trimEnd r) then ""
    else String c (Js.trimEnd r).
Proof. reflexivity. Qed.

Lemma trimEnd_empty_iff s : Js.trimEnd s = "" ↔ Text.all_blank s = true.
Proof.
  induction s as [|c r IH]; [done|]. simpl.
  destruct (Js.isWhiteSpace c); simpl.
  - destruct (Js.trimEnd r) eqn:E; simpl.
    + split; [intros _; by apply IH|done].
    + split; [done|]. intros H. apply IH in H. done.
  - split; done.
Qed.

Lemma trimEnd_idem s : Js.trimEnd (Js.trimEnd s) = Js.trimEnd s.
Proof.
  induction s as [|c r IH]; [done|]. rewrite (trimEnd_cons c r).
  destruct (Js.isWhiteSpace c) eqn:Hc; cbn [andb].
  - destruct (Js.trimEnd r) as [|c' r'] eqn:E; [done|]. cbn [Js.isEmpty].
    by rewrite trimEnd_cons, IH, andb_false_r.
  - by rewrite trimEnd_cons, IH, Hc.
Qed.

Lemma trimEnd_split s :
  ∃ blanks, s = Js.trimEnd s +:+ blanks ∧ Text.all_blank blanks = true.
Proof.
  induction s as [|c r (blanks & Hr & Hb)]; [by exists ""|].
  rewrite trimEnd_cons.
  destruct (Js.isWhiteSpace c && Js.isEmpty (Js.trimEnd r)) eqn:Hc.
  - apply andb_true_iff in Hc as [Hc He]. exists (String c r).
    split; [done|]. simpl. rewrite Hc. simpl. apply trimEnd_empty_iff.
    by destruct (Js.trimEnd r).
  - exists blanks. split; [|done]. rewrite Hr at 1. reflexivity.
Qed.

Lemma trimEnd_last s :
  match Text.last_char (Js.trimEnd s) with
  | Some c => Js.isWhiteSpace c = false
  | None => Js.trimEnd s = ""
  end.
Proof.
  induction s as [|c r IH]; [done|]. rewrite trimEnd_cons.
  destruct (Js.isWhiteSpace c) eqn:Hc; cbn [andb].
  - destruct (Js.trimEnd r) as [|c' r'] eqn:E; [done|]. cbn [Js.isEmpty].
    change (match Text.last_char (String c' r') with
            | Some c0 => Js.isWhiteSpace c0 = false
            | None => String c (String c' r') = ""
            end).
    by destruct (Text.last_char (String c' r')).
  - destruct (Js.trimEnd r) as [|c' r'] eqn:E; [done|].
    change (match Text.last_char (String c' r') with
            | Some c0 => Js.isWhiteSpace c0 = false
            | None => String c (String c' r') = ""
            end).
    by destruct (Text.last_char (String c' r')).
Qed.

(** X13. [trimEnd] removes exactly a run of white space at the end: the input is
    the result followed by blanks, the result is empty or ends in a
    character that is not white space, and trimming again changes nothing. *)
Theorem trimEnd_removes_trailing_blanks (s : string) :
  (∃ blanks, s = Js.trimEnd s +:+ blanks ∧ Text.all_blank blanks = true)
  ∧ match Text.last_char (Js.trimEnd s) with
    | Some c => Js.isWhiteSpace c = false
    | None => Js.trimEnd s = ""
    end
  ∧ Js.trimEnd (Js.trimEnd s) = Js.trimEnd s.
Proof.
  split; [apply trimEnd_split|]. split; [apply trimEnd_last|apply trimEnd_idem].
Qed.

Lemma matchAnsi_other c r :
  Ascii.eqb c Js.ESC = false → Logger.matchAnsi (String c r) = None.
Proof.
  intros Hc. destruct r as [|b r']; [done|]. unfold Logger.matchAnsi.
  rewrite Hc. by destruct b as [[] [] [] [] [] [] [] []].
Qed.

Lemma stripAnsi_cons c s :
  Ascii.eqb c Js.ESC = false →
  Logger.stripAnsi (String c s) = String c (Logger.stripAnsi s).
Proof. intros Hc. by rewrite stripAnsi_unfold, matchAnsi_other. Qed.

Lemma stripAnsi_app_plain t s :
  Text.has_char Js.ESC t = false →
  Logger.stripAnsi (t +:+ s) = t +:+ Logger.stripAnsi s.
Proof.
  induction t as [|c r IH]; [done|]. simpl.
  intros [Hc Hr]%orb_false_iff.
  change (String c r +:+ s) with (String c (r +:+ s)).
  rewrite stripAnsi_cons by done. by rewrite IH.
Qed.

Lemma skipParams_code ps s :
  Text.all_params ps = true →
  Logger.skipParams (ps +:+ String "m" s) = String "m" s.
Proof.
  induction ps as [|c r IH]; [done|]. simpl.
  intros [Hc Hr]%andb_true_iff.
  change (String c r +:+ String "m" s) with (String c (r +:+ String "m" s)).
  simpl. rewrite Hc. by apply IH.
Qed.

Lemma append_assoc (a b c : string) : (a +:+ b) +:+ c = a +:+ (b +:+ c).
Proof.
  induction a as [|x a IH]; [done|].
  change ((String x a +:+ b) +:+ c) with (String x ((a +:+ b) +:+ c)).
  change (String x a +:+ (b +:+ c)) with (String x (a +:+ (b +:+ c))).
  by rewrite IH.
Qed.

Lemma code_app ps s :
  Text.code ps +:+ s = String Js.ESC (String "[" (ps +:+ String "m" s)).
Proof.
  change (Text.code ps +:+ s)
    with (String Js.ESC (String "[" ((ps +:+ "m") +:+ s))).
  by rewrite append_assoc.
Qed.

Lemma stripAnsi_code ps s :
  Text.all_params ps = true →
  Logger.stripAnsi (Text.code ps +:+ s) = Logger.stripAnsi s.
Proof.
  intros Hps. rewrite stripAnsi_unfold, code_app.
  unfold Logger.matchAnsi. rewrite Ascii.eqb_refl.
  by rewrite skipParams_code.
Qed.

Lemma stripAnsi_length s :
  String.length (Logger.stripAnsi s) ≤ String.length s.
Proof.
  remember (String.length s) as n eqn:Hn. revert s Hn.
  induction n as [n IH] using lt_wf_ind. intros s ->.
  rewrite stripAnsi_unfold.
  destruct (Logger.matchAnsi s) as [rest|] eqn:Hm.
  - apply matchAnsi_length in Hm.
    pose proof (IH _ Hm rest eq_refl). lia.
  - destruct s as [|c r]; [done|]. simpl.
    pose proof (IH (String.length r) ltac:(simpl; lia) r eq_refl). lia.
Qed.

Lemma app_empty_r (x : string) : x +:+ "" = x.
Proof.
  induction x as [|c x IHx]; [done|].
  change (String c x +:+ "") with (String c (x +:+ "")). by rewrite IHx.
Qed.

Lemma stripAnsi_plain t :
  Text.has_char Js.ESC t = false → Logger.stripAnsi t = t.
Proof.
  intros Ht. pose proof (stripAnsi_app_plain t "" Ht) as H.
  rewrite app_empty_r in H. rewrite H. apply app_empty_r.
Qed.

Lemma skipParams_split x :
  ∃ params, Text.all_params params = true
            ∧ x = params +:+ Logger.skipParams x.
Proof.
  induction x as [|c r (ps & Hps & Hr)]; [by exists ""|].
  cbn [Logger.skipParams]. destruct (Logger.isParam c) eqn:Hc.
  - exists (String c ps). cbn [Text.all_params]. rewrite Hc, Hps.
    split; [done|]. by rewrite app_cons, <- Hr.
  - by exists "".
Qed.

Lemma matchAnsi_Some s rest :
  Logger.matchAnsi s = Some rest →
  ∃ params, Text.all_params params = true ∧ s = Text.code params +:+ rest.
Proof.
  intros H. destruct s as [|c [|b r]]; [done..|].
  destruct (Ascii.eqb c Js.ESC) eqn:Hc;
    [|by rewrite matchAnsi_other in H].
  apply Ascii.eqb_eq in Hc as ->.
  destruct (Ascii.eqb_spec b "[") as [->|Hb].
  - unfold Logger.matchAnsi in H. rewrite Ascii.eqb_refl in H.
    destruct (skipParams_split r) as (ps & Hps & Hr).
    exists ps. split; [done|]. rewrite code_app. do 2 f_equal.
    rewrite Hr at 1. f_equal.
    destruct (Logger.skipParams r) as [|m rest']; [done|].
    destruct (Ascii.eqb_spec m "m") as [->|Hm]; [congruence|].
    exfalso. by destruct m as [[] [] [] [] [] [] [] []].
  - exfalso. by destruct b as [[] [] [] [] [] [] [] []].
Qed.

(** X14. [stripAnsi] removes colour codes and nothing else.  A well-formed
    code (ESC, an opening bracket, digits and semicolons, then m) in front
    is dropped; an escape character that does not start such a code is
    kept, and so is every other character: text without an escape
    character passes unchanged, also in front of other text.  The result is
    never longer than the input. *)
Theorem stripAnsi_removes_codes_only (t s params : string) :
  (Text.has_char Js.ESC t = false →
     Logger.stripAnsi t = t
     ∧ Logger.stripAnsi (t +:+ s) = t +:+ Logger.stripAnsi s)
  ∧ (Text.all_params params = true →
     Logger.stripAnsi (Text.code params +:+ s) = Logger.stripAnsi s)
  ∧ ((∀ params' rest, Text.all_params params' = true →
                      String Js.ESC s ≠ Text.code params' +:+ rest) →
     Logger.stripAnsi (String Js.ESC s) = String Js.ESC (Logger.stripAnsi s))
  ∧ String.length (Logger.stripAnsi s) ≤ String.length s.
Proof.
  split; [|split; [|split]].
  - intros Ht. split; [by apply stripAnsi_plain|by apply stripAnsi_app_plain].
  - apply stripAnsi_code.
  - intros Hno. rewrite stripAnsi_unfold.
    destruct (Logger.matchAnsi (String Js.ESC s)) as [rest|] eqn:Hm; [|done].
    apply matchAnsi_Some in Hm as (ps & Hps & E). by destruct (Hno ps rest).
  - apply stripAnsi_length.
Qed.

Lemma stripAnsi_color (m : LoggerMethods.Method) s :
  Logger.stripAnsi (LoggerMethods.color m +:+ s) = Logger.stripAnsi s.
Proof.
  destruct m; try (by apply (stripAnsi_code "34"));
    try (by apply (stripAnsi_code "32")); try (by apply (stripAnsi_code "33"));
    try (by apply (stripAnsi_code "31")); try (by apply (stripAnsi_code "2"));
    try (by apply (stripAnsi_code "35")).
  change (LoggerMethods.color LoggerMethods.action +:+ s)
    with (Text.code "36" +:+ (Text.code "1" +:+ s)).
  by rewrite !stripAnsi_code.
Qed.

(** The visible text of a formatted message: the colour codes of
    [formatMessage] all disappear, leaving '[time] PREFIX ' in front of the
    message (itself stripped), provided the clock reading has no escape
    character. *)
Lemma stripAnsi_formatMessage (m : LoggerMethods.Method) printed message :
  Text.has_char Js.ESC printed = false →
  Logger.stripAnsi
    (Logger.formatMessage printed (LoggerMethods.prefix m)
                          (LoggerMethods.color m) message)
  = "[" +:+ printed +:+ "] " +:+ LoggerMethods.prefix m +:+ " "
        +:+ Logger.stripAnsi message.
Proof.
  intros Hp. unfold Logger.formatMessage.
  change Logger.dim with (Text.code "2"). rewrite stripAnsi_code by done.
  rewrite !app_cons, !app_empty.
  rewrite stripAnsi_cons by done. f_equal.
  rewrite stripAnsi_app_plain by done. f_equal.
  rewrite stripAnsi_cons by done. f_equal.
  change Logger.reset with (Text.code "0"). rewrite stripAnsi_code by done.
  rewrite stripAnsi_cons by done. f_equal.
  rewrite stripAnsi_color.
  rewrite stripAnsi_app_plain by (by destruct m). f_equal.
  rewrite stripAnsi_code by done.
  by rewrite stripAnsi_cons.
Qed.

Lemma trimEnd_app_keep a s :
  Js.trimEnd s ≠ "" → Js.trimEnd (a +:+ s) = a +:+ Js.trimEnd s.
Proof.
  intros Hs. induction a as [|c r IH]; [done|].
  rewrite app_cons, trimEnd_cons, IH.
  assert (Js.isEmpty (r +:+ Js.trimEnd s) = false) as ->.
  { destruct r; [|done]. rewrite app_empty. by destruct (Js.trimEnd s). }
  by rewrite andb_false_r.
Qed.

Lemma escape_newlines_plain s :
  Text.has_char Js.LF s = false → Js.escape_newlines s = s.
Proof.
  induction s as [|c r IH]; [done|]. simpl.
  intros [Hc Hr]%orb_false_iff. rewrite Hc. by rewrite IH.
Qed.

(** X15. What [send] writes after 'data: ' never contains a raw line feed, so an
    event is always one frame; text without line feeds is written as it
    is. *)
Theorem escape_newlines_leaves_no_line_feed (s : string) :
  Text.has_char Js.LF (Js.escape_newlines s) = false
  ∧ (Text.has_char Js.LF s = false → Js.escape_newlines s = s).
Proof.
  split; [|apply escape_newlines_plain].
  induction s as [|c r IH]; [done|]. simpl.
  destruct (Ascii.eqb c Js.LF) eqn:Hc; simpl; [done|]. by rewrite Hc.
Qed.

Lemma trimEnd_no_char c s :
  Text.has_char c s = false → Text.has_char c (Js.trimEnd s) = false.
Proof.
  intros H. destruct (trimEnd_split s) as (blanks & Hs & _).
  rewrite Hs, has_char_app in H. by apply orb_false_iff in H as [? _].
Qed.

(** X16. Every line that [emit] hands to a sink is non-empty, has no line feed
    and no trailing white space; so [send('log', line)] writes it verbatim
    in one 'data:' frame. *)
Theorem emitted_lines_are_clean (formatted : string) :
  Forall (λ line,
            Js.isEmpty line = false
            ∧ Text.has_char Js.LF line = false
            ∧ Js.trimEnd line = line
            ∧ sse "log" line
              = [ "event: log" +:+ String Js.LF "";
                  "data: " +:+ line +:+ String Js.LF (String Js.LF "") ])
         (Logger.emittedLines formatted).
Proof.
  apply Forall_forall. intros line Hin. unfold Logger.emittedLines in Hin.
  apply list_elem_of_filter in Hin as [Hne Hin].
  apply list_elem_of_In, in_map_iff in Hin as (part & <- & Hin).
  apply list_elem_of_In in Hin.
  pose proof (split_lines_parts (Logger.stripAnsi formatted)) as Hparts.
  rewrite Forall_forall in Hparts. specialize (Hparts _ Hin).
  pose proof (trimEnd_no_char _ _ Hparts) as Hlf.
  repeat split; [done|done|apply trimEnd_idem|].
  unfold sse. by rewrite escape_newlines_plain.
Qed.

Lemma emittedLines_formatMessage (m : LoggerMethods.Method) printed message :
  Text.has_char Js.ESC printed = false →
  Text.has_char Js.LF printed = false →
  Text.has_char Js.ESC message = false →
  Text.has_char Js.LF message = false →
  Js.trimEnd message = message →
  message ≠ "" →
  Logger.emittedLines
    (Logger.formatMessage printed (LoggerMethods.prefix m)
                          (LoggerMethods.color m) message)
  = [ "[" +:+ printed +:+ "] " +:+ LoggerMethods.prefix m +:+ " "
          +:+ message ].
Proof.
  intros Hpe Hpl Hme Hml Ht Hne. unfold Logger.emittedLines.
  rewrite stripAnsi_formatMessage by done.
  rewrite (stripAnsi_plain message) by done.
  rewrite split_lines_single.
  2:{ rewrite !has_char_app, Hpl, Hml. by destruct m. }
  cbn [map].
  assert (Js.trimEnd ("[" +:+ printed +:+ "] " +:+ LoggerMethods.prefix m
                          +:+ " " +:+ message)
          = "[" +:+ printed +:+ "] " +:+ LoggerMethods.prefix m +:+ " "
                +:+ message) as ->.
  { rewrite <- !append_assoc. rewrite trimEnd_app_keep; rewrite Ht; done. }
  rewrite !app_cons, !app_empty. done.
Qed.

Section LoggerCalls.

Context (env : option string).

(** X17. A one-line logger method ([info], [success], [warn], [error], [debug],
    [action], [job]) called inside a job's context, with a message of one
    non-empty line without colour codes or trailing white space, has exactly
    the effect of one [pushLog(job, '[time] PREFIX message')]: the colours of
    the console output do not reach the job's log. *)
Theorem logger_method_pushes_one_plain_line
    (w : World) (m : LoggerMethods.Method) (id : string) (r : nat)
    (message printed now : string) :
  logSinks w !! id = Some r →
  Text.has_char Js.ESC printed = false →
  Text.has_char Js.LF printed = false →
  Text.has_char Js.ESC message = false →
  Text.has_char Js.LF message = false →
  Js.trimEnd message = message →
  message ≠ "" →
  (step env w (LoggerMethods.call m (Some id) message printed now)).1
  = pushLog r ("[" +:+ printed +:+ "] " +:+ LoggerMethods.prefix m +:+ " "
                   +:+ message) w.
Proof.
  intros Hs Hpe Hpl Hme Hml Ht Hne. unfold LoggerMethods.call.
  cbn [step fst]. rewrite (emit_eq _ _ _ _ _ _ Hs).
  by rewrite emittedLines_formatMessage.
Qed.

End LoggerCalls.

(* ===================================================================== *)
(** ** The configured ceiling *)
(* ===================================================================== *)

Lemma skipWhiteSpace_app_blank lead s :
  Text.all_blank lead = true →
  Js.skipWhiteSpace (lead +:+ s) = Js.skipWhiteSpace s.
Proof.
  induction lead as [|c r IH]; [done|]. cbn [Text.all_blank].
  intros [Hc Hr]%andb_true_iff. rewrite app_cons. cbn [Js.skipWhiteSpace].
  rewrite Hc. by apply IH.
Qed.

Lemma digit_char d :
  d < 10 →
  let c := ascii_of_nat (48 + d) in
  Js.isDigit c = true ∧ Js.digitValue c = Z.of_nat d
  ∧ Js.isWhiteSpace c = false ∧ c ≠ "-"%char ∧ c ≠ "+"%char.
Proof.
  intros Hd. do 10 (destruct d as [|d]; [by vm_compute|]). lia.
Qed.

Lemma readDigits_numeral ds rest acc count :
  Forall (λ d, d < 10) ds →
  Text.starts_with_digit rest = false →
  Js.readDigits acc count (Text.numeral ds +:+ rest)
  = (foldl (λ a d, 10 * a + Z.of_nat d)%Z acc ds, count + length ds).
Proof.
  intros Hds Hrest. revert acc count.
  induction Hds as [|d ds Hd Hds IH]; intros acc count.
  - rewrite app_empty. cbn [foldl length]. rewrite Nat.add_0_r.
    destruct rest as [|c r]; [done|]. simpl in Hrest. simpl. by rewrite Hrest.
  - destruct (digit_char d Hd) as (H1 & H2 & _).
    cbn [Text.numeral foldl length]. rewrite app_cons.
    cbn [Js.readDigits]. rewrite H1, H2, IH. f_equal. lia.
Qed.

Lemma parseInt_unsigned c r :
  Js.isWhiteSpace c = false → c ≠ "-"%char → c ≠ "+"%char →
  Js.parseInt (String c r)
  = match Js.readDigits 0 0 (String c r) with
    | (_, O) => Js.NaN
    | (v, S _) => Js.toNumber (1 * v)
    end.
Proof.
  intros Hw Hm Hp. unfold Js.parseInt. cbn [Js.skipWhiteSpace]. rewrite Hw.
  destruct c as [[] [] [] [] [] [] [] []]; try done.
Qed.

Lemma parseInt_minus r :
  Js.parseInt (String "-" r)
  = match Js.readDigits 0 0 r with
    | (_, O) => Js.NaN
    | (v, S _) => Js.toNumber (-1 * v)
    end.
Proof. reflexivity. Qed.

Lemma parseInt_skip lead s :
  Text.all_blank lead = true → Js.parseInt (lead +:+ s) = Js.parseInt s.
Proof.
  intros H. unfold Js.parseInt. by rewrite skipWhiteSpace_app_blank.
Qed.

Lemma parseInt_numeral lead ds rest :
  Text.all_blank lead = true →
  ds ≠ [] →
  Forall (λ d, d < 10) ds →
  Text.starts_with_digit rest = false →
  Js.parseInt (lead +:+ Text.numeral ds +:+ rest)
  = Js.toNumber (Text.denotes ds)
  ∧ Js.parseInt (lead +:+ "-" +:+ Text.numeral ds +:+ rest)
    = Js.toNumber (- Text.denotes ds).
Proof.
  intros Hlead Hne Hds Hrest.
  destruct ds as [|d ds']; [done|]. split; rewrite parseInt_skip by done.
  - pose proof (Forall_inv Hds) as Hd. cbn beta in Hd.
    destruct (digit_char d Hd) as (_ & _ & H3 & H4 & H5).
    pose proof (readDigits_numeral (d :: ds') rest 0 0 Hds Hrest) as Hr.
    cbn [Text.numeral] in *. rewrite app_cons in *.
    rewrite parseInt_unsigned by done. rewrite Hr. cbn [length Nat.add].
    unfold Text.denotes. f_equal; lia.
  - rewrite app_cons, app_empty, parseInt_minus.
    rewrite (readDigits_numeral (d :: ds') rest 0 0 Hds Hrest).
    cbn [length Nat.add]. unfold Text.denotes. f_equal; lia.
Qed.

Lemma denotes_nonneg ds : (0 ≤ Text.denotes ds)%Z.
Proof.
  unfold Text.denotes.
  assert (∀ a, (0 ≤ a)%Z →
               (0 ≤ foldl (λ a d, 10 * a + Z.of_nat d) a ds)%Z) as H.
  { induction ds as [|d ds IH]; intros a Ha; [done|]. cbn [foldl].
    apply IH. lia. }
  by apply H.
Qed.

Lemma maxConcurrentJobs_of_integer raw z :
  Js.parseInt raw = Js.toNumber z →
  maxConcurrentJobs (Some raw)
  = if (z <? 1)%Z then Js.Finite 1 else Js.toNumber z.
Proof.
  intros H. unfold maxConcurrentJobs.
  change (default "3" (Some raw)) with raw. cbv zeta. rewrite H.
  destruct (toNumber_below_one z) as [-> ->]. done.
Qed.

(** X18. The concurrency ceiling is the number written in
    MAX_CONCURRENT_JOBS: for a decimal numeral, possibly after blanks and
    followed by any text that does not continue it, the ceiling is the
    double nearest to that number, raised to 1 when the number is 0; it is
    the number itself below 2^53 and +Infinity from 2^1024 on.  With a
    minus sign in front the ceiling is 1, and it is 3 when the variable is
    not set. *)
Theorem ceiling_is_the_configured_number
    (lead : string) (ds : list nat) (rest : string) :
  Text.all_blank lead = true →
  ds ≠ [] →
  Forall (λ d, d < 10) ds →
  Text.starts_with_digit rest = false →
  let ceiling := maxConcurrentJobs (Some (lead +:+ Text.numeral ds +:+ rest)) in
  ceiling = (if (Text.denotes ds <? 1)%Z then Js.Finite 1
             else Js.toNumber (Text.denotes ds))
  ∧ ((Text.denotes ds < 2 ^ 53)%Z →
     ceiling = Js.Finite (Z.max 1 (Text.denotes ds)))
  ∧ ((2 ^ 1024 ≤ Text.denotes ds)%Z → ceiling = Js.PosInfinity)
  ∧ maxConcurrentJobs (Some (lead +:+ "-" +:+ Text.numeral ds +:+ rest))
    = Js.Finite 1
  ∧ maxConcurrentJobs None = Js.Finite 3.
Proof.
  intros Hlead Hne Hds Hrest ceiling.
  destruct (parseInt_numeral lead ds rest Hlead Hne Hds Hrest) as [Hp Hm].
  pose proof (denotes_nonneg ds) as Hpos.
  pose proof (maxConcurrentJobs_of_integer _ _ Hp) as Hc. fold ceiling in Hc.
  split; [exact Hc|]. split; [|split; [|split; [|done]]].
  - intros Hsmall. rewrite Hc.
    destruct (Z.ltb_spec (Text.denotes ds) 1); [f_equal; lia|].
    rewrite toNumber_small by lia. f_equal. lia.
  - intros Hhuge. rewrite Hc.
    assert (0 < 2 ^ 1024)%Z by (apply Z.pow_pos_nonneg; lia).
    destruct (Z.ltb_spec (Text.denotes ds) 1); [lia|].
    by apply toNumber_huge.
  - rewrite (maxConcurrentJobs_of_integer _ _ Hm).
    destruct (Z.ltb_spec (- Text.denotes ds) 1); [done|lia].
Qed.

(* ===================================================================== *)
(** ** The web application: authentication and the stream route *)
(* ===================================================================== *)

Lemma length_app_string (a b : string) :
  String.length (a +:+ b) = String.length a + String.length b.
Proof.
  induction a as [|c a IH]; [done|]. rewrite app_cons. simpl. by rewrite IH.
Qed.

Lemma skipWhiteSpace_length s :
  String.length (Js.skipWhiteSpace s) ≤ String.length s.
Proof.
  induction s as [|c r IH]; [done|]. cbn [Js.skipWhiteSpace].
  destruct (Js.isWhiteSpace c); simpl; lia.
Qed.

Lemma trimEnd_length s : String.length (Js.trimEnd s) ≤ String.length s.
Proof.
  destruct (trimEnd_split s) as (blanks & Hs & _).
  rewrite Hs at 2. rewrite length_app_string. lia.
Qed.

Lemma skipWhiteSpace_split s :
  ∃ lead, s = lead +:+ Js.skipWhiteSpace s ∧ Text.all_blank lead = true.
Proof.
  induction s as [|c r (lead & Hr & Hl)]; [by exists ""|].
  cbn [Js.skipWhiteSpace]. destruct (Js.isWhiteSpace c) eqn:Hc.
  - exists (String c lead). rewrite app_cons, <- Hr. split; [done|].
    simpl. by rewrite Hc.
  - by exists "".
Qed.

Lemma skipWhiteSpace_first c r :
  Js.isWhiteSpace c = false → Js.skipWhiteSpace (String c r) = String c r.
Proof. intros H. cbn [Js.skipWhiteSpace]. by rewrite H. Qed.

Lemma skipWhiteSpace_head s :
  Js.skipWhiteSpace s = ""
  ∨ ∃ c r, Js.skipWhiteSpace s = String c r ∧ Js.isWhiteSpace c = false.
Proof.
  induction s as [|c r IH]; [by left|]. cbn [Js.skipWhiteSpace].
  destruct (Js.isWhiteSpace c) eqn:Hc; [done|]. right. by exists c, r.
Qed.

Lemma trimEnd_first c r :
  Js.isWhiteSpace c = false →
  Js.trimEnd (String c r) = String c (Js.trimEnd r).
Proof. intros H. by rewrite trimEnd_cons, H. Qed.

Lemma trim_idem s : Text.trim (Text.trim s) = Text.trim s.
Proof.
  unfold Text.trim.
  destruct (skipWhiteSpace_head s) as [-> | (c & r & -> & Hc)]; [done|].
  rewrite trimEnd_first by done. rewrite skipWhiteSpace_first by done.
  rewrite <- trimEnd_first by done. apply trimEnd_idem.
Qed.

Lemma trim_fixed t :
  Text.trim t = t → t ≠ "" →
  Js.skipWhiteSpace t = t ∧ Js.trimEnd t = t.
Proof.
  intros Ht Hne. destruct t as [|c r]; [done|].
  destruct (Js.isWhiteSpace c) eqn:Hc.
  - exfalso. unfold Text.trim in Ht. cbn [Js.skipWhiteSpace] in Ht.
    rewrite Hc in Ht. apply (f_equal String.length) in Ht.
    pose proof (trimEnd_length (Js.skipWhiteSpace r)).
    pose proof (skipWhiteSpace_length r). simpl in Ht. lia.
  - unfold Text.trim in Ht. rewrite skipWhiteSpace_first in Ht by done.
    split; [by apply skipWhiteSpace_first|done].
Qed.

Lemma trimEnd_app_blank t trail :
  Text.all_blank trail = true → Js.trimEnd (t +:+ trail) = Js.trimEnd t.
Proof.
  intros Hb. induction t as [|c r IH].
  - rewrite app_empty. by apply trimEnd_empty_iff.
  - by rewrite app_cons, !trimEnd_cons, IH.
Qed.

Lemma trim_between lead token trail :
  Text.all_blank lead = true → Text.all_blank trail = true →
  Text.trim token = token → token ≠ "" →
  Text.trim (lead +:+ token +:+ trail) = token.
Proof.
  intros Hl Ht Hfix Hne. destruct (trim_fixed token Hfix Hne) as [Hs He].
  unfold Text.trim. rewrite skipWhiteSpace_app_blank by done.
  destruct token as [|c r]; [done|].
  assert (Hc : Js.isWhiteSpace c = false).
  { cbn [Js.skipWhiteSpace] in Hs. destruct (Js.isWhiteSpace c); [|done].
    exfalso. apply (f_equal String.length) in Hs.
    pose proof (skipWhiteSpace_length r). simpl in Hs. lia. }
  rewrite app_cons, skipWhiteSpace_first by done. rewrite <- app_cons.
  by rewrite trimEnd_app_blank.
Qed.

Lemma prefix_bearer h :
  Text.startsWith "Bearer " h = true → ∃ x, h = "Bearer " +:+ x.
Proof.
  intros H.
  do 7 (destruct h as [|? h]; [done|]; cbn [Text.startsWith] in H;
        apply andb_true_iff in H as [->%Ascii.eqb_eq H]).
  by exists h.
Qed.

Lemma remove_first_bearer x :
  Text.remove_first "Bearer " ("Bearer " +:+ x) = x.
Proof. reflexivity. Qed.

(** X19. [requireUser] lets a request through exactly when its authorization
    header is 'Bearer ' followed by a non-empty token, with any white space
    around the token, and [getUser] knows a user for the token stripped of
    that white space; the user returned is that one. *)
Theorem requireUser_accepts_bearer_tokens
    (getUser : string → option Web.User) (authHeader : option string)
    (user : Web.User) :
  Web.requireUser getUser authHeader = inr user
  ↔ ∃ lead token trail,
      authHeader = Some ("Bearer " +:+ lead +:+ token +:+ trail)
      ∧ Text.all_blank lead = true ∧ Text.all_blank trail = true
      ∧ token ≠ "" ∧ Text.trim token = token
      ∧ getUser token = Some user.
Proof.
  split.
  - unfold Web.requireUser. destruct authHeader as [h|]; [|done].
    change (default "" (Some h)) with h.
    destruct (Js.truthy (Some h)); [|done].
    destruct (Text.startsWith "Bearer " h) eqn:Hp; [|done].
    apply prefix_bearer in Hp as [x ->]. rewrite remove_first_bearer.
    cbn [negb orb]. cbv zeta.
    destruct (Js.truthy (Some (Text.trim x))) eqn:Htok; [|done].
    cbn [negb]. destruct (getUser (Text.trim x)) as [u|] eqn:Hu; [|done].
    intros [= <-].
    destruct (skipWhiteSpace_split x) as (lead & Hx & Hl).
    destruct (trimEnd_split (Js.skipWhiteSpace x)) as (trail & Hy & Htr).
    exists lead, (Text.trim x), trail. repeat split; try done.
    + unfold Text.trim. by rewrite <- Hy, <- Hx.
    + intros E. by rewrite E in Htok.
    + apply trim_idem.
  - intros (lead & token & trail & -> & Hl & Htr & Hne & Hfix & Hu).
    unfold Web.requireUser.
    change (default "" (Some ?h)) with h.
    rewrite remove_first_bearer.
    rewrite trim_between by done.
    change (Js.truthy (Some ("Bearer " +:+ lead +:+ token +:+ trail)))
      with true.
    change (Text.startsWith "Bearer "
                            ("Bearer " +:+ lead +:+ token +:+ trail))
      with true.
    cbn [negb orb]. cbv zeta. rewrite Hu.
    by destruct token.
Qed.

(** X20. The stream route in front of the worker, for a request whose
    [fetch] reaches the worker's stream handler under the same id.  It
    answers 500 exactly when WORKER_URL is not configured, whatever the
    credentials; 502 exactly when the caller is authenticated and the worker
    does not know the job (the worker's 404 is not passed on); every answer
    other than 200 leaves the worker as it was; and a 200 answer carries the
    stream that the worker has opened for the job. *)
Theorem web_stream_route
    (workerUrl : option string) (getUser : string → option Web.User)
    (authHeader : option string) (id : string)
    (fetch : string → World → option (World * Response)) (w : World) :
  fetch (default "" workerUrl +:+ "/jobs/" +:+ id +:+ "/stream") w
  = Some (stream id w) →
  let answer := (Web.GET_stream workerUrl getUser authHeader id fetch w).2 in
  let w' := (Web.GET_stream workerUrl getUser authHeader id fetch w).1 in
  (Web.stream_status answer = Some 500 ↔ Js.truthy workerUrl = false)
  ∧ (Web.stream_status answer = Some 502
     ↔ Js.truthy workerUrl = true
       ∧ (∃ user, Web.requireUser getUser authHeader = inr user)
       ∧ jobs w !! id = None)
  ∧ (Web.stream_status answer ≠ Some 200 → w' = w)
  ∧ (∀ r, answer = Web.Piped r →
          ∃ l, r = StreamOpen l ∧ stream id w = (w', StreamOpen l))
  ∧ answer ≠ Web.Threw.
Proof.
  intros Hfetch. unfold Web.GET_stream.
  destruct (Js.truthy workerUrl); cbn [negb].
  2:{ cbn. repeat split; try done. by intros (? & _). }
  destruct (Web.requireUser getUser authHeader) as [e|user].
  { cbn. repeat split; try done. by intros (_ & [? ?] & _). }
  rewrite Hfetch. unfold stream. destruct (jobs w !! id) as [r|]; cbn.
  - repeat split; try done.
    + by intros (_ & _ & ?).
    + intros r0 [= <-]. by eexists.
  - repeat split; try done. by exists user.
Qed.

(* ===================================================================== *)
(** ** The further theorems at sample runs *)
(* ===================================================================== *)

Lemma event_touches_one_job_witness :
  let w := run None init Sample.two_jobs in
  reachable None w
  ∧ heap w !! 1 = Some (Sample.started_cell "j2")
  ∧ touched w (PostEnd "j1") ≠ Some 1
  ∧ heap (step None w (PostEnd "j1")).1 !! 1 = Some (Sample.started_cell "j2").
Proof.
  intros w.
  assert (H1 : reachable None w) by (exists Sample.two_jobs; reflexivity).
  assert (H2 : heap w !! 1 = Some (Sample.started_cell "j2"))
    by (vm_compute; reflexivity).
  assert (H3 : touched w (PostEnd "j1") ≠ Some 1)
    by (vm_compute; intros H; discriminate H).
  split; [exact H1|]. split; [exact H2|]. split; [exact H3|].
  exact (proj1 (event_touches_one_job None w (PostEnd "j1") H1)
               1 (Sample.started_cell "j2") H2 H3).
Defined.

Lemma job_record_only_grows_witness :
  let w := run None init Sample.one_job in
  let evs := [PostEnd "j1"; Reject 0 "Job terminated by user"; Finally 0] in
  reachable None w ∧ heap w !! 0 = Some Sample.one_job_cell
  ∧ ∃ c', heap (run None w evs) !! 0 = Some c'
          ∧ job_id (job c') = "j1"
          ∧ logs (job Sample.one_job_cell) `prefix_of` logs (job c').
Proof.
  intros w evs.
  assert (H1 : reachable None w) by (exists Sample.one_job; reflexivity).
  assert (H2 : heap w !! 0 = Some Sample.one_job_cell)
    by (vm_compute; reflexivity).
  split; [exact H1|]. split; [exact H2|].
  destruct (job_record_only_grows None w evs 0 Sample.one_job_cell H1 H2)
    as (c' & Hc' & Hid & Hlogs & _).
  exists c'. split; [exact Hc'|]. split; [exact Hid|exact Hlogs].
Defined.

Lemma every_log_begins_with_job_started_witness :
  let w := run None init Sample.one_job_ended in
  reachable None w ∧ heap w !! 0 = Some Sample.one_job_ended_cell
  ∧ ∃ rest, logs (job Sample.one_job_ended_cell) = "Job started." :: rest.
Proof.
  intros w.
  assert (H1 : reachable None w) by (exists Sample.one_job_ended; reflexivity).
  assert (H2 : heap w !! 0 = Some Sample.one_job_ended_cell)
    by (vm_compute; reflexivity).
  split; [exact H1|]. split; [exact H2|].
  exact (every_log_begins_with_job_started None w 0
           Sample.one_job_ended_cell H1 H2).
Defined.

Lemma end_after_settlement_is_conflict_witness :
  let w := run None init Sample.two_jobs in
  let c := settled_cell completed ["Job terminated successfully."]
                        (Sample.started_cell "j1") in
  let evs := [Finally 0; PostStart Sample.credentials "j3"; PostEnd "j2"] in
  reachable None w ∧ jobs w !! "j1" = Some 0 ∧ heap w !! 0 = Some c
  ∧ promise c ≠ Pending ∧ fresh_uuids None w evs
  ∧ step None (run None w evs) (PostEnd "j1")
    = (run None w evs, Conflict completed).
Proof.
  intros w c evs.
  assert (H1 : reachable None w) by (exists Sample.two_jobs; reflexivity).
  assert (H2 : jobs w !! "j1" = Some 0) by (vm_compute; reflexivity).
  assert (H3 : heap w !! 0 = Some c) by (vm_compute; reflexivity).
  assert (H4 : promise c ≠ Pending) by (intros H; discriminate H).
  assert (H5 : fresh_uuids None w evs)
    by (vm_compute; repeat split; reflexivity).
  split; [exact H1|]. split; [exact H2|]. split; [exact H3|].
  split; [exact H4|]. split; [exact H5|].
  exact (end_after_settlement_is_conflict None w "j1" 0 c evs H1 H2 H3 H4 H5).
Defined.

Lemma repeated_end_requests_witness :
  let w := run None init Sample.one_job in
  reachable None w ∧ jobs w !! "j1" = Some 0
  ∧ heap w !! 0 = Some Sample.one_job_cell
  ∧ status (job Sample.one_job_cell) = running
  ∧ (step None (run None w (replicate 3 (PostEnd "j1"))) (PostEnd "j1")).2
    = Accepted.
Proof.
  intros w.
  assert (H1 : reachable None w) by (exists Sample.one_job; reflexivity).
  assert (H2 : jobs w !! "j1" = Some 0) by (vm_compute; reflexivity).
  assert (H3 : heap w !! 0 = Some Sample.one_job_cell)
    by (vm_compute; reflexivity).
  assert (H4 : status (job Sample.one_job_cell) = running) by reflexivity.
  split; [exact H1|]. split; [exact H2|]. split; [exact H3|].
  split; [exact H4|].
  exact (proj2 (repeated_end_requests None w "j1" 0 Sample.one_job_cell 2
                  H1 H2 H3 H4)).
Defined.

Lemma finally_frees_exactly_one_slot_witness :
  let w := run None init Sample.two_jobs in
  let c := settled_cell completed ["Job terminated successfully."]
                        (Sample.started_cell "j1") in
  fresh_uuids None init Sample.two_jobs ∧ heap w !! 0 = Some c
  ∧ size (runningJobs (step None w (Finally 0)).1) + 1 = size (runningJobs w)
  ∧ logSinks (step None w (Finally 0)).1 !! "j1" = None.
Proof.
  intros w c.
  assert (H1 : fresh_uuids None init Sample.two_jobs)
    by (vm_compute; repeat split; reflexivity).
  assert (H2 : heap w !! 0 = Some c) by (vm_compute; reflexivity).
  split; [exact H1|]. split; [exact H2|].
  destruct (proj1 (finally_frees_exactly_one_slot None Sample.two_jobs 0 c
                     H1 H2) eq_refl) as (Hsize & _ & Hsink & _).
  split; [exact Hsize|exact Hsink].
Defined.

Lemma running_set_is_the_unreleased_jobs_witness :
  let w := run None init Sample.one_job_ended in
  fresh_uuids None init Sample.one_job_ended
  ∧ ("j1" ∈ runningJobs w
     ↔ ∃ r c, heap w !! r = Some c ∧ job_id (job c) = "j1"
              ∧ promise c ≠ Finalized).
Proof.
  intros w.
  assert (H1 : fresh_uuids None init Sample.one_job_ended)
    by (vm_compute; repeat split; reflexivity).
  split; [exact H1|].
  exact (running_set_is_the_unreleased_jobs None Sample.one_job_ended "j1" H1).
Defined.

Lemma log_calls_reach_their_own_job_witness :
  let w := run None init Sample.one_job in
  fresh_uuids None init Sample.one_job
  ∧ heap w !! 0 = Some Sample.one_job_cell
  ∧ promise Sample.one_job_cell ≠ Finalized
  ∧ job_logs 0 (emit (Some "j1") "warn" "slow  " "10:00:02" w)
    = logs (job Sample.one_job_cell) ++ Logger.emittedLines "slow  ".
Proof.
  intros w.
  assert (H1 : fresh_uuids None init Sample.one_job)
    by (vm_compute; repeat split; reflexivity).
  assert (H2 : heap w !! 0 = Some Sample.one_job_cell)
    by (vm_compute; reflexivity).
  assert (H3 : promise Sample.one_job_cell ≠ Finalized)
    by (intros H; discriminate H).
  split; [exact H1|]. split; [exact H2|]. split; [exact H3|].
  exact (proj1 (proj1 (log_calls_reach_their_own_job None Sample.one_job 0
                         Sample.one_job_cell "warn" "slow  " "10:00:02"
                         H1 H2) H3)).
Defined.

Lemma closed_request_is_left_alone_witness :
  let w := run None init Sample.one_job in
  let s := {| owner := 0; written := replay (logs (job Sample.one_job_cell));
              ended := false |} in
  reachable None w ∧ subs w !! 0 = Some s ∧ ended s = false
  ∧ ∀ evs, subs (run None (step None w (ReqClose 0)).1 evs) !! 0 = Some s.
Proof.
  intros w s.
  assert (H1 : reachable None w) by (exists Sample.one_job; reflexivity).
  assert (H2 : subs w !! 0 = Some s) by (vm_compute; reflexivity).
  assert (H3 : ended s = false) by reflexivity.
  split; [exact H1|]. split; [exact H2|]. split; [exact H3|].
  destruct (closed_request_is_left_alone None w 0 s H1 H2 H3)
    as (_ & _ & _ & _ & Hleft).
  exact Hleft.
Defined.

Lemma late_subscriber_is_never_ended_witness :
  let w := run None init Sample.two_jobs in
  let c := settled_cell completed ["Job terminated successfully."]
                        (Sample.started_cell "j1") in
  reachable None w ∧ jobs w !! "j1" = Some 0 ∧ heap w !! 0 = Some c
  ∧ promise c ≠ Pending
  ∧ subs (step None w (GetStream "j1")).1 !! 0
    = Some {| owner := 0; written := replay (logs (job c)); ended := false |}.
Proof.
  intros w c.
  assert (H1 : reachable None w) by (exists Sample.two_jobs; reflexivity).
  assert (H2 : jobs w !! "j1" = Some 0) by (vm_compute; reflexivity).
  assert (H3 : heap w !! 0 = Some c) by (vm_compute; reflexivity).
  assert (H4 : promise c ≠ Pending) by (intros H; discriminate H).
  split; [exact H1|]. split; [exact H2|]. split; [exact H3|].
  split; [exact H4|].
  exact (proj1 (late_subscriber_is_never_ended None w "j1" 0 c [Finally 0]
                  H1 H2 H3 H4)).
Defined.

Lemma logger_method_pushes_one_plain_line_witness :
  let w := run None init Sample.one_job in
  logSinks w !! "j1" = Some 0
  ∧ Text.has_char Js.ESC "10:00:01" = false
  ∧ Text.has_char Js.LF "10:00:01" = false
  ∧ Text.has_char Js.ESC "Logged in" = false
  ∧ Text.has_char Js.LF "Logged in" = false
  ∧ Js.trimEnd "Logged in" = "Logged in"
  ∧ "Logged in" ≠ ""
  ∧ (step None w (LoggerMethods.call LoggerMethods.success (Some "j1")
                    "Logged in" "10:00:01" "10:00:01")).1
    = pushLog 0 "[10:00:01] SUCCESS Logged in" w.
Proof.
  intros w.
  assert (H1 : logSinks w !! "j1" = Some 0) by (vm_compute; reflexivity).
  assert (H2 : Text.has_char Js.ESC "10:00:01" = false) by reflexivity.
  assert (H3 : Text.has_char Js.LF "10:00:01" = false) by reflexivity.
  assert (H4 : Text.has_char Js.ESC "Logged in" = false) by reflexivity.
  assert (H5 : Text.has_char Js.LF "Logged in" = false) by reflexivity.
  assert (H6 : Js.trimEnd "Logged in" = "Logged in") by reflexivity.
  assert (H7 : "Logged in" ≠ "") by (intros H; discriminate H).
  split; [exact H1|]. split; [exact H2|]. split; [exact H3|].
  split; [exact H4|]. split; [exact H5|]. split; [exact H6|].
  split; [exact H7|].
  exact (logger_method_pushes_one_plain_line None w LoggerMethods.success
           "j1" 0 "Logged in" "10:00:01" "10:00:01" H1 H2 H3 H4 H5 H6 H7).
Defined.

Lemma ceiling_is_the_configured_number_witness :
  Text.all_blank " " = true ∧ [1; 2] ≠ []
  ∧ Forall (λ d, d < 10) [1; 2]
  ∧ Text.starts_with_digit "px" = false
  ∧ maxConcurrentJobs (Some " 12px") = Js.Finite 12.
Proof.
  assert (H1 : Text.all_blank " " = true) by reflexivity.
  assert (H2 : [1; 2] ≠ []) by (intros H; discriminate H).
  assert (H3 : Forall (λ d, d < 10) [1; 2]) by (repeat constructor).
  assert (H4 : Text.starts_with_digit "px" = false) by reflexivity.
  split; [exact H1|]. split; [exact H2|]. split; [exact H3|].
  split; [exact H4|].
  exact (proj1 (ceiling_is_the_configured_number " " [1; 2] "px"
                  H1 H2 H3 H4)).
Defined.

Lemma web_stream_route_witness :
  let w := run None init Sample.one_job in
  let getUser := λ token : string,
    if String.eqb token "secret"
    then Some (Web.mkUser "u1" None) else None in
  let fetch := λ (url : string) (w : World),
    if String.eqb url "http://worker:8787/jobs/nobody/stream"
    then Some (stream "nobody" w) else None in
  fetch (default "" (Some "http://worker:8787") +:+ "/jobs/" +:+ "nobody"
           +:+ "/stream") w
  = Some (stream "nobody" w)
  ∧ Web.stream_status
      (Web.GET_stream (Some "http://worker:8787") getUser
                      (Some "Bearer secret") "nobody" fetch w).2
    = Some 502.
Proof.
  intros w getUser fetch.
  assert (H : fetch (default "" (Some "http://worker:8787") +:+ "/jobs/"
                       +:+ "nobody" +:+ "/stream") w
              = Some (stream "nobody" w)) by reflexivity.
  split; [exact H|].
  destruct (web_stream_route (Some "http://worker:8787") getUser
              (Some "Bearer secret") "nobody" fetch w H)
    as (_ & Hbad & _).
  apply Hbad. split; [reflexivity|]. split.
  - exists (Web.mkUser "u1" None). reflexivity.
  - vm_compute. reflexivity.
Defined.
